(** * The trees and graphs of [dsa-practice]

    A shallow embedding of [src/data-structures/graphs/graph.ts]: the
    [AvlBinarySearchTree], the plain [BinarySearchTree] its documentation
    is compared with, and the three graph classes [Graph], [WeightedGraph]
    and [GraphMatrix], together with the proofs of their structural
    invariants and of what their methods do.

    Conventions of the embedding:
    - [AvlNode<T> | null] is the inductive type [AvlNode], with [Null] for
      [null]; the cached [height] field is kept in every node.
    - numbers ([height], [size], [count], the result of [compare], the
      weights of the matrix) are integers in [Z];
    - a function that dereferences a node returns [option]: [None] stands for
      the [TypeError] raised by a property access on [null] or [undefined]
      (the non-null assertions [node.left!] are erased at run time);
    - the [size] field of the handle, which [insertNode] and [deleteNode]
      update while they recurse, is threaded through them explicitly;
    - in-place updates of a node are rendered by rebuilding the node: the
      tree is owned by its handle and never shared;
    - a [Map] or a [Set] is the list of its entries in insertion order, with
      an equality test on the keys that decides equality. *)

From Stdlib Require Import ZArith List Lia Bool Permutation Sorted.
Import ListNotations.
Local Open Scope Z_scope.

Declare Scope js_scope.
Notation "x <- c1 ;; c2" :=
  (match c1 with Some x => c2 | None => None end)
  (at level 61, c1 at next level, right associativity) : js_scope.
Notation "' pat <- c1 ;; c2" :=
  (match c1 with Some pat => c2 | None => None end)
  (at level 61, pat pattern, c1 at next level, right associativity) : js_scope.
Local Open Scope js_scope.

(** The default comparison function installed by both constructors, on
    integer keys. *)
Definition defaultCompare (a b : Z) : Z :=
  if a <? b then -1 else if a >? b then 1 else 0.

(** ** The plain [BinarySearchTree]: only what [isBalanced] reads *)
Module Bst.

Inductive TreeNode (T : Type) : Type :=
| Null : TreeNode T
| Node (data : T) (left right : TreeNode T) : TreeNode T.
Arguments Null {T}.
Arguments Node {T} data left right.

Record BinarySearchTree (T : Type) : Type :=
  mkTree { root : TreeNode T; size : Z }.
Arguments mkTree {T} root size.
Arguments root {T} _.
Arguments size {T} _.

Section Bst.
Context {T : Type}.

(** [checkBalance] and [isBalanced] of the plain tree, l. 708-726. *)
Fixpoint checkBalance (node : TreeNode T) : Z :=
  match node with
  | Null => 0
  | Node _ l r =>
      let leftHeight := checkBalance l in
      if leftHeight =? -1 then -1 else
      let rightHeight := checkBalance r in
      if rightHeight =? -1 then -1 else
      if Z.abs (leftHeight - rightHeight) >? 1 then -1
      else 1 + Z.max leftHeight rightHeight
  end.

Definition isBalanced (t : BinarySearchTree T) : bool :=
  negb (checkBalance (root t) =? -1).
End Bst.

End Bst.

(** ** The AVL tree *)
Module Avl.

Inductive AvlNode (T : Type) : Type :=
| Null : AvlNode T
| Node (data : T) (left right : AvlNode T) (height : Z) : AvlNode T.
Arguments Null {T}.
Arguments Node {T} data left right height.

Record AvlBinarySearchTree (T : Type) : Type :=
  mkTree { root : AvlNode T; size : Z }.
Arguments mkTree {T} root size.
Arguments root {T} _.
Arguments size {T} _.

(** The accumulator of [kthSmallest]. *)
Record KthResult (T : Type) : Type :=
  mkResult { count : Z; value : option T }.
Arguments mkResult {T} count value.
Arguments count {T} _.
Arguments value {T} _.

Inductive Op (T : Type) : Type :=
| OpInsert (data : T)
| OpDelete (data : T).
Arguments OpInsert {T} data.
Arguments OpDelete {T} data.

Section Avl.
Context {T : Type}.
Variable compare : T -> T -> Z.

(** The state left by the constructor: no root, [size = 0]. *)
Definition empty : AvlBinarySearchTree T := mkTree Null 0.

(** [getHeight], l. 866: the cached height, -1 for [null]. *)
Definition getHeight (node : AvlNode T) : Z :=
  match node with
  | Null => -1
  | Node _ _ _ h => h
  end.

(** [updateHeight], l. 873: the node with its height field recomputed from
    the cached heights of its children. *)
Definition updateHeight (node : AvlNode T) : option (AvlNode T) :=
  match node with
  | Null => None
  | Node d l r _ => Some (Node d l r (1 + Z.max (getHeight l) (getHeight r)))
  end.

(** [getBalanceFactor], l. 880. *)
Definition getBalanceFactor (node : AvlNode T) : option Z :=
  match node with
  | Null => None
  | Node _ l r _ => Some (getHeight l - getHeight r)
  end.

(** [rotateRight], l. 892: [x = y.left] becomes the root, [y] its right
    child with [x]'s former right subtree [B] on its left; the height of [y]
    is recomputed before that of [x]. *)
Definition rotateRight (y : AvlNode T) : option (AvlNode T) :=
  match y with
  | Null => None
  | Node yd x C yh =>
      match x with
      | Null => None
      | Node xd A B xh =>
          y' <- updateHeight (Node yd B C yh) ;;
          updateHeight (Node xd A y' xh)
      end
  end.

(** [rotateLeft], l. 915: the mirror image. *)
Definition rotateLeft (x : AvlNode T) : option (AvlNode T) :=
  match x with
  | Null => None
  | Node xd A y xh =>
      match y with
      | Null => None
      | Node yd B C yh =>
          x' <- updateHeight (Node xd A B xh) ;;
          updateHeight (Node yd x' C yh)
      end
  end.

(** [rotateLeftRight], l. 933. *)
Definition rotateLeftRight (node : AvlNode T) : option (AvlNode T) :=
  match node with
  | Null => None
  | Node d l r h =>
      l' <- rotateLeft l ;;
      rotateRight (Node d l' r h)
  end.

(** [rotateRightLeft], l. 941. *)
Definition rotateRightLeft (node : AvlNode T) : option (AvlNode T) :=
  match node with
  | Null => None
  | Node d l r h =>
      r' <- rotateRight r ;;
      rotateLeft (Node d l r' h)
  end.

(** [balance], l. 949. *)
Definition balance (node : AvlNode T) : option (AvlNode T) :=
  node <- updateHeight node ;;
  balanceFactor <- getBalanceFactor node ;;
  match node with
  | Null => None
  | Node _ l r _ =>
      if balanceFactor >? 1 then
        bl <- getBalanceFactor l ;;
        if bl <? 0 then rotateLeftRight node else rotateRight node
      else if balanceFactor <? -1 then
        br <- getBalanceFactor r ;;
        if br >? 0 then rotateRightLeft node else rotateLeft node
      else Some node
  end.

(** [insertNode], l. 984; on the equality path the counter is decremented
    and the node returned as it is, without rebalancing. *)
Fixpoint insertNode (node : AvlNode T) (data : T) (size : Z)
  : option (AvlNode T * Z) :=
  match node with
  | Null => Some (Node data Null Null 0, size)
  | Node d l r h =>
      let comparison := compare data d in
      if comparison <? 0 then
        '(l', size) <- insertNode l data size ;;
        node' <- balance (Node d l' r h) ;;
        Some (node', size)
      else if comparison >? 0 then
        '(r', size) <- insertNode r data size ;;
        node' <- balance (Node d l r' h) ;;
        Some (node', size)
      else Some (node, size - 1)
  end.

(** [insert], l. 979. *)
Definition insert (t : AvlBinarySearchTree T) (data : T)
  : option (AvlBinarySearchTree T) :=
  '(root', size') <- insertNode (root t) data (size t) ;;
  Some (mkTree root' (size' + 1)).

(** [searchNode] and [search], l. 1008-1025. *)
Fixpoint searchNode (node : AvlNode T) (data : T) : AvlNode T :=
  match node with
  | Null => Null
  | Node d l r _ =>
      let comparison := compare data d in
      if comparison =? 0 then node
      else if comparison <? 0 then searchNode l data
      else searchNode r data
  end.

Definition search (t : AvlBinarySearchTree T) (data : T) : bool :=
  match searchNode (root t) data with
  | Null => false
  | Node _ _ _ _ => true
  end.

(** [findMinNode], l. 1084: the loop to the leftmost node, by recursion on
    the left spine. *)
Fixpoint findMinNode (node : AvlNode T) : AvlNode T :=
  match node with
  | Null => Null
  | Node _ l _ _ =>
      match l with
      | Null => node
      | Node _ _ _ _ => findMinNode l
      end
  end.

(** [findMaxNode], l. 1099. *)
Fixpoint findMaxNode (node : AvlNode T) : AvlNode T :=
  match node with
  | Null => Null
  | Node _ _ r _ =>
      match r with
      | Null => node
      | Node _ _ _ _ => findMaxNode r
      end
  end.

(** The field access [node.data]. *)
Definition dataOf (node : AvlNode T) : option T :=
  match node with
  | Null => None
  | Node d _ _ _ => Some d
  end.

Definition findMin (t : AvlBinarySearchTree T) : option T :=
  dataOf (findMinNode (root t)).

Definition findMax (t : AvlBinarySearchTree T) : option T :=
  dataOf (findMaxNode (root t)).

(** [deleteNode], l. 1036.  In the two-children case [node.data] is
    overwritten with the successor key, that key is deleted from the right
    subtree (which decrements the counter a second time), and the counter is
    incremented once. *)
Fixpoint deleteNode (node : AvlNode T) (data : T) (size : Z)
  : option (AvlNode T * Z) :=
  match node with
  | Null => Some (Null, size)
  | Node d l r h =>
      let comparison := compare data d in
      if comparison <? 0 then
        '(l', size) <- deleteNode l data size ;;
        node' <- balance (Node d l' r h) ;;
        Some (node', size)
      else if comparison >? 0 then
        '(r', size) <- deleteNode r data size ;;
        node' <- balance (Node d l r' h) ;;
        Some (node', size)
      else
        let size := size - 1 in
        match l, r with
        | Null, Null => Some (Null, size)
        | Null, Node _ _ _ _ => Some (r, size)
        | Node _ _ _ _, Null => Some (l, size)
        | Node _ _ _ _, Node _ _ _ _ =>
            sd <- dataOf (findMinNode r) ;;
            '(r', size) <- deleteNode r sd size ;;
            let size := size + 1 in
            node' <- balance (Node sd l r' h) ;;
            Some (node', size)
        end
  end.

(** [delete] returns the new handle together with its boolean result. *)
Definition delete (t : AvlBinarySearchTree T) (data : T)
  : option (AvlBinarySearchTree T * bool) :=
  let initialSize := size t in
  '(root', size') <- deleteNode (root t) data (size t) ;;
  Some (mkTree root' size', size' <? initialSize).

(** [inorderHelper] and [inorderTraversal], l. 1109-1121; [result.push] is
    rendered by appending to the accumulator. *)
Fixpoint inorderHelper (node : AvlNode T) (result : list T) : list T :=
  match node with
  | Null => result
  | Node d l r _ => inorderHelper r (inorderHelper l result ++ [d])
  end.

Definition inorderTraversal (t : AvlBinarySearchTree T) : list T :=
  inorderHelper (root t) [].

(** [height], l. 1180. *)
Definition height (t : AvlBinarySearchTree T) : Z := getHeight (root t).

(** [isBalanced], l. 1187. *)
Definition isBalanced (t : AvlBinarySearchTree T) : bool := true.

(** [count()], the accessor of the [size] field (the specification calls it
    [size()]); the plain name is taken by the accumulator of [kthSmallest]. *)
Definition count_ (t : AvlBinarySearchTree T) : Z := size t.

(** [kthSmallestHelper] and [kthSmallest], l. 1216-1236; the shared
    [result] object is threaded through the calls. *)
Fixpoint kthSmallestHelper (node : AvlNode T) (k : Z) (result : KthResult T)
  : KthResult T :=
  match node with
  | Null => result
  | Node d l r _ =>
      match value result with
      | Some _ => result
      | None =>
          let result := kthSmallestHelper l k result in
          let result := mkResult (count result + 1) (value result) in
          if count result =? k then mkResult (count result) (Some d)
          else kthSmallestHelper r k result
      end
  end.

Definition kthSmallest (t : AvlBinarySearchTree T) (k : Z) : option T :=
  if (k <=? 0) || (k >? size t) then None
  else value (kthSmallestHelper (root t) k (mkResult 0 None)).

(** [findLCA] and [lowestCommonAncestor], l. 1241-1261. *)
Fixpoint findLCA (node : AvlNode T) (val1 val2 : T) : AvlNode T :=
  match node with
  | Null => Null
  | Node d l r _ =>
      let comp1 := compare val1 d in
      let comp2 := compare val2 d in
      if (comp1 <? 0) && (comp2 <? 0) then findLCA l val1 val2
      else if (comp1 >? 0) && (comp2 >? 0) then findLCA r val1 val2
      else node
  end.

Definition lowestCommonAncestor (t : AvlBinarySearchTree T) (val1 val2 : T)
  : option T :=
  dataOf (findLCA (root t) val1 val2).

(** [validateBST] and [isValidBST], l. 1266-1280. *)
Fixpoint validateBST (node : AvlNode T) (min max : option T) : bool :=
  match node with
  | Null => true
  | Node d l r _ =>
      if match min with Some m => compare d m <=? 0 | None => false end
         || match max with Some m => compare d m >=? 0 | None => false end
      then false
      else validateBST l min (Some d) && validateBST r (Some d) max
  end.

Definition isValidBST (t : AvlBinarySearchTree T) : bool :=
  validateBST (root t) None None.

(** [validateAVL] and [isValidAVL], l. 1285-1305. *)
Fixpoint validateAVL (node : AvlNode T) : bool :=
  match node with
  | Null => true
  | Node _ l r h =>
      let balanceFactor := getHeight l - getHeight r in
      if Z.abs balanceFactor >? 1 then false
      else
        let expectedHeight := 1 + Z.max (getHeight l) (getHeight r) in
        if negb (h =? expectedHeight) then false
        else validateAVL l && validateAVL r
  end.

Definition isValidAVL (t : AvlBinarySearchTree T) : bool :=
  validateAVL (root t).

(** A call sequence on one handle; [None] if some call throws. *)
Definition applyOp (t : AvlBinarySearchTree T) (op : Op T)
  : option (AvlBinarySearchTree T) :=
  match op with
  | OpInsert d => insert t d
  | OpDelete d => '(t', _) <- delete t d ;; Some t'
  end.

Fixpoint applyOps (t : AvlBinarySearchTree T) (ops : list (Op T))
  : option (AvlBinarySearchTree T) :=
  match ops with
  | [] => Some t
  | op :: ops => t' <- applyOp t op ;; applyOps t' ops
  end.

Definition insertAll (t : AvlBinarySearchTree T) (keys : list T)
  : option (AvlBinarySearchTree T) :=
  applyOps t (map OpInsert keys).

(** *** Specification vocabulary *)

(** The strict order induced by the comparison function. *)
Definition lt (a b : T) : Prop := compare a b < 0.

(** What the constructor expects of [compareFn]: a strict total order
    whose zero results are exactly the equal keys. *)
Record StrictTotalOrder : Prop := {
  compare_eq : forall a b, compare a b = 0 <-> a = b;
  compare_flip : forall a b, compare a b < 0 <-> 0 < compare b a;
  compare_trans :
    forall a b c, compare a b < 0 -> compare b c < 0 -> compare a c < 0
}.

(** The in-order key sequence, as a function of the node. *)
Fixpoint inorder (node : AvlNode T) : list T :=
  match node with
  | Null => []
  | Node d l r _ => inorder l ++ d :: inorder r
  end.

(** AVL property together with height-cache correctness, at every node. *)
Fixpoint avl (node : AvlNode T) : Prop :=
  match node with
  | Null => True
  | Node _ l r h =>
      avl l /\ avl r /\
      h = 1 + Z.max (getHeight l) (getHeight r) /\
      -1 <= getHeight l - getHeight r <= 1
  end.

(** BST property at every node. *)
Fixpoint bst (node : AvlNode T) : Prop :=
  match node with
  | Null => True
  | Node d l r _ =>
      bst l /\ bst r /\
      Forall (fun k => lt k d) (inorder l) /\
      Forall (fun k => lt d k) (inorder r)
  end.

(** The height of a subtree computed from its shape, against which the
    cached [height] fields are judged. *)
Fixpoint realHeight (node : AvlNode T) : Z :=
  match node with
  | Null => -1
  | Node _ l r _ => 1 + Z.max (realHeight l) (realHeight r)
  end.

(** [k] lies between [a] and [b], bounds included: the two arguments are
    neither both below nor both above it. *)
Definition between (a b k : T) : Prop :=
  ~ (compare a k < 0 /\ compare b k < 0) /\
  ~ (0 < compare a k /\ 0 < compare b k).

(** The open bounds that [validateBST] passes down. *)
Definition above (min : option T) (k : T) : Prop :=
  match min with Some m => lt m k | None => True end.

Definition below (max : option T) (k : T) : Prop :=
  match max with Some m => lt k m | None => True end.

(** The key of one deepest leaf, found by following the higher child (the
    left one on a tie), and the tree without that leaf, its cached heights
    recomputed on the way back.  They are used to rebuild an AVL-shaped tree
    by insertions alone. *)
Definition isNull (node : AvlNode T) : bool :=
  match node with
  | Null => true
  | Node _ _ _ _ => false
  end.

Fixpoint deepLeaf (node : AvlNode T) : option T :=
  match node with
  | Null => None
  | Node d l r _ =>
      if isNull l && isNull r then Some d
      else if getHeight l >=? getHeight r then deepLeaf l
      else deepLeaf r
  end.

Fixpoint dropLeaf (node : AvlNode T) : AvlNode T :=
  match node with
  | Null => Null
  | Node d l r _ =>
      if isNull l && isNull r then Null
      else if getHeight l >=? getHeight r then
        Node d (dropLeaf l) r (1 + Z.max (getHeight (dropLeaf l)) (getHeight r))
      else
        Node d l (dropLeaf r) (1 + Z.max (getHeight l) (getHeight (dropLeaf r)))
  end.

(** A valid tree state: both invariants hold and the counter of the
    handle is the number of stored keys. *)
Definition valid (t : AvlBinarySearchTree T) : Prop :=
  bst (root t) /\ avl (root t) /\
  size t = Z.of_nat (length (inorder (root t))).

End Avl.

End Avl.

(** ** Vocabulary of the height bound *)
Module HeightBound.
Import Avl.

(** Fibonacci numbers, [fib 0 = 0], [fib 1 = 1]. *)
Fixpoint fibPair (n : nat) : Z * Z :=
  match n with
  | O => (0, 1)
  | S n => let '(a, b) := fibPair n in (b, a + b)
  end.

Definition fib (n : nat) : Z := fst (fibPair n).

(** [h <= 1.44 * log2 (n + 2) - 1], for [h >= -1] and [n >= 0], without
    logarithms: [(h + 1) * 25 / 36 <= log2 (n + 2)], that is
    [2 ^ (25 * (h + 1)) <= (n + 2) ^ 36]. *)
Definition specHeightBound (h n : Z) : Prop :=
  2 ^ (25 * (h + 1)) <= (n + 2) ^ 36.

(** [h <= 1.4405 * log2 (n + 2) - 1] in the same way, 1.4405 being
    2881 / 2000. *)
Definition sharpHeightBound (h n : Z) : Prop :=
  2 ^ (2000 * (h + 1)) <= (n + 2) ^ 2881.

(** The largest integer that the [size] counter, a double, still counts
    exactly: [Number.MAX_SAFE_INTEGER + 1]. *)
Definition maxExactSize : Z := 2 ^ 53.

(** The keys [1 .. n] in ascending order. *)
Definition ascending (n : nat) : list Z := map Z.of_nat (seq 1 n).

(** A sparsest AVL tree with [m] levels on the keys [lo, lo + 1, ...]: its
    left subtree has [m - 1] levels and its right subtree [m - 2]. *)
Fixpoint fibTree (m : nat) (lo : Z) : AvlNode Z :=
  match m with
  | O => Null
  | S p =>
      match p with
      | O => Node lo Null Null 0
      | S q =>
          let nl := fib (p + 2) - 1 in
          Node (lo + nl) (fibTree p lo) (fibTree q (lo + nl + 1)) (Z.of_nat p)
      end
  end.

End HeightBound.

Import Avl.
Import HeightBound.

(** The tree built by inserting 1, 2, 3, 4, 5 in this order. *)
Definition five : AvlBinarySearchTree Z :=
  mkTree
    (Node 2 (Node 1 Null Null 0)
            (Node 4 (Node 3 Null Null 0) (Node 5 Null Null 0) 1) 2) 5.

(** ** The remaining operations of the AVL tree *)
Module AvlRest.

(** How a loop ends: with a value, by a [TypeError], or cut off by the
    step budget of the embedding. *)
Inductive Outcome (A : Type) : Type :=
| Done (a : A)
| Throws
| OutOfFuel.
Arguments Done {A} a.
Arguments Throws {A}.
Arguments OutOfFuel {A}.

Section AvlRest.
Context {T : Type}.

(** [preorderHelper] and [preorderTraversal], l. 1126-1138. *)
Fixpoint preorderHelper (node : AvlNode T) (result : list T) : list T :=
  match node with
  | Null => result
  | Node d l r _ => preorderHelper r (preorderHelper l (result ++ [d]))
  end.

Definition preorderTraversal (t : AvlBinarySearchTree T) : list T :=
  preorderHelper (root t) [].

(** [postorderHelper] and [postorderTraversal], l. 1143-1155. *)
Fixpoint postorderHelper (node : AvlNode T) (result : list T) : list T :=
  match node with
  | Null => result
  | Node d l r _ => postorderHelper r (postorderHelper l result) ++ [d]
  end.

Definition postorderTraversal (t : AvlBinarySearchTree T) : list T :=
  postorderHelper (root t) [].

(** The [while (queue.length > 0)] loop of [levelOrderTraversal],
    l. 1166-1172: one iteration per unit of [fuel].  [queue.shift()] takes
    the head, a child is pushed when it is not null. *)
Fixpoint levelOrderLoop (fuel : nat) (queue : list (AvlNode T))
  (result : list T) : Outcome (list T) :=
  match queue with
  | [] => Done result
  | node :: queue =>
      match fuel with
      | O => OutOfFuel
      | S fuel =>
          match node with
          | Null => Throws
          | Node d l r _ =>
              let result := result ++ [d] in
              let queue := if isNull l then queue else queue ++ [l] in
              let queue := if isNull r then queue else queue ++ [r] in
              levelOrderLoop fuel queue result
          end
      end
  end.

(** [levelOrderTraversal], l. 1160. *)
Definition levelOrderTraversal (fuel : nat) (t : AvlBinarySearchTree T)
  : Outcome (list T) :=
  if isNull (root t) then Done []
  else levelOrderLoop fuel [root t] [].

(** [isEmpty], l. 1201, and [clear], l. 1208. *)
Definition isEmpty (t : AvlBinarySearchTree T) : bool := isNull (root t).

Definition clear (t : AvlBinarySearchTree T) : AvlBinarySearchTree T :=
  mkTree Null 0.

(** [collectBalanceFactors] and [getBalanceFactors], l. 1310-1322: the
    entries [{data, balance}] as pairs, in preorder.  The node at hand is
    not null, so its balance factor is read without a failure. *)
Fixpoint collectBalanceFactors (node : AvlNode T) (result : list (T * Z))
  : list (T * Z) :=
  match node with
  | Null => result
  | Node d l r _ =>
      let balance := getHeight l - getHeight r in
      collectBalanceFactors r
        (collectBalanceFactors l (result ++ [(d, balance)]))
  end.

Definition getBalanceFactors (t : AvlBinarySearchTree T) : list (T * Z) :=
  collectBalanceFactors (root t) [].

(** *** Specification vocabulary *)

(** The preorder and postorder key sequences as functions of the node. *)
Fixpoint preorder (node : AvlNode T) : list T :=
  match node with
  | Null => []
  | Node d l r _ => d :: preorder l ++ preorder r
  end.

Fixpoint postorder (node : AvlNode T) : list T :=
  match node with
  | Null => []
  | Node d l r _ => postorder l ++ postorder r ++ [d]
  end.

(** Every cached height is the real height of its subtree. *)
Fixpoint heightsCached (node : AvlNode T) : Prop :=
  match node with
  | Null => True
  | Node _ l r h =>
      heightsCached l /\ heightsCached r /\
      h = 1 + Z.max (realHeight l) (realHeight r)
  end.

(** At every node the real heights of the two subtrees differ by at most
    one. *)
Fixpoint heightBalanced (node : AvlNode T) : Prop :=
  match node with
  | Null => True
  | Node _ l r _ =>
      heightBalanced l /\ heightBalanced r /\
      -1 <= realHeight l - realHeight r <= 1
  end.

(** The keys stored in the nodes of a queue. *)
Definition queueKeys (queue : list (AvlNode T)) : list T :=
  concat (map inorder queue).

End AvlRest.

End AvlRest.

(** ** The remaining operations of the plain [BinarySearchTree] *)
Module PlainBst.
Import Bst.

Section PlainBst.
Context {T : Type}.
Variable compare : T -> T -> Z.

Definition empty : BinarySearchTree T := mkTree Null 0.

(** [insertNode], l. 506: on the equality path the node is returned as it
    is. *)
Fixpoint insertNode (node : TreeNode T) (data : T) : TreeNode T :=
  match node with
  | Null => Node data Null Null
  | Node d l r =>
      let comparison := compare data d in
      if comparison <? 0 then Node d (insertNode l data) r
      else if comparison >? 0 then Node d l (insertNode r data)
      else node
  end.

(** [insert], l. 501: the counter is incremented on every call. *)
Definition insert (t : BinarySearchTree T) (data : T) : BinarySearchTree T :=
  mkTree (insertNode (root t) data) (size t + 1).

(** [searchNode] and [search], l. 525-542. *)
Fixpoint searchNode (node : TreeNode T) (data : T) : TreeNode T :=
  match node with
  | Null => Null
  | Node d l r =>
      let comparison := compare data d in
      if comparison =? 0 then node
      else if comparison <? 0 then searchNode l data
      else searchNode r data
  end.

Definition isNull (node : TreeNode T) : bool :=
  match node with
  | Null => true
  | Node _ _ _ => false
  end.

Definition search (t : BinarySearchTree T) (data : T) : bool :=
  negb (isNull (searchNode (root t) data)).

(** [findMinNode], l. 600, and the field access [node.data]. *)
Fixpoint findMinNode (node : TreeNode T) : TreeNode T :=
  match node with
  | Null => Null
  | Node _ l _ =>
      match l with
      | Null => node
      | Node _ _ _ => findMinNode l
      end
  end.

Definition dataOf (node : TreeNode T) : option T :=
  match node with
  | Null => None
  | Node d _ _ => Some d
  end.

(** [deleteNode], l. 553, with the counter threaded through; [None] stands
    for a [TypeError]. *)
Fixpoint deleteNode (node : TreeNode T) (data : T) (size : Z)
  : option (TreeNode T * Z) :=
  match node with
  | Null => Some (Null, size)
  | Node d l r =>
      let comparison := compare data d in
      if comparison <? 0 then
        match deleteNode l data size with
        | Some (l', size) => Some (Node d l' r, size)
        | None => None
        end
      else if comparison >? 0 then
        match deleteNode r data size with
        | Some (r', size) => Some (Node d l r', size)
        | None => None
        end
      else
        let size := size - 1 in
        match l, r with
        | Null, Null => Some (Null, size)
        | Null, Node _ _ _ => Some (r, size)
        | Node _ _ _, Null => Some (l, size)
        | Node _ _ _, Node _ _ _ =>
            match dataOf (findMinNode r) with
            | Some sd =>
                match deleteNode r sd size with
                | Some (r', size) => Some (Node sd l r', size + 1)
                | None => None
                end
            | None => None
            end
        end
  end.

(** [delete], l. 547: the new handle and the boolean result. *)
Definition delete (t : BinarySearchTree T) (data : T)
  : option (BinarySearchTree T * bool) :=
  let initialSize := size t in
  match deleteNode (root t) data (size t) with
  | Some (root', size') => Some (mkTree root' size', size' <? initialSize)
  | None => None
  end.

(** [inorderHelper] and [inorderTraversal], l. 625-637. *)
Fixpoint inorderHelper (node : TreeNode T) (result : list T) : list T :=
  match node with
  | Null => result
  | Node d l r => inorderHelper r (inorderHelper l result ++ [d])
  end.

Definition inorderTraversal (t : BinarySearchTree T) : list T :=
  inorderHelper (root t) [].

(** [getHeight] and [height], l. 696-703: computed, not cached. *)
Fixpoint getHeight (node : TreeNode T) : Z :=
  match node with
  | Null => -1
  | Node _ l r => 1 + Z.max (getHeight l) (getHeight r)
  end.

Definition height (t : BinarySearchTree T) : Z := getHeight (root t).

(** [count], l. 731. *)
Definition count (t : BinarySearchTree T) : Z := size t.

(** [validateBST] and [isValidBST], l. 803-817. *)
Fixpoint validateBST (node : TreeNode T) (min max : option T) : bool :=
  match node with
  | Null => true
  | Node d l r =>
      if match min with Some m => compare d m <=? 0 | None => false end
         || match max with Some m => compare d m >=? 0 | None => false end
      then false
      else validateBST l min (Some d) && validateBST r (Some d) max
  end.

Definition isValidBST (t : BinarySearchTree T) : bool :=
  validateBST (root t) None None.

(** [kthSmallestHelper] and [kthSmallest], l. 753-773. *)
Fixpoint kthSmallestHelper (node : TreeNode T) (k : Z)
  (result : Avl.KthResult T) : Avl.KthResult T :=
  match node with
  | Null => result
  | Node d l r =>
      match Avl.value result with
      | Some _ => result
      | None =>
          let result := kthSmallestHelper l k result in
          let result :=
            Avl.mkResult (Avl.count result + 1) (Avl.value result) in
          if Avl.count result =? k
          then Avl.mkResult (Avl.count result) (Some d)
          else kthSmallestHelper r k result
      end
  end.

Definition kthSmallest (t : BinarySearchTree T) (k : Z) : option T :=
  if (k <=? 0) || (k >? size t) then None
  else Avl.value (kthSmallestHelper (root t) k (Avl.mkResult 0 None)).

Definition insertAll (t : BinarySearchTree T) (keys : list T)
  : BinarySearchTree T :=
  fold_left insert keys t.

(** *** Specification vocabulary *)

(** The same tree as an AVL node structure, its height fields left at 0:
    the code that does not read heights runs alike on both. *)
Fixpoint embed (node : TreeNode T) : Avl.AvlNode T :=
  match node with
  | Null => Avl.Null
  | Node d l r => Avl.Node d (embed l) (embed r) 0
  end.

(** At every node the heights of the two subtrees differ by at most one. *)
Fixpoint heightBalanced (node : TreeNode T) : Prop :=
  match node with
  | Null => True
  | Node _ l r =>
      heightBalanced l /\ heightBalanced r /\
      -1 <= getHeight l - getHeight r <= 1
  end.

(** The chain that hangs every key on the right of the one before. *)
Fixpoint chain (keys : list T) : TreeNode T :=
  match keys with
  | [] => Null
  | d :: keys => Node d Null (chain keys)
  end.

End PlainBst.

End PlainBst.

(** ** The graphs

    A [Map] is the list of its entries and a [Set] the list of its members,
    both in insertion order and without repeated keys; [eqb] is the equality
    of [Map] and [Set] keys and the [===] of the weighted graph on vertices
    (the two differ on [NaN] only, which is no vertex here).  Deleting a key
    filters it out, setting a key that is present replaces its value in
    place, and a new key goes to the end. *)
Module Graphs.

Record Graph (T : Type) : Type :=
  mkGraph { adjacencyList : list (T * list T); directed : bool }.
Arguments mkGraph {T} adjacencyList directed.
Arguments adjacencyList {T} _.
Arguments directed {T} _.

Inductive GraphOp (T : Type) : Type :=
| AddVertex (vertex : T)
| AddEdge (from to : T)
| RemoveVertex (vertex : T)
| RemoveEdge (from to : T).
Arguments AddVertex {T} vertex.
Arguments AddEdge {T} from to.
Arguments RemoveVertex {T} vertex.
Arguments RemoveEdge {T} from to.

(** [WeightedEdge], l. 204. *)
Record WeightedEdge (T W : Type) : Type :=
  mkEdge { to : T; weight : W }.
Arguments mkEdge {T W} to weight.
Arguments to {T W} _.
Arguments weight {T W} _.

Record WeightedGraph (T W : Type) : Type :=
  mkWeighted { wAdjacencyList : list (T * list (WeightedEdge T W));
               wDirected : bool }.
Arguments mkWeighted {T W} wAdjacencyList wDirected.
Arguments wAdjacencyList {T W} _.
Arguments wDirected {T W} _.

Section Maps.
Context {K V : Type}.
Variable eqb : K -> K -> bool.

Definition mapGet (m : list (K * V)) (k : K) : option V :=
  match find (fun e => eqb (fst e) k) m with
  | Some e => Some (snd e)
  | None => None
  end.

Definition mapHas (m : list (K * V)) (k : K) : bool :=
  match mapGet m k with
  | Some _ => true
  | None => false
  end.

Fixpoint mapSet (m : list (K * V)) (k : K) (v : V) : list (K * V) :=
  match m with
  | [] => [(k, v)]
  | (k', v') :: m' =>
      if eqb k' k then (k', v) :: m' else (k', v') :: mapSet m' k v
  end.

Definition mapDelete (m : list (K * V)) (k : K) : list (K * V) :=
  filter (fun e => negb (eqb (fst e) k)) m.

Definition mapKeys (m : list (K * V)) : list K := map fst m.

Definition setHas (s : list K) (x : K) : bool :=
  existsb (fun y => eqb y x) s.

Definition setAdd (s : list K) (x : K) : list K :=
  if setHas s x then s else s ++ [x].

Definition setDelete (s : list K) (x : K) : list K :=
  filter (fun y => negb (eqb y x)) s.

End Maps.

Section Graph.
Context {T : Type}.
Variable eqb : T -> T -> bool.

(** The constructor, l. 33. *)
Definition newGraph (directed : bool) : Graph T := mkGraph [] directed.

(** [addVertex], l. 41. *)
Definition addVertex (g : Graph T) (vertex : T) : Graph T :=
  if negb (mapHas eqb (adjacencyList g) vertex)
  then mkGraph (mapSet eqb (adjacencyList g) vertex []) (directed g)
  else g.

(** [this.adjacencyList.get(v)!.add(x)]: the set stored under [v] gains
    [x]; a missing entry is a [TypeError]. *)
Definition addTo (m : list (T * list T)) (v x : T)
  : option (list (T * list T)) :=
  match mapGet eqb m v with
  | Some s => Some (mapSet eqb m v (setAdd eqb s x))
  | None => None
  end.

(** [addEdge], l. 50. *)
Definition addEdge (g : Graph T) (from to : T) : option (Graph T) :=
  let g := addVertex g from in
  let g := addVertex g to in
  match addTo (adjacencyList g) from to with
  | None => None
  | Some m =>
      if negb (directed g) then
        match addTo m to from with
        | None => None
        | Some m => Some (mkGraph m (directed g))
        end
      else Some (mkGraph m (directed g))
  end.

(** [removeVertex], l. 64: the new graph and the boolean result. *)
Definition removeVertex (g : Graph T) (vertex : T) : Graph T * bool :=
  if negb (mapHas eqb (adjacencyList g) vertex) then (g, false)
  else
    let m := map (fun e => (fst e, setDelete eqb (snd e) vertex))
                 (adjacencyList g) in
    (mkGraph (mapDelete eqb m vertex) (directed g), true).

(** [this.adjacencyList.get(v)!.delete(x)]: the new map and whether [x]
    was a member. *)
Definition deleteFrom (m : list (T * list T)) (v x : T)
  : option (list (T * list T) * bool) :=
  match mapGet eqb m v with
  | Some s => Some (mapSet eqb m v (setDelete eqb s x), setHas eqb s x)
  | None => None
  end.

(** [removeEdge], l. 82. *)
Definition removeEdge (g : Graph T) (from to : T)
  : option (Graph T * bool) :=
  if negb (mapHas eqb (adjacencyList g) from)
     || negb (mapHas eqb (adjacencyList g) to)
  then Some (g, false)
  else
    match deleteFrom (adjacencyList g) from to with
    | None => None
    | Some (m, removed1) =>
        if negb (directed g) then
          match deleteFrom m to from with
          | None => None
          | Some (m, removed2) =>
              Some (mkGraph m (directed g), removed1 || removed2)
          end
        else Some (mkGraph m (directed g), removed1)
    end.

(** [hasEdge], l. 100. *)
Definition hasEdge (g : Graph T) (from to : T) : bool :=
  match mapGet eqb (adjacencyList g) from with
  | Some s => setHas eqb s to
  | None => false
  end.

(** [getNeighbors], l. 108, [getVertices], l. 116, [vertexCount], l. 140,
    [getDegree], l. 172, [isEmpty], l. 180, and [clear], l. 165. *)
Definition getNeighbors (g : Graph T) (vertex : T) : list T :=
  match mapGet eqb (adjacencyList g) vertex with
  | Some s => s
  | None => []
  end.

Definition getVertices (g : Graph T) : list T := mapKeys (adjacencyList g).

Definition vertexCount (g : Graph T) : Z :=
  Z.of_nat (length (adjacencyList g)).

Definition getDegree (g : Graph T) (vertex : T) : Z :=
  match mapGet eqb (adjacencyList g) vertex with
  | Some s => Z.of_nat (length s)
  | None => 0
  end.

Definition isEmpty (g : Graph T) : bool :=
  Z.of_nat (length (adjacencyList g)) =? 0.

Definition clear (g : Graph T) : Graph T := mkGraph [] (directed g).

(** [clone], l. 187: the two nested [for ... of] loops over the entries
    and their members. *)
Definition cloneEdges (vertex : T) (neighbors : list T)
  (newGraph : option (Graph T)) : option (Graph T) :=
  fold_left
    (fun acc neighbor =>
       match acc with
       | Some g => addEdge g vertex neighbor
       | None => None
       end)
    neighbors newGraph.

Definition clone (g : Graph T) : option (Graph T) :=
  fold_left
    (fun acc e =>
       match acc with
       | Some ng => cloneEdges (fst e) (snd e) (Some (addVertex ng (fst e)))
       | None => None
       end)
    (adjacencyList g) (Some (newGraph (directed g))).

(** A sequence of mutating calls on one graph. *)
Definition applyGraphOp (g : Graph T) (op : GraphOp T) : option (Graph T) :=
  match op with
  | AddVertex v => Some (addVertex g v)
  | AddEdge a b => addEdge g a b
  | RemoveVertex v => Some (fst (removeVertex g v))
  | RemoveEdge a b =>
      match removeEdge g a b with
      | Some (g', _) => Some g'
      | None => None
      end
  end.

Fixpoint applyGraphOps (g : Graph T) (ops : list (GraphOp T))
  : option (Graph T) :=
  match ops with
  | [] => Some g
  | op :: ops =>
      match applyGraphOp g op with
      | Some g' => applyGraphOps g' ops
      | None => None
      end
  end.

Definition hasVertex (g : Graph T) (vertex : T) : bool :=
  mapHas eqb (adjacencyList g) vertex.

(** What the class keeps true of its map: a vertex has one entry, the ends
    of every edge are vertices, and an undirected graph stores every edge in
    both directions. *)
Definition wellFormed (g : Graph T) : Prop :=
  NoDup (getVertices g) /\
  (forall a b, hasEdge g a b = true ->
               hasVertex g a = true /\ hasVertex g b = true) /\
  (directed g = false -> forall a b, hasEdge g a b = hasEdge g b a).

End Graph.

Section Weighted.
Context {T W : Type}.
Variable eqb : T -> T -> bool.

(** [addVertex], l. 221. *)
Definition wAddVertex (g : WeightedGraph T W) (vertex : T)
  : WeightedGraph T W :=
  if negb (mapHas eqb (wAdjacencyList g) vertex)
  then mkWeighted (mapSet eqb (wAdjacencyList g) vertex []) (wDirected g)
  else g.

(** [this.adjacencyList.get(v)!.push(e)]. *)
Definition pushTo (m : list (T * list (WeightedEdge T W))) (v : T)
  (e : WeightedEdge T W) : option (list (T * list (WeightedEdge T W))) :=
  match mapGet eqb m v with
  | Some edges => Some (mapSet eqb m v (edges ++ [e]))
  | None => None
  end.

(** [addEdge], l. 230. *)
Definition wAddEdge (g : WeightedGraph T W) (from to : T) (weight : W)
  : option (WeightedGraph T W) :=
  let g := wAddVertex g from in
  let g := wAddVertex g to in
  match pushTo (wAdjacencyList g) from (mkEdge to weight) with
  | None => None
  | Some m =>
      if negb (wDirected g) then
        match pushTo m to (mkEdge from weight) with
        | None => None
        | Some m => Some (mkWeighted m (wDirected g))
        end
      else Some (mkWeighted m (wDirected g))
  end.

(** [neighbors.find(neighbor => neighbor.to === to)]. *)
Definition findEdge (edges : list (WeightedEdge T W)) (to : T)
  : option (WeightedEdge T W) :=
  find (fun neighbor => eqb (Graphs.to neighbor) to) edges.

(** [getEdgeWeight], l. 244. *)
Definition wGetEdgeWeight (g : WeightedGraph T W) (from to : T) : option W :=
  match mapGet eqb (wAdjacencyList g) from with
  | None => None
  | Some neighbors =>
      match findEdge neighbors to with
      | Some edge => Some (weight edge)
      | None => None
      end
  end.

(** [hasEdge], l. 294. *)
Definition wHasEdge (g : WeightedGraph T W) (from to : T) : bool :=
  match mapGet eqb (wAdjacencyList g) from with
  | Some neighbors =>
      existsb (fun neighbor => eqb (Graphs.to neighbor) to) neighbors
  | None => false
  end.

(** [edge.weight = newWeight] on the first edge that [find] returns: the
    edge object sits in the array, so the array sees the new weight. *)
Fixpoint setFirstWeight (edges : list (WeightedEdge T W)) (to : T)
  (newWeight : W) : list (WeightedEdge T W) :=
  match edges with
  | [] => []
  | edge :: edges =>
      if eqb (Graphs.to edge) to
      then mkEdge (Graphs.to edge) newWeight :: edges
      else edge :: setFirstWeight edges to newWeight
  end.

(** [updateEdgeWeight], l. 269. *)
Definition wUpdateEdgeWeight (g : WeightedGraph T W) (from to : T)
  (newWeight : W) : WeightedGraph T W * bool :=
  match mapGet eqb (wAdjacencyList g) from with
  | None => (g, false)
  | Some fromNeighbors =>
      match findEdge fromNeighbors to with
      | None => (g, false)
      | Some _ =>
          let m := mapSet eqb (wAdjacencyList g) from
                     (setFirstWeight fromNeighbors to newWeight) in
          if negb (wDirected g) then
            match mapGet eqb m to with
            | Some toNeighbors =>
                (mkWeighted
                   (mapSet eqb m to (setFirstWeight toNeighbors from newWeight))
                   (wDirected g), true)
            | None => (mkWeighted m (wDirected g), true)
            end
          else (mkWeighted m (wDirected g), true)
      end
  end.

(** [removeEdge], l. 302. *)
Definition wRemoveEdge (g : WeightedGraph T W) (from to : T)
  : WeightedGraph T W * bool :=
  match mapGet eqb (wAdjacencyList g) from with
  | None => (g, false)
  | Some fromNeighbors =>
      let initialLength := length fromNeighbors in
      let newNeighbors :=
        filter (fun neighbor => negb (eqb (Graphs.to neighbor) to))
               fromNeighbors in
      let m := mapSet eqb (wAdjacencyList g) from newNeighbors in
      let m :=
        if negb (wDirected g) then
          match mapGet eqb m to with
          | Some toNeighbors =>
              mapSet eqb m to
                (filter (fun neighbor => negb (eqb (Graphs.to neighbor) from))
                        toNeighbors)
          | None => m
          end
        else m in
      (mkWeighted m (wDirected g),
       (length newNeighbors <? length fromNeighbors)%nat)
  end.

(** The constructor, l. 213. *)
Definition newWeighted (directed : bool) : WeightedGraph T W :=
  mkWeighted [] directed.

(** [getWeightedNeighbors], l. 255. *)
Definition wGetWeightedNeighbors (g : WeightedGraph T W) (vertex : T)
  : list (WeightedEdge T W) :=
  match mapGet eqb (wAdjacencyList g) vertex with
  | Some neighbors => neighbors
  | None => []
  end.

(** [getVertices], l. 262. *)
Definition wGetVertices (g : WeightedGraph T W) : list T :=
  mapKeys (wAdjacencyList g).

(** The calls that change a weighted graph, and a sequence of them. *)
Inductive WeightedOp : Type :=
| WAddVertex (vertex : T)
| WAddEdge (from to : T) (weight : W)
| WUpdateEdgeWeight (from to : T) (newWeight : W)
| WRemoveEdge (from to : T).

Definition applyWeightedOp (g : WeightedGraph T W) (op : WeightedOp)
  : option (WeightedGraph T W) :=
  match op with
  | WAddVertex v => Some (wAddVertex g v)
  | WAddEdge a b w => wAddEdge g a b w
  | WUpdateEdgeWeight a b w => Some (fst (wUpdateEdgeWeight g a b w))
  | WRemoveEdge a b => Some (fst (wRemoveEdge g a b))
  end.

Definition applyWeightedOps (g : WeightedGraph T W) (ops : list WeightedOp)
  : option (WeightedGraph T W) :=
  fold_left
    (fun acc op =>
       match acc with
       | Some g => applyWeightedOp g op
       | None => None
       end) ops (Some g).

(** Specification vocabulary: the weights of the edges from [a] to [b], in
    the order of [a]'s adjacency array, and what assigning to the first of
    them gives. *)
Definition weightsBetween (g : WeightedGraph T W) (a b : T) : list W :=
  map weight
      (filter (fun neighbor => eqb (Graphs.to neighbor) b)
              (wGetWeightedNeighbors g a)).

Definition setHead (w : W) (l : list W) : list W :=
  match l with
  | [] => []
  | _ :: l => w :: l
  end.

End Weighted.
Arguments WeightedOp : clear implicits.

(** [GraphMatrix], l. 325: the adjacency matrix as an array of rows, the
    vertices in the order they were added, and the index of each vertex.
    Weights are integers; a cell is [None] where JavaScript reads
    [undefined], that is at a hole of a row or beyond its end. *)
Record GraphMatrix (T : Type) : Type :=
  mkMatrix { matrix : list (list (option Z));
             vertices : list T;
             vertexMap : list (T * nat);
             mDirected : bool }.
Arguments mkMatrix {T} matrix vertices vertexMap mDirected.
Arguments matrix {T} _.
Arguments vertices {T} _.
Arguments vertexMap {T} _.
Arguments mDirected {T} _.

Inductive MatrixOp (T : Type) : Type :=
| MAddVertex (vertex : T)
| MAddEdge (from to : T) (weight : Z)
| MRemoveEdge (from to : T).
Arguments MAddVertex {T} vertex.
Arguments MAddEdge {T} from to weight.
Arguments MRemoveEdge {T} from to.

Section Arrays.
Context {A : Type}.

(** [l[i] = x] for an index the caller has found to be there. *)
Fixpoint listSet (l : list A) (i : nat) (x : A) : list A :=
  match l, i with
  | [], _ => []
  | _ :: l, O => x :: l
  | y :: l, S i => y :: listSet l i x
  end.

(** [row[j] = w] on a JavaScript array: beyond the end the array grows and
    the cells in between are holes. *)
Fixpoint arraySet (row : list (option A)) (j : nat) (w : A)
  : list (option A) :=
  match row, j with
  | [], O => [Some w]
  | [], S j => None :: arraySet [] j w
  | _ :: row, O => Some w :: row
  | c :: row, S j => c :: arraySet row j w
  end.

End Arrays.

Section Matrix.
Context {T : Type}.
Variable eqb : T -> T -> bool.

(** The constructor, l. 331. *)
Definition newMatrix (directed : bool) : GraphMatrix T :=
  mkMatrix [] [] [] directed.

(** [for (let i = 0; i < count; i++) this.matrix[i].push(0)], from index
    [i] on; [None] is the [TypeError] of [undefined.push]. *)
Fixpoint pushZeros (m : list (list (option Z))) (i count : nat)
  : option (list (list (option Z))) :=
  match count with
  | O => Some m
  | S count =>
      match nth_error m i with
      | Some row => pushZeros (listSet m i (row ++ [Some 0])) (S i) count
      | None => None
      end
  end.

(** [addVertex], l. 341. *)
Definition mAddVertex (g : GraphMatrix T) (vertex : T)
  : option (GraphMatrix T) :=
  if mapHas eqb (vertexMap g) vertex then Some g
  else
    let index := length (vertices g) in
    let vertices' := vertices g ++ [vertex] in
    let vertexMap' := mapSet eqb (vertexMap g) vertex index in
    let matrix' := matrix g ++ [repeat (Some 0) (length vertices')] in
    match pushZeros matrix' 0 (length vertices' - 1) with
    | Some m => Some (mkMatrix m vertices' vertexMap' (mDirected g))
    | None => None
    end.

(** [this.matrix[i][j] = w]; [None] is the [TypeError] of a missing row. *)
Definition writeCell (m : list (list (option Z))) (i j : nat) (w : Z)
  : option (list (list (option Z))) :=
  match nth_error m i with
  | Some row => Some (listSet m i (arraySet row j w))
  | None => None
  end.

(** [this.matrix[i][j]]; [None] is the [TypeError] of a missing row,
    [Some None] the value [undefined]. *)
Definition readCell (m : list (list (option Z))) (i j : nat)
  : option (option Z) :=
  match nth_error m i with
  | Some row => Some (nth j row None)
  | None => None
  end.

(** [cell !== 0]. *)
Definition notZero (cell : option Z) : bool :=
  match cell with
  | Some z => negb (z =? 0)
  | None => true
  end.

(** [addEdge], l. 358. Both [get(...)!] find an index, since [addVertex]
    has just run for both ends; without one the first write throws. *)
Definition mAddEdge (g : GraphMatrix T) (from to : T) (weight : Z)
  : option (GraphMatrix T) :=
  g <- mAddVertex g from ;;
  g <- mAddVertex g to ;;
  match mapGet eqb (vertexMap g) from, mapGet eqb (vertexMap g) to with
  | Some fromIndex, Some toIndex =>
      m <- writeCell (matrix g) fromIndex toIndex weight ;;
      if negb (mDirected g) then
        m <- writeCell m toIndex fromIndex weight ;;
        Some (mkMatrix m (vertices g) (vertexMap g) (mDirected g))
      else Some (mkMatrix m (vertices g) (vertexMap g) (mDirected g))
  | _, _ => None
  end.

(** [hasEdge], l. 375. *)
Definition mHasEdge (g : GraphMatrix T) (from to : T) : option bool :=
  match mapGet eqb (vertexMap g) from, mapGet eqb (vertexMap g) to with
  | Some fromIndex, Some toIndex =>
      cell <- readCell (matrix g) fromIndex toIndex ;;
      Some (notZero cell)
  | _, _ => Some false
  end.

(** [getEdgeWeight], l. 387. *)
Definition mGetEdgeWeight (g : GraphMatrix T) (from to : T)
  : option (option Z) :=
  match mapGet eqb (vertexMap g) from, mapGet eqb (vertexMap g) to with
  | Some fromIndex, Some toIndex => readCell (matrix g) fromIndex toIndex
  | _, _ => Some (Some 0)
  end.

(** The loop of [getNeighbors]: [vs] is what is left of [this.vertices]
    from index [i] on. *)
Fixpoint neighborsLoop (m : list (list (option Z))) (index i : nat)
  (vs : list T) (neighbors : list T) : option (list T) :=
  match vs with
  | [] => Some neighbors
  | v :: vs =>
      cell <- readCell m index i ;;
      neighborsLoop m index (S i) vs
        (if notZero cell then neighbors ++ [v] else neighbors)
  end.

(** [getNeighbors], l. 399. *)
Definition mGetNeighbors (g : GraphMatrix T) (vertex : T) : option (list T) :=
  match mapGet eqb (vertexMap g) vertex with
  | None => Some []
  | Some index => neighborsLoop (matrix g) index 0 (vertices g) []
  end.

(** [getVertices], l. 416; [getMatrix], l. 423; [vertexCount], l. 449. *)
Definition mGetVertices (g : GraphMatrix T) : list T := vertices g.

Definition getMatrix (g : GraphMatrix T) : list (list (option Z)) :=
  map (fun row => row) (matrix g).

Definition mVertexCount (g : GraphMatrix T) : Z :=
  Z.of_nat (length (vertices g)).

(** [removeEdge], l. 430. *)
Definition mRemoveEdge (g : GraphMatrix T) (from to : T)
  : option (GraphMatrix T * bool) :=
  match mapGet eqb (vertexMap g) from, mapGet eqb (vertexMap g) to with
  | Some fromIndex, Some toIndex =>
      cell <- readCell (matrix g) fromIndex toIndex ;;
      let hadEdge := notZero cell in
      m <- writeCell (matrix g) fromIndex toIndex 0 ;;
      if negb (mDirected g) then
        m <- writeCell m toIndex fromIndex 0 ;;
        Some (mkMatrix m (vertices g) (vertexMap g) (mDirected g), hadEdge)
      else Some (mkMatrix m (vertices g) (vertexMap g) (mDirected g), hadEdge)
  | _, _ => Some (g, false)
  end.

Definition applyMatrixOp (g : GraphMatrix T) (op : MatrixOp T)
  : option (GraphMatrix T) :=
  match op with
  | MAddVertex v => mAddVertex g v
  | MAddEdge a b w => mAddEdge g a b w
  | MRemoveEdge a b =>
      match mRemoveEdge g a b with
      | Some (g, _) => Some g
      | None => None
      end
  end.

Definition applyMatrixOps (g : GraphMatrix T) (ops : list (MatrixOp T))
  : option (GraphMatrix T) :=
  fold_left
    (fun acc op =>
       match acc with
       | Some g => applyMatrixOp g op
       | None => None
       end) ops (Some g).

(** Specification vocabulary: the matrix is a square of numbers whose
    side is the number of vertices, the index map and the vertex array say
    the same, and the matrix of an undirected graph is symmetric. *)
Definition isSquare (n : nat) (m : list (list (option Z))) : Prop :=
  length m = n /\
  forall i j, (i < n)%nat -> (j < n)%nat ->
    exists row z, nth_error m i = Some row /\ length row = n /\
                  nth j row None = Some z.

Definition indexed (g : GraphMatrix T) : Prop :=
  forall v i,
    mapGet eqb (vertexMap g) v = Some i <-> nth_error (vertices g) i = Some v.

Definition matrixOk (g : GraphMatrix T) : Prop :=
  isSquare (length (vertices g)) (matrix g) /\
  indexed g /\
  (mDirected g = false ->
   forall i j, (i < length (vertices g))%nat -> (j < length (vertices g))%nat ->
     readCell (matrix g) i j = readCell (matrix g) j i).

End Matrix.

End Graphs.

(** ** Small instances, on integer keys *)

(** The plain tree that results from inserting 2, 1, 3. *)
Definition three : Bst.BinarySearchTree Z :=
  Bst.mkTree (Bst.Node 2 (Bst.Node 1 Bst.Null Bst.Null)
                         (Bst.Node 3 Bst.Null Bst.Null)) 3.

(** The undirected graphs with the single edge 1 - 2, of weight 7 in the
    weighted graph and of weight 5 in the matrix. *)
Definition pair12 : Graphs.Graph Z :=
  Graphs.mkGraph [(1, [2]); (2, [1])] false.

Definition weighted12 : Graphs.WeightedGraph Z Z :=
  Graphs.mkWeighted [(1, [Graphs.mkEdge 2 7]); (2, [Graphs.mkEdge 1 7])] false.

Definition matrix12 : Graphs.GraphMatrix Z :=
  Graphs.mkMatrix [[Some 0; Some 5]; [Some 5; Some 0]] [1; 2]
                  [(1, 0%nat); (2, 1%nat)] false.

(** * Proofs *)

#[local] Arguments Z.add : simpl never.
#[local] Arguments Z.sub : simpl never.
#[local] Arguments Z.mul : simpl never.
#[local] Arguments Z.opp : simpl never.
#[local] Arguments Z.max : simpl never.
#[local] Arguments Z.abs : simpl never.
#[local] Arguments Z.ltb : simpl never.
#[local] Arguments Z.gtb : simpl never.
#[local] Arguments Z.leb : simpl never.
#[local] Arguments Z.geb : simpl never.
#[local] Arguments Z.eqb : simpl never.
#[local] Arguments Z.of_nat : simpl never.

Section Balance.
Context {T : Type}.

Lemma avl_height_lower (t : AvlNode T) : avl t -> -1 <= getHeight t.
Proof.
  induction t as [|d l IHl r IHr h]; simpl; [lia|].
  intros (Hl & Hr & Hh & Hb). specialize (IHl Hl). specialize (IHr Hr). lia.
Qed.

Lemma avl_height_null (t : AvlNode T) :
  avl t -> getHeight t < 0 -> t = Null.
Proof.
  destruct t as [|d l r h]; simpl; [reflexivity|].
  intros (Hl & Hr & Hh & Hb) Hneg.
  pose proof (avl_height_lower l Hl). pose proof (avl_height_lower r Hr). lia.
Qed.

Lemma balance_spec (d : T) (l r : AvlNode T) (h0 : Z) :
  avl l -> avl r -> -2 <= getHeight l - getHeight r <= 2 ->
  exists t',
    balance (Node d l r h0) = Some t' /\ avl t' /\
    inorder t' = inorder l ++ d :: inorder r /\
    1 + Z.max (getHeight l) (getHeight r) - 1 <= getHeight t'
      <= 1 + Z.max (getHeight l) (getHeight r) /\
    (-1 <= getHeight l - getHeight r <= 1 ->
     t' = Node d l r (1 + Z.max (getHeight l) (getHeight r))).
Proof.
  intros Hl Hr Hb.
  unfold balance; simpl.
  destruct (Z.gtb_spec (getHeight l - getHeight r) 1) as [Hgt|Hle].
  - destruct l as [|ld ll lr lh]; [simpl in *; pose proof (avl_height_lower r Hr); lia|].
    simpl. simpl in Hl. destruct Hl as (Hll & Hlr & Hlh & Hlb).
    simpl in Hgt, Hb.
    destruct (Z.ltb_spec (getHeight ll - getHeight lr) 0) as [Hneg|Hpos].
    + destruct lr as [|lrd lrl lrr lrh];
        [simpl in *; pose proof (avl_height_lower ll Hll); lia|].
      simpl. simpl in Hlr. destruct Hlr as (Hlrl & Hlrr & Hlrh & Hlrb).
      simpl in *.
      eexists; split; [reflexivity|]. simpl.
      repeat split; auto; try lia.
      rewrite <- !app_assoc. simpl. rewrite <- app_assoc. reflexivity.
    + eexists; split; [reflexivity|]. simpl.
      repeat split; auto; try lia.
      rewrite <- app_assoc. reflexivity.
  - destruct (Z.ltb_spec (getHeight l - getHeight r) (-1)) as [Hlt|Hge].
    + destruct r as [|rd rl rr rh]; [simpl in *; pose proof (avl_height_lower l Hl); lia|].
      simpl. simpl in Hr. destruct Hr as (Hrl & Hrr & Hrh & Hrb).
      simpl in Hlt, Hb.
      destruct (Z.gtb_spec (getHeight rl - getHeight rr) 0) as [Hpos|Hneg].
      * destruct rl as [|rld rll rlr rlh];
          [simpl in *; pose proof (avl_height_lower rr Hrr); lia|].
        simpl. simpl in Hrl. destruct Hrl as (Hrll & Hrlr & Hrlh & Hrlb).
        simpl in *.
        eexists; split; [reflexivity|]. simpl.
        repeat split; auto; try lia.
        rewrite <- !app_assoc. simpl. reflexivity.
      * eexists; split; [reflexivity|]. simpl.
        repeat split; auto; try lia.
        rewrite <- app_assoc. reflexivity.
    + eexists; split; [reflexivity|]. simpl.
      repeat split; auto; try lia.
Qed.
End Balance.

Section Order.
Context {T : Type}.
Variable compare : T -> T -> Z.
Hypothesis Hord : StrictTotalOrder compare.

Lemma lt_irrefl (a : T) : ~ lt compare a a.
Proof.
  unfold lt. intros H.
  assert (compare a a = 0) by (apply (compare_eq compare Hord); reflexivity).
  lia.
Qed.

Lemma lt_asym (a b : T) : lt compare a b -> lt compare b a -> False.
Proof.
  unfold lt. intros H1 H2.
  apply (compare_flip compare Hord) in H1. lia.
Qed.

Lemma lt_trans (a b c : T) :
  lt compare a b -> lt compare b c -> lt compare a c.
Proof. unfold lt. apply (compare_trans compare Hord). Qed.

Lemma gt_lt (a b : T) : 0 < compare a b -> lt compare b a.
Proof. unfold lt. intros H. apply (compare_flip compare Hord). exact H. Qed.

Lemma sorted_app_inv (l : list T) (d : T) (r : list T) :
  StronglySorted (lt compare) (l ++ d :: r) ->
  StronglySorted (lt compare) l /\ StronglySorted (lt compare) r /\
  Forall (fun k => lt compare k d) l /\ Forall (lt compare d) r.
Proof.
  induction l as [|a l IH]; simpl; intros H.
  - inversion H; subst. repeat split; auto. constructor.
  - inversion H as [|? ? Hs Hf]; subst.
    destruct (IH Hs) as (Hl & Hr & Hld & Hdr).
    apply Forall_app in Hf. destruct Hf as [Hfl Hfr].
    repeat split; auto.
    + constructor; assumption.
    + constructor; [inversion Hfr; assumption | assumption].
Qed.

Lemma sorted_app_intro (l : list T) (d : T) (r : list T) :
  StronglySorted (lt compare) l -> StronglySorted (lt compare) r ->
  Forall (fun k => lt compare k d) l -> Forall (lt compare d) r ->
  StronglySorted (lt compare) (l ++ d :: r).
Proof.
  intros Hl Hr Hld Hdr.
  induction l as [|a l IH]; simpl.
  - constructor; assumption.
  - inversion Hl; subst. inversion Hld; subst.
    constructor; [apply IH; assumption|].
    apply Forall_app. split; [assumption|].
    constructor; [assumption|].
    eapply Forall_impl; [|exact Hdr].
    intros k Hk. eapply lt_trans; eassumption.
Qed.

Lemma bst_sorted (t : AvlNode T) :
  bst compare t <-> StronglySorted (lt compare) (inorder t).
Proof.
  induction t as [|d l IHl r IHr h]; simpl.
  - split; intros; [constructor | exact I].
  - split.
    + intros (Hl & Hr & Hld & Hdr).
      apply sorted_app_intro; [apply IHl | apply IHr | |]; assumption.
    + intros H. apply sorted_app_inv in H.
      destruct H as (Hl & Hr & Hld & Hdr).
      repeat split; [apply IHl | apply IHr | |]; assumption.
Qed.

Lemma sorted_NoDup (l : list T) :
  StronglySorted (lt compare) l -> NoDup l.
Proof.
  induction 1 as [|a l Hs IH Hf]; constructor; [|assumption].
  intros Hin. rewrite Forall_forall in Hf.
  exact (lt_irrefl a (Hf a Hin)).
Qed.

(** Two strictly sorted lists with the same elements are equal. *)
Lemma sorted_unique (l1 l2 : list T) :
  StronglySorted (lt compare) l1 -> StronglySorted (lt compare) l2 ->
  (forall k, In k l1 <-> In k l2) -> l1 = l2.
Proof.
  intros H1. revert l2.
  induction H1 as [|a l1 Hs1 IH Hf1]; intros l2 H2 Hin.
  - destruct l2 as [|b l2]; [reflexivity|].
    exfalso. apply (proj2 (Hin b)). left; reflexivity.
  - destruct H2 as [|b l2 Hs2 Hf2].
    + exfalso. apply (proj1 (Hin a)). left; reflexivity.
    + rewrite Forall_forall in Hf1, Hf2.
      assert (a = b) as ->.
      { destruct (proj1 (Hin a) (or_introl eq_refl)) as [->|Ha]; [reflexivity|].
        destruct (proj2 (Hin b) (or_introl eq_refl)) as [->|Hb]; [reflexivity|].
        exfalso. exact (lt_asym _ _ (Hf1 b Hb) (Hf2 a Ha)). }
      f_equal. apply IH; [assumption|].
      intros k; split; intros Hk.
      * destruct (proj1 (Hin k) (or_intror Hk)) as [->|]; [|assumption].
        exfalso. exact (lt_irrefl _ (Hf1 _ Hk)).
      * destruct (proj2 (Hin k) (or_intror Hk)) as [->|]; [|assumption].
        exfalso. exact (lt_irrefl _ (Hf2 _ Hk)).
Qed.

Lemma balance_inv (d : T) (l r : AvlNode T) (h0 : Z) :
  avl l -> avl r -> bst compare (Node d l r h0) ->
  -2 <= getHeight l - getHeight r <= 2 ->
  exists t',
    balance (Node d l r h0) = Some t' /\ avl t' /\ bst compare t' /\
    inorder t' = inorder l ++ d :: inorder r /\
    Z.max (getHeight l) (getHeight r) <= getHeight t'
      <= 1 + Z.max (getHeight l) (getHeight r) /\
    (-1 <= getHeight l - getHeight r <= 1 ->
     t' = Node d l r (1 + Z.max (getHeight l) (getHeight r))).
Proof.
  intros Hl Hr Hb Hbf.
  destruct (balance_spec d l r h0 Hl Hr Hbf) as (t' & E & Ha & Hi & Hh & Hn).
  exists t'. repeat split; auto; try lia.
  apply bst_sorted. rewrite Hi. apply bst_sorted in Hb. exact Hb.
Qed.

Lemma lt_not_In_right (x d : T) (r : list T) :
  lt compare x d -> Forall (lt compare d) r -> ~ In x r.
Proof.
  intros Hx Hr Hin. rewrite Forall_forall in Hr.
  exact (lt_asym _ _ Hx (Hr _ Hin)).
Qed.

Lemma gt_not_In_left (x d : T) (l : list T) :
  lt compare d x -> Forall (fun k => lt compare k d) l -> ~ In x l.
Proof.
  intros Hx Hl Hin. rewrite Forall_forall in Hl.
  exact (lt_asym _ _ Hx (Hl _ Hin)).
Qed.

Lemma insertNode_spec (t : AvlNode T) (x : T) (s : Z) :
  bst compare t -> avl t ->
  exists t' s',
    insertNode compare t x s = Some (t', s') /\
    avl t' /\ bst compare t' /\
    getHeight t <= getHeight t' <= getHeight t + 1 /\
    ((In x (inorder t) /\ t' = t /\ s' = s - 1) \/
     (~ In x (inorder t) /\ s' = s /\
      exists l1 l2, inorder t = l1 ++ l2 /\ inorder t' = l1 ++ x :: l2)).
Proof.
  induction t as [|d l IHl r IHr h]; intros Hb Ha.
  - exists (Node x Null Null 0), s. simpl.
    repeat split; auto; try lia.
    right. repeat split; auto. exists [], []. split; reflexivity.
  - simpl in Hb, Ha.
    destruct Hb as (Hbl & Hbr & Hld & Hdr).
    destruct Ha as (Hal & Har & Hh & Hbf).
    simpl insertNode.
    destruct (Z.ltb_spec (compare x d) 0) as [Hlt|Hge].
    + destruct (IHl Hbl Hal) as (l' & s' & E & Hal' & Hbl' & Hhl' & Hcase).
      rewrite E.
      assert (Hld' : Forall (fun k => lt compare k d) (inorder l')).
      { destruct Hcase as [(_ & -> & _)|(_ & _ & l1 & l2 & E1 & E2)]; [assumption|].
        rewrite E1 in Hld. rewrite E2. apply Forall_app in Hld.
        apply Forall_app. destruct Hld. split; [assumption|].
        constructor; assumption. }
      destruct (balance_inv d l' r h Hal' Har) as (t' & Eb & Hat & Hbt & Hi & Hht & Hn);
        [simpl; auto | lia |].
      rewrite Eb. exists t', s'.
      assert (Hn' : -1 <= getHeight l' - getHeight r <= 1 ->
                    getHeight t' = 1 + Z.max (getHeight l') (getHeight r))
        by (intros HH; rewrite (Hn HH); reflexivity).
      repeat split; auto; try (simpl; lia).
      destruct Hcase as [(Hin & -> & ->)|(Hnin & -> & l1 & l2 & E1 & E2)].
      * left. repeat split; auto.
        -- simpl. apply in_or_app. left; assumption.
        -- rewrite Hn by lia. rewrite <- Hh. reflexivity.
      * right. repeat split; auto.
        -- simpl. intros Hin. apply in_app_or in Hin.
           destruct Hin as [Hin|[Hin|Hin]].
           ++ contradiction.
           ++ subst d. exact (lt_irrefl _ Hlt).
           ++ exact (lt_not_In_right _ _ _ Hlt Hdr Hin).
        -- exists l1, (l2 ++ d :: inorder r). simpl.
           rewrite Hi, E1, E2. rewrite <- !app_assoc. split; reflexivity.
    + destruct (Z.gtb_spec (compare x d) 0) as [Hgt|Hle].
      * apply gt_lt in Hgt.
        destruct (IHr Hbr Har) as (r' & s' & E & Har' & Hbr' & Hhr' & Hcase).
        rewrite E.
        assert (Hdr' : Forall (lt compare d) (inorder r')).
        { destruct Hcase as [(_ & -> & _)|(_ & _ & l1 & l2 & E1 & E2)]; [assumption|].
          rewrite E1 in Hdr. rewrite E2. apply Forall_app in Hdr.
          apply Forall_app. destruct Hdr. split; [assumption|].
          constructor; assumption. }
        destruct (balance_inv d l r' h Hal Har') as (t' & Eb & Hat & Hbt & Hi & Hht & Hn);
          [simpl; auto | lia |].
        rewrite Eb. exists t', s'.
        assert (Hn' : -1 <= getHeight l - getHeight r' <= 1 ->
                      getHeight t' = 1 + Z.max (getHeight l) (getHeight r'))
          by (intros HH; rewrite (Hn HH); reflexivity).
        repeat split; auto; try (simpl; lia).
        destruct Hcase as [(Hin & -> & ->)|(Hnin & -> & l1 & l2 & E1 & E2)].
        -- left. repeat split; auto.
           ++ simpl. apply in_or_app. right; right; assumption.
           ++ rewrite Hn by lia. rewrite <- Hh. reflexivity.
        -- right. repeat split; auto.
           ++ simpl. intros Hin. apply in_app_or in Hin.
              destruct Hin as [Hin|[Hin|Hin]].
              ** exact (gt_not_In_left _ _ _ Hgt Hld Hin).
              ** subst d. exact (lt_irrefl _ Hgt).
              ** contradiction.
           ++ exists (inorder l ++ d :: l1), l2. simpl.
              rewrite Hi, E1, E2. rewrite <- !app_assoc. split; reflexivity.
      * assert (x = d) as -> by (apply (compare_eq compare Hord); lia).
        exists (Node d l r h), (s - 1).
        repeat split; simpl; auto; try lia.
        left. repeat split; auto. apply in_or_app. right; left; reflexivity.
Qed.

Lemma findMinNode_spec (d : T) (l r : AvlNode T) (h : Z) :
  exists sd rest,
    dataOf (findMinNode (Node d l r h)) = Some sd /\
    inorder (Node d l r h) = sd :: rest.
Proof.
  revert d r h.
  induction l as [|ld ll IHll lr _ lh]; intros d r h.
  - exists d, (inorder r). split; reflexivity.
  - destruct (IHll ld lr lh) as (sd & rest & E1 & E2).
    exists sd, (rest ++ d :: inorder r).
    split; [exact E1|].
    change (inorder (Node d (Node ld ll lr lh) r h))
      with (inorder (Node ld ll lr lh) ++ d :: inorder r).
    rewrite E2. reflexivity.
Qed.

Lemma deleteNode_spec (t : AvlNode T) :
  forall (x : T) (s : Z),
  bst compare t -> avl t ->
  exists t' s',
    deleteNode compare t x s = Some (t', s') /\
    avl t' /\ bst compare t' /\
    getHeight t - 1 <= getHeight t' <= getHeight t /\
    ((~ In x (inorder t) /\ t' = t /\ s' = s) \/
     (s' = s - 1 /\
      exists l1 l2, inorder t = l1 ++ x :: l2 /\ inorder t' = l1 ++ l2)).
Proof.
  induction t as [|d l IHl r IHr h]; intros x s Hb Ha.
  - exists Null, s. simpl. repeat split; auto; try lia.
  - pose proof Hb as Hbt0. pose proof Ha as Hat0.
    simpl in Hb, Ha.
    destruct Hb as (Hbl & Hbr & Hld & Hdr).
    destruct Ha as (Hal & Har & Hh & Hbf).
    pose proof (avl_height_lower l Hal) as Hl0.
    pose proof (avl_height_lower r Har) as Hr0.
    simpl deleteNode.
    destruct (Z.ltb_spec (compare x d) 0) as [Hlt|Hge].
    + destruct (IHl x s Hbl Hal) as (l' & s' & E & Hal' & Hbl' & Hhl' & Hcase).
      rewrite E.
      assert (Hld' : Forall (fun k => lt compare k d) (inorder l')).
      { destruct Hcase as [(_ & -> & _)|(_ & l1 & l2 & E1 & E2)]; [assumption|].
        rewrite E1 in Hld. rewrite E2. apply Forall_app in Hld.
        apply Forall_app. destruct Hld as [? Hc]. split; [assumption|].
        inversion Hc; assumption. }
      destruct (balance_inv d l' r h Hal' Har) as (t' & Eb & Hat & Hbt & Hi & Hht & Hn);
        [simpl; auto | lia |].
      rewrite Eb. exists t', s'.
      assert (Hn' : -1 <= getHeight l' - getHeight r <= 1 ->
                    getHeight t' = 1 + Z.max (getHeight l') (getHeight r))
        by (intros HH; rewrite (Hn HH); reflexivity).
      repeat split; auto; try (simpl; lia).
      destruct Hcase as [(Hnin & -> & ->)|(-> & l1 & l2 & E1 & E2)].
      * left. repeat split; auto.
        -- simpl. intros Hin. apply in_app_or in Hin.
           destruct Hin as [Hin|[Hin|Hin]].
           ++ contradiction.
           ++ subst d. exact (lt_irrefl _ Hlt).
           ++ exact (lt_not_In_right _ _ _ Hlt Hdr Hin).
        -- rewrite Hn by lia. rewrite <- Hh. reflexivity.
      * right. split; auto.
        exists l1, (l2 ++ d :: inorder r). simpl.
        rewrite Hi, E1, E2. rewrite <- !app_assoc. split; reflexivity.
    + destruct (Z.gtb_spec (compare x d) 0) as [Hgt|Hle].
      * apply gt_lt in Hgt.
        destruct (IHr x s Hbr Har) as (r' & s' & E & Har' & Hbr' & Hhr' & Hcase).
        rewrite E.
        assert (Hdr' : Forall (lt compare d) (inorder r')).
        { destruct Hcase as [(_ & -> & _)|(_ & l1 & l2 & E1 & E2)]; [assumption|].
          rewrite E1 in Hdr. rewrite E2. apply Forall_app in Hdr.
          apply Forall_app. destruct Hdr as [? Hc]. split; [assumption|].
          inversion Hc; assumption. }
        destruct (balance_inv d l r' h Hal Har') as (t' & Eb & Hat & Hbt & Hi & Hht & Hn);
          [simpl; auto | lia |].
        rewrite Eb. exists t', s'.
        assert (Hn' : -1 <= getHeight l - getHeight r' <= 1 ->
                      getHeight t' = 1 + Z.max (getHeight l) (getHeight r'))
          by (intros HH; rewrite (Hn HH); reflexivity).
        repeat split; auto; try (simpl; lia).
        destruct Hcase as [(Hnin & -> & ->)|(-> & l1 & l2 & E1 & E2)].
        -- left. repeat split; auto.
           ++ simpl. intros Hin. apply in_app_or in Hin.
              destruct Hin as [Hin|[Hin|Hin]].
              ** exact (gt_not_In_left _ _ _ Hgt Hld Hin).
              ** subst d. exact (lt_irrefl _ Hgt).
              ** contradiction.
           ++ rewrite Hn by lia. rewrite <- Hh. reflexivity.
        -- right. split; auto.
           exists (inorder l ++ d :: l1), l2. simpl.
           rewrite Hi, E1, E2. rewrite <- !app_assoc. split; reflexivity.
      * assert (x = d) as -> by (apply (compare_eq compare Hord); lia).
        destruct l as [|ld ll lr lh]; destruct r as [|rd rl rr rh].
        -- exists Null, (s - 1). simpl. repeat split; auto; try (simpl in *; lia).
           right. split; auto. exists [], []. split; reflexivity.
        -- exists (Node rd rl rr rh), (s - 1).
           split; [reflexivity|]. split; [assumption|]. split; [assumption|].
           split; [cbn [getHeight] in *; lia|].
           right. split; auto. exists [], (inorder (Node rd rl rr rh)).
           split; reflexivity.
        -- exists (Node ld ll lr lh), (s - 1).
           split; [reflexivity|]. split; [assumption|]. split; [assumption|].
           split; [cbn [getHeight] in *; lia|].
           right. split; auto. exists (inorder (Node ld ll lr lh)), [].
           split; [reflexivity|]. rewrite app_nil_r. reflexivity.
        -- destruct (findMinNode_spec rd rl rr rh) as (sd & rest & Esd & Erest).
           rewrite Esd.
           assert (Hsorted : StronglySorted (lt compare) (sd :: rest))
             by (rewrite <- Erest; apply bst_sorted; assumption).
           destruct (IHr sd (s - 1) Hbr Har)
             as (r' & s2 & E & Har' & Hbr' & Hhr' & Hcase).
           rewrite E.
           destruct Hcase as [(Hnin & _ & _)|(-> & l1 & l2 & E1 & E2)];
             [exfalso; apply Hnin; rewrite Erest; left; reflexivity|].
           assert (l1 = [] /\ l2 = rest) as [-> ->].
           { rewrite Erest in E1. destruct l1 as [|a l1].
             - simpl in E1. inversion E1. split; reflexivity.
             - exfalso. simpl in E1. inversion E1; subst a.
               apply sorted_NoDup in Hsorted. inversion Hsorted as [|? ? Hni _].
               apply Hni. subst rest. apply in_or_app. right; left; reflexivity. }
           simpl in E2.
           assert (Hdsd : lt compare d sd).
           { rewrite Forall_forall in Hdr. apply Hdr. rewrite Erest.
             left; reflexivity. }
           destruct (balance_inv sd (Node ld ll lr lh) r' h Hal Har')
             as (t' & Eb & Hat & Hbt & Hi & Hht & Hn).
           { split; [exact Hbl|]. split; [exact Hbr'|]. split.
             - eapply Forall_impl; [|exact Hld].
               intros k Hk. exact (lt_trans _ _ _ Hk Hdsd).
             - rewrite E2. inversion Hsorted; assumption. }
           { lia. }
           rewrite Eb. exists t', (s - 1 - 1 + 1).
           assert (Hn' : -1 <= getHeight (Node ld ll lr lh) - getHeight r' <= 1 ->
                         getHeight t' =
                         1 + Z.max (getHeight (Node ld ll lr lh)) (getHeight r'))
             by (intros HH; rewrite (Hn HH); reflexivity).
           repeat split; auto; try (cbn [getHeight] in *; lia).
           right. split; [lia|].
           exists (inorder (Node ld ll lr lh)), (sd :: rest).
           split.
           ++ change (inorder (Node d (Node ld ll lr lh) (Node rd rl rr rh) h))
                with (inorder (Node ld ll lr lh) ++ d :: inorder (Node rd rl rr rh)).
              rewrite Erest. reflexivity.
           ++ rewrite Hi, E2. reflexivity.
Qed.

Lemma inorderHelper_spec (t : AvlNode T) (acc : list T) :
  inorderHelper t acc = acc ++ inorder t.
Proof.
  revert acc. induction t as [|d l IHl r IHr h]; intros acc; simpl.
  - rewrite app_nil_r. reflexivity.
  - rewrite IHr, IHl. rewrite <- !app_assoc. reflexivity.
Qed.

Lemma inorderTraversal_spec (t : AvlBinarySearchTree T) :
  inorderTraversal t = inorder (root t).
Proof. unfold inorderTraversal. apply inorderHelper_spec. Qed.

Lemma validateAVL_spec (t : AvlNode T) : validateAVL t = true <-> avl t.
Proof.
  induction t as [|d l IHl r IHr h]; simpl.
  - tauto.
  - destruct (Z.gtb_spec (Z.abs (getHeight l - getHeight r)) 1) as [Hgt|Hle].
    + split; [discriminate|]. intros (_ & _ & _ & Hb). lia.
    + destruct (Z.eqb_spec h (1 + Z.max (getHeight l) (getHeight r)))
        as [Heq|Hne]; simpl.
      * rewrite andb_true_iff, IHl, IHr. split.
        -- intros [Hl Hr]. repeat split; auto; lia.
        -- intros (Hl & Hr & _ & _). split; assumption.
      * split; [discriminate|]. intros (_ & _ & Hh & _). contradiction.
Qed.

Lemma validateBST_spec (t : AvlNode T) :
  forall min max,
  validateBST compare t min max = true <->
  bst compare t /\
  Forall (above compare min) (inorder t) /\
  Forall (below compare max) (inorder t).
Proof.
  induction t as [|d l IHl r IHr h]; intros min max; simpl.
  - split; [intros _; repeat split; constructor | reflexivity].
  - assert (Hmin : (match min with Some m => compare d m <=? 0 | None => false end)
                   = false <-> above compare min d).
    { destruct min as [m|]; simpl; [|tauto].
      unfold lt. rewrite (compare_flip compare Hord).
      destruct (Z.leb_spec (compare d m) 0); split; intros; (lia || discriminate || reflexivity). }
    assert (Hmax : (match max with Some m => compare d m >=? 0 | None => false end)
                   = false <-> below compare max d).
    { destruct max as [m|]; simpl; [|tauto].
      unfold lt. rewrite Z.geb_leb.
      destruct (Z.leb_spec 0 (compare d m)); split; intros; (lia || discriminate || reflexivity). }
    destruct (match min with Some m => compare d m <=? 0 | None => false end).
    + simpl. split; [discriminate|].
      intros (_ & Ha & _). apply Forall_app in Ha. destruct Ha as [_ Ha].
      inversion Ha; subst. symmetry. apply Hmin; assumption.
    + destruct (match max with Some m => compare d m >=? 0 | None => false end).
      * simpl. split; [discriminate|].
        intros (_ & _ & Hb). apply Forall_app in Hb. destruct Hb as [_ Hb].
        inversion Hb; subst. symmetry. apply Hmax; assumption.
      * simpl. rewrite andb_true_iff, IHl, IHr.
        assert (Hmd : above compare min d) by (apply Hmin; reflexivity).
        assert (Hdm : below compare max d) by (apply Hmax; reflexivity).
        split.
        -- intros ((Hbl & Hal & Hbl') & (Hbr & Har & Hbr')).
           repeat split; auto.
           ++ apply Forall_app. split; [assumption|]. constructor; [assumption|].
              eapply Forall_impl; [|exact Har]. intros k Hk.
              destruct min as [m|]; simpl in *; [|exact I].
              exact (lt_trans _ _ _ Hmd Hk).
           ++ apply Forall_app. split; [|constructor; assumption].
              eapply Forall_impl; [|exact Hbl']. intros k Hk.
              destruct max as [m|]; simpl in *; [|exact I].
              exact (lt_trans _ _ _ Hk Hdm).
        -- intros ((Hbl & Hbr & Hld & Hdr) & Ha & Hb).
           apply Forall_app in Ha. destruct Ha as [Hal Har].
           apply Forall_app in Hb. destruct Hb as [Hbl' Hbr'].
           inversion Har; subst. inversion Hbr'; subst.
           repeat split; auto.
Qed.

Lemma isValidBST_spec (t : AvlBinarySearchTree T) :
  isValidBST compare t = true <-> bst compare (root t).
Proof.
  unfold isValidBST. rewrite validateBST_spec. split.
  - intros (H & _ & _). exact H.
  - intros H. repeat split; auto; apply Forall_forall; intros; exact I.
Qed.

(** *** The public operations on valid states *)

Lemma valid_empty : valid compare empty.
Proof. repeat split; simpl; auto. Qed.

Lemma searchNode_spec (t : AvlNode T) (x : T) :
  bst compare t ->
  (searchNode compare t x <> Null <-> In x (inorder t)).
Proof.
  induction t as [|d l IHl r IHr h]; simpl.
  - intros _. split; [intros H; contradiction | intros []].
  - intros (Hbl & Hbr & Hld & Hdr).
    destruct (Z.eqb_spec (compare x d) 0) as [Heq|Hne].
    + apply (compare_eq compare Hord) in Heq. subst d.
      split; [intros _|discriminate].
      apply in_or_app. right; left; reflexivity.
    + assert (x <> d) by (intros ->; apply Hne, (compare_eq compare Hord); reflexivity).
      destruct (Z.ltb_spec (compare x d) 0) as [Hlt|Hge].
      * rewrite (IHl Hbl). split; intros Hin.
        -- apply in_or_app. left; assumption.
        -- apply in_app_or in Hin. destruct Hin as [Hin|[Hin|Hin]].
           ++ assumption.
           ++ congruence.
           ++ exfalso. exact (lt_not_In_right _ _ _ Hlt Hdr Hin).
      * assert (Hgt : lt compare d x) by (apply gt_lt; lia).
        rewrite (IHr Hbr). split; intros Hin.
        -- apply in_or_app. right; right; assumption.
        -- apply in_app_or in Hin. destruct Hin as [Hin|[Hin|Hin]].
           ++ exfalso. exact (gt_not_In_left _ _ _ Hgt Hld Hin).
           ++ congruence.
           ++ assumption.
Qed.

Lemma search_spec (t : AvlBinarySearchTree T) (x : T) :
  bst compare (root t) ->
  (search compare t x = true <-> In x (inorder (root t))).
Proof.
  intros Hb. rewrite <- (searchNode_spec _ x Hb). unfold search.
  destruct (searchNode compare (root t) x); split; congruence.
Qed.

Lemma insert_spec (t : AvlBinarySearchTree T) (x : T) :
  valid compare t ->
  exists t',
    insert compare t x = Some t' /\ valid compare t' /\
    height t <= height t' <= height t + 1 /\
    ((In x (inorder (root t)) /\ t' = t) \/
     (~ In x (inorder (root t)) /\ size t' = size t + 1 /\
      exists l1 l2,
        inorder (root t) = l1 ++ l2 /\ inorder (root t') = l1 ++ x :: l2)).
Proof.
  destruct t as [rt sz]. intros (Hb & Ha & Hs). simpl in *.
  destruct (insertNode_spec rt x sz Hb Ha)
    as (t' & s' & E & Ha' & Hb' & Hh & Hcase).
  unfold insert. simpl. rewrite E.
  eexists; split; [reflexivity|].
  unfold height; simpl.
  destruct Hcase as [(Hin & -> & ->)|(Hnin & -> & l1 & l2 & E1 & E2)].
  - replace (sz - 1 + 1) with sz by lia.
    repeat split; auto; lia.
  - repeat split; auto; try lia.
    + simpl. rewrite E2, Hs, E1. rewrite !length_app. simpl. lia.
    + right. repeat split; auto. exists l1, l2. split; assumption.
Qed.

Lemma delete_spec (t : AvlBinarySearchTree T) (x : T) :
  valid compare t ->
  exists t' b,
    delete compare t x = Some (t', b) /\ valid compare t' /\
    height t - 1 <= height t' <= height t /\
    ((~ In x (inorder (root t)) /\ t' = t /\ b = false) \/
     (In x (inorder (root t)) /\ b = true /\ size t' = size t - 1 /\
      exists l1 l2,
        inorder (root t) = l1 ++ x :: l2 /\ inorder (root t') = l1 ++ l2)).
Proof.
  destruct t as [rt sz]. intros (Hb & Ha & Hs). simpl in *.
  destruct (deleteNode_spec rt x sz Hb Ha)
    as (t' & s' & E & Ha' & Hb' & Hh & Hcase).
  unfold delete. simpl. rewrite E.
  eexists; eexists; split; [reflexivity|].
  unfold height; simpl.
  destruct Hcase as [(Hnin & -> & ->)|(-> & l1 & l2 & E1 & E2)].
  - repeat split; auto; try lia. left. repeat split; auto.
    apply Z.ltb_irrefl.
  - repeat split; auto; try lia.
    + simpl. rewrite E2, Hs, E1. rewrite !length_app. simpl. lia.
    + right. repeat split; auto.
      * rewrite E1. apply in_or_app. right; left; reflexivity.
      * apply Z.ltb_lt. lia.
      * exists l1, l2. split; assumption.
Qed.

Lemma applyOp_valid (t : AvlBinarySearchTree T) (op : Op T) :
  valid compare t ->
  exists t', applyOp compare t op = Some t' /\ valid compare t'.
Proof.
  intros Hv. destruct op as [x|x]; simpl.
  - destruct (insert_spec t x Hv) as (t' & E & Hv' & _).
    exists t'. split; assumption.
  - destruct (delete_spec t x Hv) as (t' & b & E & Hv' & _).
    rewrite E. exists t'. split; [reflexivity | assumption].
Qed.

Lemma applyOps_valid (ops : list (Op T)) :
  forall t, valid compare t ->
  exists t', applyOps compare t ops = Some t' /\ valid compare t'.
Proof.
  induction ops as [|op ops IH]; intros t Hv; simpl.
  - exists t. split; [reflexivity | assumption].
  - destruct (applyOp_valid t op Hv) as (t1 & E & Hv1).
    rewrite E. apply IH. exact Hv1.
Qed.

Lemma valid_observable (t : AvlBinarySearchTree T) :
  valid compare t ->
  isValidBST compare t = true /\ isValidAVL t = true /\
  StronglySorted (lt compare) (inorderTraversal t) /\
  NoDup (inorderTraversal t).
Proof.
  intros (Hb & Ha & Hs).
  assert (Hsorted : StronglySorted (lt compare) (inorderTraversal t))
    by (rewrite inorderTraversal_spec; apply bst_sorted; assumption).
  repeat split.
  - apply isValidBST_spec; assumption.
  - apply validateAVL_spec; assumption.
  - assumption.
  - apply sorted_NoDup; assumption.
Qed.

(** C1. Starting from the empty tree, after every call of an arbitrary
    sequence of [insert] and [delete] calls (that is, after every prefix of
    the sequence) no call has thrown, [isValidBST()] and [isValidAVL()]
    return true, and [inorderTraversal()] is strictly ascending for the
    order of the comparison function, hence without duplicates. *)
Theorem invariants_after_every_call (ops : list (Op T)) (n : nat) :
  exists t,
    applyOps compare empty (firstn n ops) = Some t /\
    isValidBST compare t = true /\
    isValidAVL t = true /\
    StronglySorted (lt compare) (inorderTraversal t) /\
    NoDup (inorderTraversal t).
Proof.
  destruct (applyOps_valid (firstn n ops) empty valid_empty) as (t & E & Hv).
  exists t. split; [exact E|]. apply valid_observable; exact Hv.
Qed.

(** C3. On a valid tree [delete(k)] does not throw, returns true exactly
    when [k] was stored ([search(k)] was true, equivalently [k] occurred in
    the in-order sequence), and the counter drops by exactly one exactly
    when it returns true; when it returns false the counter and the keys
    are unchanged.  The two-children case is one of the cases of
    [deleteNode] covered here. *)
Theorem delete_reports_removal (t : AvlBinarySearchTree T) (k : T) :
  valid compare t ->
  exists t' b,
    delete compare t k = Some (t', b) /\
    (b = true <-> search compare t k = true) /\
    (b = true <-> In k (inorderTraversal t)) /\
    (size t' = size t - 1 <-> b = true) /\
    (b = false -> size t' = size t /\
                  inorderTraversal t' = inorderTraversal t) /\
    (b = true -> length (inorderTraversal t) =
                 S (length (inorderTraversal t'))) /\
    valid compare t'.
Proof.
  intros Hv. pose proof Hv as (Hb & _ & _).
  destruct (delete_spec t k Hv) as (t' & b & E & Hv' & _ & Hcase).
  exists t', b. split; [exact E|].
  rewrite (search_spec t k Hb), !inorderTraversal_spec.
  pose proof Hv' as (Hb' & Ha' & Hs').
  destruct Hcase as [(Hnin & -> & ->)|(Hin & -> & Hs & l1 & l2 & E1 & E2)].
  - repeat split; auto; try discriminate; try lia; try contradiction.
  - repeat split; auto; try discriminate; try lia.
    rewrite E1, E2, !length_app. simpl. lia.
Qed.

(** C4. On a valid tree that already stores [k], [insert(k)] does not
    throw and leaves [size()] and [inorderTraversal()] (indeed the whole
    handle) unchanged. *)
Theorem duplicate_insert_noop (t : AvlBinarySearchTree T) (k : T) :
  valid compare t -> search compare t k = true ->
  exists t',
    insert compare t k = Some t' /\
    size t' = size t /\
    inorderTraversal t' = inorderTraversal t /\
    t' = t.
Proof.
  intros Hv Hs. pose proof Hv as (Hb & _ & _).
  apply (search_spec t k Hb) in Hs.
  destruct (insert_spec t k Hv) as (t' & E & _ & _ & Hcase).
  exists t'. split; [exact E|].
  destruct Hcase as [(_ & ->)|(Hnin & _)]; [|contradiction].
  repeat split; reflexivity.
Qed.

Lemma insertAll_spec (keys : list T) :
  forall t, valid compare t ->
  exists t',
    insertAll compare t keys = Some t' /\ valid compare t' /\
    (forall k, In k (inorder (root t')) <->
               In k keys \/ In k (inorder (root t))).
Proof.
  unfold insertAll.
  induction keys as [|x keys IH]; intros t Hv; simpl.
  - exists t. split; [reflexivity|]. split; [assumption|].
    intros k. tauto.
  - destruct (insert_spec t x Hv) as (t1 & E & Hv1 & _ & Hcase).
    rewrite E.
    destruct (IH t1 Hv1) as (t' & E' & Hv' & Hin').
    exists t'. split; [exact E'|]. split; [exact Hv'|].
    intros k. split.
    + intros Hk. apply Hin' in Hk.
      destruct Hk as [Hk|Hk]; [left; right; assumption|].
      destruct Hcase as [(_ & ->)|(_ & _ & l1 & l2 & E1 & E2)];
        [right; assumption|].
      rewrite E2 in Hk. rewrite E1.
      apply in_app_or in Hk. destruct Hk as [Hk|[Hk|Hk]].
      * right. apply in_or_app. left; assumption.
      * left; left; assumption.
      * right. apply in_or_app. right; assumption.
    + intros Hk. apply Hin'.
      destruct Hk as [[Hk|Hk]|Hk].
      * subst k. right.
        destruct Hcase as [(Hin & ->)|(_ & _ & l1 & l2 & E1 & E2)];
          [assumption|].
        rewrite E2. apply in_or_app. right; left; reflexivity.
      * left; assumption.
      * right.
        destruct Hcase as [(_ & ->)|(_ & _ & l1 & l2 & E1 & E2)];
          [assumption|].
        rewrite E1 in Hk. rewrite E2.
        apply in_app_or in Hk. apply in_or_app.
        destruct Hk; [left | right; right]; assumption.
Qed.

(** C5. Inserting a set of distinct keys into the empty tree in two
    different orders gives the same [inorderTraversal()]: the keys in
    ascending order. *)
Theorem insertion_order_irrelevant (keys1 keys2 : list T) :
  NoDup keys1 -> Permutation keys1 keys2 ->
  exists t1 t2,
    insertAll compare empty keys1 = Some t1 /\
    insertAll compare empty keys2 = Some t2 /\
    inorderTraversal t1 = inorderTraversal t2 /\
    StronglySorted (lt compare) (inorderTraversal t1) /\
    Permutation keys1 (inorderTraversal t1).
Proof.
  intros Hnd Hperm.
  destruct (insertAll_spec keys1 empty valid_empty) as (t1 & E1 & Hv1 & Hin1).
  destruct (insertAll_spec keys2 empty valid_empty) as (t2 & E2 & Hv2 & Hin2).
  exists t1, t2. split; [exact E1|]. split; [exact E2|].
  destruct (valid_observable t1 Hv1) as (_ & _ & Hs1 & Hn1).
  destruct (valid_observable t2 Hv2) as (_ & _ & Hs2 & _).
  assert (Hmem1 : forall k, In k (inorderTraversal t1) <-> In k keys1).
  { intros k. rewrite inorderTraversal_spec, Hin1. simpl. tauto. }
  assert (Hmem2 : forall k, In k (inorderTraversal t2) <-> In k keys2).
  { intros k. rewrite inorderTraversal_spec, Hin2. simpl. tauto. }
  repeat split; auto.
  - apply sorted_unique; auto.
    intros k. rewrite Hmem1, Hmem2. split; intros Hk.
    + eapply Permutation_in; eassumption.
    + eapply Permutation_in; [apply Permutation_sym|]; eassumption.
  - apply NoDup_Permutation; auto.
    intros k. symmetry. apply Hmem1.
Qed.
End Order.

Section Rebalance.
Context {T : Type}.

Lemma avl_realHeight (t : AvlNode T) : avl t -> getHeight t = realHeight t.
Proof.
  induction t as [|d l IHl r IHr h]; simpl; [reflexivity|].
  intros (Hl & Hr & Hh & _). rewrite <- (IHl Hl), <- (IHr Hr). exact Hh.
Qed.

(** C2. For a node whose children are AVL subtrees with correct cached
    heights and whose balance factor is within [-2, 2] (its own cached
    height being arbitrary), [balance] does not throw and returns a
    subtree root whose cached height is its real height, whose balance
    factor is -1, 0 or 1 (the whole returned subtree is AVL), and whose
    in-order key sequence is that of the input. *)
Theorem balance_restores_avl (d : T) (l r : AvlNode T) (h0 : Z) :
  avl l -> avl r -> -2 <= getHeight l - getHeight r <= 2 ->
  exists t',
    balance (Node d l r h0) = Some t' /\
    getHeight t' = realHeight t' /\
    (exists bf, getBalanceFactor t' = Some bf /\ -1 <= bf <= 1) /\
    avl t' /\
    inorder t' = inorder (Node d l r h0).
Proof.
  intros Hl Hr Hbf.
  destruct (balance_spec d l r h0 Hl Hr Hbf) as (t' & E & Ha & Hi & _).
  exists t'. split; [exact E|].
  split; [apply avl_realHeight; exact Ha|].
  split; [|split; [exact Ha | exact Hi]].
  destruct t' as [|d' l' r' h'].
  - exfalso. simpl in Hi. destruct (inorder l); discriminate.
  - simpl. eexists; split; [reflexivity|].
    simpl in Ha. tauto.
Qed.
End Rebalance.

Section Rank.
Context {T : Type}.

Lemma nth_error_middle (l : list T) (d : T) (r : list T) :
  nth_error (l ++ d :: r) (length l) = Some d.
Proof. induction l as [|a l IH]; simpl; auto. Qed.

Lemma nth_error_after (l : list T) (d : T) (r : list T) (m : nat) :
  nth_error (l ++ d :: r) (length l + S m) = nth_error r m.
Proof. induction l as [|a l IH]; simpl; auto. Qed.

Lemma nth_error_before (l r : list T) (m : nat) :
  (m < length l)%nat -> nth_error (l ++ r) m = nth_error l m.
Proof. intros H. apply nth_error_app1. exact H. Qed.

Lemma kthSmallestHelper_found (t : AvlNode T) (k : Z) (res : KthResult T) :
  value res <> None -> kthSmallestHelper t k res = res.
Proof.
  intros H. destruct t as [|d l r h]; simpl; [reflexivity|].
  destruct (value res); [reflexivity | contradiction].
Qed.

(** Started with [count = c] and no value, the helper either meets rank
    [k] inside the subtree and records that key, or walks the whole subtree
    and leaves [count = c + n]. *)
Lemma kthSmallestHelper_spec (t : AvlNode T) :
  forall (k c : Z),
  let res := kthSmallestHelper t k (mkResult c None) in
  let n := Z.of_nat (length (inorder t)) in
  (c < k <= c + n /\
   value res = nth_error (inorder t) (Z.to_nat (k - c - 1)) /\
   value res <> None /\ k <= count res) \/
  (~ (c < k <= c + n) /\ res = mkResult (c + n) None).
Proof.
  induction t as [|d l IHl r IHr h]; intros k c; cbn zeta.
  - right. simpl. split; [lia|]. f_equal. lia.
  - cbn [kthSmallestHelper value inorder]. cbn zeta. cbn [count value].
    rewrite length_app. cbn [length].
    destruct (IHl k c) as [(Hk & Hv & Hnn & Hc)|(Hk & E)]; cbn zeta in *.
    + left.
      destruct (Z.eqb_spec (count (kthSmallestHelper l k (mkResult c None)) + 1) k)
        as [Heq|Hne]; [lia|].
      rewrite kthSmallestHelper_found by (cbn [value]; exact Hnn).
      cbn [value count].
      split; [lia|]. split; [|split; [exact Hnn | lia]].
      rewrite Hv. symmetry. apply nth_error_before. lia.
    + rewrite E. cbn [count value].
      destruct (Z.eqb_spec (c + Z.of_nat (length (inorder l)) + 1) k) as [Heq|Hne].
      * left. cbn [value count]. split; [lia|].
        split; [|split; [discriminate | lia]].
        replace (Z.to_nat (k - c - 1)) with (length (inorder l)) by lia.
        symmetry. apply nth_error_middle.
      * destruct (IHr k (c + Z.of_nat (length (inorder l)) + 1))
          as [(Hk' & Hv' & Hnn' & Hc')|(Hk' & E')]; cbn zeta in *.
        -- left. split; [lia|]. split; [|split; [exact Hnn' | exact Hc']].
           rewrite Hv'.
           replace (Z.to_nat (k - c - 1))
             with (length (inorder l) +
                   S (Z.to_nat (k - (c + Z.of_nat (length (inorder l)) + 1) - 1)))%nat
             by lia.
           symmetry. apply nth_error_after.
        -- right. split; [lia|]. rewrite E'. f_equal. lia.
Qed.

Variable compare : T -> T -> Z.

(** C7. On a valid tree, [kthSmallest(k)] returns null exactly when the
    integer [k] is outside [1, size()], and for [k] inside that range it
    returns element [k - 1] of [inorderTraversal()]. *)
Theorem kthSmallest_spec (t : AvlBinarySearchTree T) (k : Z) :
  valid compare t ->
  (kthSmallest t k = None <-> (k < 1 \/ size t < k)) /\
  (1 <= k <= size t ->
   kthSmallest t k = nth_error (inorderTraversal t) (Z.to_nat (k - 1)) /\
   exists key, kthSmallest t k = Some key).
Proof.
  intros (_ & _ & Hs). unfold kthSmallest.
  destruct (Z.leb_spec k 0) as [H0|H0]; simpl.
  - split; [split; [lia | reflexivity] | lia].
  - destruct (Z.gtb_spec k (size t)) as [H1|H1].
    + split; [split; [lia | reflexivity] | lia].
    + destruct (kthSmallestHelper_spec (root t) k 0)
        as [(Hk & Hv & Hnn & _)|(Hk & _)]; cbn zeta in *; [|lia].
      split.
      * split; [intros E; contradiction | lia].
      * intros _. rewrite inorderTraversal_spec.
        replace (k - 1) with (k - 0 - 1) by lia.
        split; [exact Hv|].
        destruct (value (kthSmallestHelper (root t) k (mkResult 0 None)))
          as [key|]; [exists key; reflexivity | contradiction].
Qed.

(** C9. [isBalanced()] of the AVL tree is the constant true: it holds in
    every state of the handle, for instance in one whose root has a wrong
    cached height and children of heights 1 and -1, which [isValidAVL()]
    rejects; the plain [BinarySearchTree.isBalanced()] measures the
    subtrees and rejects the chain of the same shape. *)
Theorem isBalanced_constant :
  (forall t : AvlBinarySearchTree T, isBalanced t = true) /\
  (forall d : T,
     let chain := Node d (Node d (Node d Null Null 0) Null 1) Null 7 in
     isValidAVL (mkTree chain 3) = false /\
     isBalanced (mkTree chain 3) = true) /\
  (forall d : T,
     let chain :=
       Bst.Node d (Bst.Node d (Bst.Node d Bst.Null Bst.Null) Bst.Null) Bst.Null in
     Bst.isBalanced (Bst.mkTree chain 3) = false).
Proof.
  split; [intros t; reflexivity|].
  split; intros d; vm_compute; auto.
Qed.
End Rank.

Section Lca.
Context {T : Type}.
Variable compare : T -> T -> Z.
Hypothesis Hord : StrictTotalOrder compare.

Lemma findLCA_sound (t : AvlNode T) (a b : T) :
  forall k, dataOf (findLCA compare t a b) = Some k ->
  In k (inorder t) /\ between compare a b k.
Proof.
  induction t as [|d l IHl r IHr h]; simpl; intros k; [discriminate|].
  destruct (Z.ltb_spec (compare a d) 0) as [Ha|Ha];
    destruct (Z.ltb_spec (compare b d) 0) as [Hb|Hb]; simpl;
    try (intros Hk; destruct (IHl k Hk); split;
         [apply in_or_app; left; assumption | assumption]);
    destruct (Z.gtb_spec (compare a d) 0) as [Ha'|Ha'];
    destruct (Z.gtb_spec (compare b d) 0) as [Hb'|Hb']; simpl;
    try (intros Hk; destruct (IHr k Hk); split;
         [apply in_or_app; right; right; assumption | assumption]);
    intros Hk; inversion Hk; subst k;
    (split; [apply in_or_app; right; left; reflexivity | unfold between; lia]).
Qed.

Lemma findLCA_complete (t : AvlNode T) (a b : T) :
  bst compare t ->
  forall k, In k (inorder t) -> between compare a b k ->
  findLCA compare t a b <> Null.
Proof.
  induction t as [|d l IHl r IHr h]; simpl; intros Hbst k Hin Hbt;
    [contradiction|].
  destruct Hbst as (Hbl & Hbr & Hld & Hdr).
  rewrite Forall_forall in Hld, Hdr.
  destruct Hbt as [Hlow Hhigh].
  destruct (Z.ltb_spec (compare a d) 0) as [Ha|Ha];
    destruct (Z.ltb_spec (compare b d) 0) as [Hb|Hb]; simpl.
  - (* both arguments below [d]: the witness is in the left subtree *)
    apply (IHl Hbl k); [|split; assumption].
    apply in_app_or in Hin. destruct Hin as [Hin|[Hin|Hin]].
    + assumption.
    + subst k. exfalso. apply Hlow. split; assumption.
    + exfalso. apply Hlow. specialize (Hdr k Hin).
      split; eapply (lt_trans compare Hord); eassumption.
  - destruct (Z.gtb_spec (compare a d) 0); simpl; try discriminate.
    destruct (Z.gtb_spec (compare b d) 0); simpl; try discriminate. lia.
  - destruct (Z.gtb_spec (compare a d) 0) as [Ha'|Ha']; simpl; try discriminate.
    destruct (Z.gtb_spec (compare b d) 0); simpl; try discriminate. lia.
  - destruct (Z.gtb_spec (compare a d) 0) as [Ha'|Ha']; simpl; try discriminate.
    destruct (Z.gtb_spec (compare b d) 0) as [Hb'|Hb']; simpl; try discriminate.
    (* both arguments above [d]: the witness is in the right subtree *)
    apply (IHr Hbr k); [|split; assumption].
    apply gt_lt in Ha'; [|exact Hord]. apply gt_lt in Hb'; [|exact Hord].
    apply in_app_or in Hin. destruct Hin as [Hin|[Hin|Hin]].
    + exfalso. apply Hhigh. specialize (Hld k Hin).
      split; apply (compare_flip compare Hord);
        eapply (lt_trans compare Hord); eassumption.
    + subst k. exfalso. apply Hhigh.
      split; apply (compare_flip compare Hord); assumption.
    + assumption.
Qed.

Lemma between_left (a b : T) : between compare a b a.
Proof.
  assert (compare a a = 0) by (apply (compare_eq compare Hord); reflexivity).
  unfold between. lia.
Qed.

Lemma between_right (a b : T) : between compare a b b.
Proof.
  assert (compare b b = 0) by (apply (compare_eq compare Hord); reflexivity).
  unfold between. lia.
Qed.

(** C10, as amended.  On a valid tree [lowestCommonAncestor(a, b)]
    returns a key exactly when some stored key lies between [a] and [b]
    (bounds included), and that key is then such a stored key; so it
    returns a key whenever [a] or [b] is stored, and null on the empty
    tree, but also on a non-empty tree whose keys all lie outside the
    interval spanned by the two arguments. *)
Theorem lowestCommonAncestor_spec (t : AvlBinarySearchTree T) (a b : T) :
  valid compare t ->
  ((exists k, lowestCommonAncestor compare t a b = Some k) <->
   (exists k, In k (inorderTraversal t) /\ between compare a b k)) /\
  (forall k, lowestCommonAncestor compare t a b = Some k ->
             In k (inorderTraversal t) /\ between compare a b k) /\
  (search compare t a = true \/ search compare t b = true ->
   exists k, lowestCommonAncestor compare t a b = Some k) /\
  (root t = Null -> lowestCommonAncestor compare t a b = None).
Proof.
  intros (Hb & _ & _). unfold lowestCommonAncestor.
  rewrite inorderTraversal_spec.
  assert (Hc : forall k, In k (inorder (root t)) -> between compare a b k ->
               exists k', dataOf (findLCA compare (root t) a b) = Some k').
  { intros k Hin Hbt.
    pose proof (findLCA_complete (root t) a b Hb k Hin Hbt) as Hne.
    destruct (findLCA compare (root t) a b) as [|d ? ? ?];
      [contradiction | exists d; reflexivity]. }
  split; [split|split; [|split]].
  - intros [k Hk]. exists k. apply findLCA_sound; exact Hk.
  - intros (k & Hin & Hbt). eapply Hc; eassumption.
  - intros k Hk. apply findLCA_sound; exact Hk.
  - intros [Hs|Hs]; apply (search_spec compare Hord t _ Hb) in Hs.
    + exact (Hc a Hs (between_left a b)).
    + exact (Hc b Hs (between_right a b)).
  - intros ->. reflexivity.
Qed.
End Lca.

(** ** Integer keys under the default comparison *)

Lemma defaultCompare_order : StrictTotalOrder defaultCompare.
Proof.
  split; unfold defaultCompare.
  - intros a b. destruct (Z.ltb_spec a b); destruct (Z.gtb_spec a b); lia.
  - intros a b. destruct (Z.ltb_spec a b); destruct (Z.gtb_spec a b);
      destruct (Z.ltb_spec b a); destruct (Z.gtb_spec b a); lia.
  - intros a b c.
    destruct (Z.ltb_spec a b); destruct (Z.gtb_spec a b);
      destruct (Z.ltb_spec b c); destruct (Z.gtb_spec b c);
      destruct (Z.ltb_spec a c); destruct (Z.gtb_spec a c); lia.
Qed.

Lemma valid_from_validators (t : AvlBinarySearchTree Z) :
  isValidBST defaultCompare t = true ->
  isValidAVL t = true ->
  size t = Z.of_nat (length (inorderTraversal t)) ->
  valid defaultCompare t.
Proof.
  intros Hb Ha Hs. repeat split.
  - apply (isValidBST_spec defaultCompare defaultCompare_order); exact Hb.
  - apply validateAVL_spec; exact Ha.
  - rewrite <- inorderTraversal_spec. exact Hs.
Qed.

(** C8. Inserting 1, 2, 3, 4, 5 in this order into the empty tree gives
    height 2; [delete(3)] on that tree then returns true and leaves the
    in-order sequence [1, 2, 4, 5] with [isValidAVL()] still true. *)
Theorem scenario_ascending_five :
  exists t t',
    insertAll defaultCompare empty [1; 2; 3; 4; 5] = Some t /\
    height t = 2 /\
    delete defaultCompare t 3 = Some (t', true) /\
    inorderTraversal t' = [1; 2; 4; 5] /\
    isValidAVL t' = true.
Proof.
  exists (mkTree
            (Node 2 (Node 1 Null Null 0)
                    (Node 4 (Node 3 Null Null 0) (Node 5 Null Null 0) 1) 2) 5).
  exists (mkTree
            (Node 2 (Node 1 Null Null 0)
                    (Node 4 Null (Node 5 Null Null 0) 1) 2) 4).
  vm_compute. repeat split; reflexivity.
Qed.

(** Against C10 as stated: the tree holding the single key 5 is not empty,
    yet [lowestCommonAncestor(1, 2)] returns null on it, because the descent
    leaves the tree on the left of 5. *)
Lemma lowestCommonAncestor_null_on_nonempty :
  exists t,
    insert defaultCompare empty 5 = Some t /\
    root t <> Null /\
    lowestCommonAncestor defaultCompare t 1 2 = None.
Proof.
  exists (mkTree (Node 5 Null Null 0) 1).
  repeat split; [discriminate].
Qed.

(** ** The height bound *)

#[local] Arguments fib : simpl never.
#[local] Arguments Z.pow : simpl never.

Lemma fibPair_spec (n : nat) : fibPair n = (fib n, fib (S n)).
Proof.
  unfold fib. simpl. destruct (fibPair n) as [a b]. reflexivity.
Qed.

Lemma fib_SS (n : nat) : fib (S (S n)) = fib (S n) + fib n.
Proof.
  unfold fib at 1. simpl. rewrite fibPair_spec.
  destruct (fibPair n) as [a b] eqn:E.
  rewrite fibPair_spec in E. inversion E; subst. simpl. lia.
Qed.

Lemma fib_nonneg (n : nat) : 0 <= fib n /\ 0 < fib (S n).
Proof.
  induction n as [|n [IH1 IH2]].
  - split; vm_compute; [discriminate | reflexivity].
  - split; [lia|]. rewrite fib_SS. lia.
Qed.

Lemma fib_le_S (n : nat) : fib n <= fib (S n).
Proof.
  destruct n as [|n]; [vm_compute; discriminate|].
  rewrite fib_SS. pose proof (fib_nonneg n). lia.
Qed.

Lemma fib_mono (n m : nat) : (n <= m)%nat -> fib n <= fib m.
Proof.
  induction 1 as [|m _ IH]; [lia|].
  pose proof (fib_le_S m). lia.
Qed.

Section MinimalSize.
Context {T : Type}.

(** An AVL subtree of height [h] has at least [fib (h + 3) - 1] nodes. *)
Lemma avl_fib (t : AvlNode T) :
  avl t ->
  fib (Z.to_nat (getHeight t + 3)) <= Z.of_nat (length (inorder t)) + 1.
Proof.
  induction t as [|d l IHl r IHr h]; intros Ha.
  - vm_compute. discriminate.
  - simpl in Ha. destruct Ha as (Hl & Hr & Hh & Hb).
    specialize (IHl Hl). specialize (IHr Hr).
    pose proof (avl_height_lower l Hl) as Hl0.
    pose proof (avl_height_lower r Hr) as Hr0.
    cbn [getHeight inorder]. rewrite length_app. cbn [length].
    destruct (Z_le_gt_dec (getHeight r) (getHeight l)) as [Hc|Hc].
    + replace (Z.to_nat (h + 3)) with (S (S (Z.to_nat (getHeight l + 2)))) by lia.
      rewrite fib_SS.
      replace (S (Z.to_nat (getHeight l + 2))) with (Z.to_nat (getHeight l + 3)) by lia.
      pose proof (fib_mono (Z.to_nat (getHeight l + 2)) (Z.to_nat (getHeight r + 3))
                    ltac:(lia)).
      lia.
    + replace (Z.to_nat (h + 3)) with (S (S (Z.to_nat (getHeight r + 2)))) by lia.
      rewrite fib_SS.
      replace (S (Z.to_nat (getHeight r + 2))) with (Z.to_nat (getHeight r + 3)) by lia.
      pose proof (fib_mono (Z.to_nat (getHeight r + 2)) (Z.to_nat (getHeight l + 3))
                    ltac:(lia)).
      lia.
Qed.
End MinimalSize.

(** *** Arithmetic of the bound

    The golden ratio is approximated from below by 377/233, a quotient of
    consecutive Fibonacci numbers; all the numeric facts are checked on
    small integers and combined by the monotonicity of powers. *)

Lemma fib_growth_gen (c d : Z) (j0 : nat) :
  0 <= c -> 0 <= d ->
  c * 377 ^ Z.of_nat j0 <= d * fib (j0 + 2) * 233 ^ Z.of_nat j0 ->
  c * 377 ^ Z.of_nat (S j0) <= d * fib (S j0 + 2) * 233 ^ Z.of_nat (S j0) ->
  forall k : nat,
    c * 377 ^ Z.of_nat (j0 + k) <=
      d * fib (j0 + k + 2) * 233 ^ Z.of_nat (j0 + k) /\
    c * 377 ^ Z.of_nat (S (j0 + k)) <=
      d * fib (S (j0 + k) + 2) * 233 ^ Z.of_nat (S (j0 + k)).
Proof.
  intros Hc Hd B0 B1 k.
  induction k as [|k [IH1 IH2]].
  - rewrite Nat.add_0_r. split; assumption.
  - replace (j0 + S k)%nat with (S (j0 + k)) by lia.
    split; [exact IH2|].
    set (n := (j0 + k)%nat) in *.
    change (S (S n) + 2)%nat with (S (S (n + 2))).
    rewrite fib_SS.
    change (S (n + 2)) with (S n + 2)%nat.
    rewrite !Nat2Z.inj_succ in *.
    rewrite !Z.pow_succ_r in * by lia.
    assert (0 < 233 ^ Z.of_nat n) by (apply Z.pow_pos_nonneg; lia).
    assert (0 < 377 ^ Z.of_nat n) by (apply Z.pow_pos_nonneg; lia).
    set (a := 377 ^ Z.of_nat n) in *. set (b := 233 ^ Z.of_nat n) in *.
    set (f1 := fib (n + 2)) in *. set (f2 := fib (S n + 2)) in *.
    clearbody a b f1 f2.
    assert (0 <= c * a) by nia.
    nia.
Qed.

(** [fib (j + 2) >= (377/233) ^ j]. *)
Lemma fib_growth (j : nat) :
  377 ^ Z.of_nat j <= fib (j + 2) * 233 ^ Z.of_nat j.
Proof.
  destruct (fib_growth_gen 1 1 0) with (k := j) as [H _];
    try lia; try (vm_compute; discriminate).
  simpl Nat.add in H. lia.
Qed.

(** [fib (j + 2) >= 7/6 * (377/233) ^ j] from [j = 4] on. *)
Lemma fib_growth_ahead (j : nat) :
  (4 <= j)%nat ->
  7 * 377 ^ Z.of_nat j <= 6 * fib (j + 2) * 233 ^ Z.of_nat j.
Proof.
  intros Hj.
  destruct (fib_growth_gen 7 6 4) with (k := (j - 4)%nat) as [H _];
    try lia; try (vm_compute; discriminate).
  replace (4 + (j - 4))%nat with j in H by lia. exact H.
Qed.

Lemma chain_pow (x y u v a b k : Z) :
  0 <= x -> 0 <= y -> 0 < u -> 0 <= v -> 0 <= a -> 0 <= b -> 0 <= k ->
  x * u <= y * v -> v ^ k * b <= u ^ k * a ->
  x ^ k * b <= y ^ k * a.
Proof.
  intros Hx Hy Hu Hv Ha Hb Hk H1 H2.
  assert (H3 : (x * u) ^ k <= (y * v) ^ k)
    by (apply Z.pow_le_mono_l; split; [apply Z.mul_nonneg_nonneg; lia | exact H1]).
  rewrite !Z.pow_mul_l in H3.
  assert (0 <= x ^ k) by (apply Z.pow_nonneg; lia).
  assert (0 <= y ^ k) by (apply Z.pow_nonneg; lia).
  assert (0 < u ^ k) by (apply Z.pow_pos_nonneg; lia).
  assert (0 <= v ^ k) by (apply Z.pow_nonneg; lia).
  set (X := x ^ k) in *. set (Y := y ^ k) in *.
  set (U := u ^ k) in *. set (V := v ^ k) in *.
  clearbody X Y U V.
  apply (Z.mul_le_mono_pos_r _ _ U); [assumption|].
  apply Z.le_trans with (Y * V * b); nia.
Qed.

(** From [(A/B)^p >= E * c/d] and [(c/d)^k * A/B >= 1] to
    [(A/B)^(p*k+1) >= E^k]. *)
Lemma golden_generic (A B E c d p k : Z) :
  0 < A -> 0 < B -> 0 <= E -> 0 < c -> 0 <= d -> 0 <= p -> 0 <= k ->
  E * B ^ p * c <= A ^ p * d ->
  d ^ k * B <= c ^ k * A ->
  E ^ k * B ^ (p * k + 1) <= A ^ (p * k + 1).
Proof.
  intros HA HB HE Hc Hd Hp Hk H1 H2.
  rewrite !Z.pow_add_r, !Z.pow_1_r, !Z.pow_mul_r by nia.
  rewrite Z.mul_assoc, <- Z.pow_mul_l.
  apply (chain_pow _ _ c d); try lia.
  all: try (apply Z.mul_nonneg_nonneg; [|apply Z.pow_nonneg]; lia).
  all: try (apply Z.pow_nonneg; lia).
Qed.

Lemma pow_bound_transfer (A B N F E p m : Z) :
  0 < A -> 0 < B -> 0 <= F <= N -> 0 <= E -> 0 <= m -> 0 <= p ->
  A ^ m <= F * B ^ m ->
  E * B ^ p <= A ^ p ->
  E ^ m <= N ^ p.
Proof.
  intros HA HB HF HE Hm Hp H1 H2.
  assert (HBm : 0 < B ^ (p * m)) by (apply Z.pow_pos_nonneg; nia).
  apply (Z.mul_le_mono_pos_r _ _ (B ^ (p * m)) HBm).
  assert (E1 : E ^ m * B ^ (p * m) = (E * B ^ p) ^ m).
  { rewrite Z.pow_mul_l, <- !Z.pow_mul_r by lia. reflexivity. }
  assert (E2 : N ^ p * B ^ (p * m) = (N * B ^ m) ^ p).
  { rewrite Z.pow_mul_l, <- !Z.pow_mul_r by lia.
    rewrite (Z.mul_comm m p). reflexivity. }
  rewrite E1, E2.
  apply Z.le_trans with ((A ^ p) ^ m).
  - apply Z.pow_le_mono_l. split; [|exact H2].
    apply Z.mul_nonneg_nonneg; [|apply Z.pow_nonneg]; lia.
  - rewrite <- Z.pow_mul_r, (Z.mul_comm p m), Z.pow_mul_r by lia.
    apply Z.pow_le_mono_l. split; [apply Z.pow_nonneg; lia|].
    apply Z.le_trans with (F * B ^ m); [exact H1|].
    apply Z.mul_le_mono_nonneg_r; [apply Z.pow_nonneg|]; lia.
Qed.

(** The same with a head start [c/d] on the growth and a loss [u/v] per
    block, for exponents up to [J]. *)
Lemma range_transfer (A B F N E c d u v p J j : Z) :
  0 < A -> 0 < B -> 0 <= F <= N -> 0 <= E -> 0 < c -> 0 < d ->
  0 < u <= v -> 0 <= p -> 0 <= j <= J ->
  c * A ^ j <= d * F * B ^ j ->
  E * B ^ p * u <= A ^ p * v ->
  d ^ p * v ^ J <= c ^ p * u ^ J ->
  E ^ j <= N ^ p.
Proof.
  intros HA HB HF HE Hc Hd Hu Hp Hj H1 H2 H3.
  apply Z.le_trans with (F ^ p); [|apply Z.pow_le_mono_l; lia].
  (* (a) the growth fact to the power [p] *)
  assert (Ha : c ^ p * (A ^ p) ^ j <= d ^ p * F ^ p * (B ^ p) ^ j).
  { rewrite <- !Z.pow_mul_r, (Z.mul_comm p j), !Z.pow_mul_r, <- !Z.pow_mul_l by lia.
    apply Z.pow_le_mono_l. split; [|exact H1].
    apply Z.mul_nonneg_nonneg; [|apply Z.pow_nonneg]; lia. }
  (* (b) the block fact to the power [j] *)
  assert (Hb : E ^ j * (B ^ p) ^ j * u ^ j <= (A ^ p) ^ j * v ^ j).
  { rewrite <- !Z.pow_mul_l.
    apply Z.pow_le_mono_l. split; [|exact H2].
    repeat apply Z.mul_nonneg_nonneg; try apply Z.pow_nonneg; lia. }
  (* (c) the head start outweighs the loss up to [J] *)
  assert (Hc3 : d ^ p * v ^ j <= c ^ p * u ^ j).
  { assert (0 < u ^ (J - j)) by (apply Z.pow_pos_nonneg; lia).
    assert (u ^ (J - j) <= v ^ (J - j)) by (apply Z.pow_le_mono_l; lia).
    assert (Eu : u ^ J = u ^ j * u ^ (J - j))
      by (rewrite <- Z.pow_add_r by lia; f_equal; lia).
    assert (Ev : v ^ J = v ^ j * v ^ (J - j))
      by (rewrite <- Z.pow_add_r by lia; f_equal; lia).
    rewrite Eu, Ev in H3.
    assert (0 <= d ^ p) by (apply Z.pow_nonneg; lia).
    assert (0 <= c ^ p) by (apply Z.pow_nonneg; lia).
    assert (0 <= v ^ j) by (apply Z.pow_nonneg; lia).
    assert (0 <= u ^ j) by (apply Z.pow_nonneg; lia).
    set (D := d ^ p) in *. set (C := c ^ p) in *.
    set (Vj := v ^ j) in *. set (Uj := u ^ j) in *.
    set (Ur := u ^ (J - j)) in *. set (Vr := v ^ (J - j)) in *.
    clearbody D C Vj Uj Ur Vr.
    apply (Z.mul_le_mono_pos_r _ _ Ur); [assumption|].
    apply Z.le_trans with (D * (Vj * Vr)); [nia | nia]. }
  assert (0 < (B ^ p) ^ j) by (repeat apply Z.pow_pos_nonneg; lia).
  assert (0 <= (A ^ p) ^ j) by (repeat apply Z.pow_nonneg; lia).
  assert (0 < u ^ j) by (apply Z.pow_pos_nonneg; lia).
  assert (0 <= v ^ j) by (apply Z.pow_nonneg; lia).
  assert (0 < c ^ p) by (apply Z.pow_pos_nonneg; lia).
  assert (0 < d ^ p) by (apply Z.pow_pos_nonneg; lia).
  assert (0 <= E ^ j) by (apply Z.pow_nonneg; lia).
  assert (0 <= F ^ p) by (apply Z.pow_nonneg; lia).
  set (Ej := E ^ j) in *. set (Fp := F ^ p) in *.
  set (Bj := (B ^ p) ^ j) in *. set (Aj := (A ^ p) ^ j) in *.
  set (Uj := u ^ j) in *. set (Vj := v ^ j) in *.
  set (C := c ^ p) in *. set (D := d ^ p) in *.
  clearbody Ej Fp Bj Aj Uj Vj C D.
  assert (Hpos : 0 < Bj * Uj * C) by nia.
  apply (Z.mul_le_mono_pos_r _ _ (Bj * Uj * C) Hpos).
  apply Z.le_trans with (Aj * Vj * C); [nia|].
  apply Z.le_trans with (D * Fp * Bj * Vj); [nia|].
  replace (D * Fp * Bj * Vj) with (Fp * Bj * (D * Vj)) by ring.
  replace (Fp * (Bj * Uj * C)) with (Fp * Bj * (C * Uj)) by ring.
  apply Z.mul_le_mono_nonneg_l; [nia | exact Hc3].
Qed.

Lemma pow_regroup (a q k m : Z) :
  0 <= q -> 0 <= k -> 0 <= m -> ((a ^ q) ^ k) ^ m = a ^ (q * k * m).
Proof.
  intros Hq Hk Hm. rewrite <- !Z.pow_mul_r by nia.
  rewrite Z.mul_assoc. reflexivity.
Qed.

(** [(377/233) ^ 36 >= 2 ^ 25 * 189/190]. *)
Lemma golden_block : 2 ^ 25 * 233 ^ 36 * 189 <= 377 ^ 36 * 190.
Proof. vm_compute. discriminate. Qed.

(** [(189/190) ^ 80 * 377/233 >= 1]. *)
Lemma golden_rest : 190 ^ 80 * 233 <= 189 ^ 80 * 377.
Proof. vm_compute. discriminate. Qed.

(** [(7/6) ^ 36 * (189/190) ^ 76 >= 1]. *)
Lemma golden_ahead : 6 ^ 36 * 190 ^ 76 <= 7 ^ 36 * 189 ^ 76.
Proof. vm_compute. discriminate. Qed.

Lemma fib_beyond_exact : maxExactSize + 1 < fib 79.
Proof. vm_compute. reflexivity. Qed.

Section HeightBounds.
Context {T : Type}.

Lemma avl_sharp_bound (t : AvlNode T) :
  avl t ->
  sharpHeightBound (getHeight t) (Z.of_nat (length (inorder t))).
Proof.
  intros Ha. unfold sharpHeightBound.
  pose proof (avl_fib t Ha) as Hf.
  pose proof (avl_height_lower t Ha) as Hh.
  set (n := Z.of_nat (length (inorder t))) in *.
  assert (Hn : 0 <= n) by (subst n; lia).
  set (h := getHeight t) in *. clearbody h n.
  set (m := Z.to_nat (h + 1)).
  replace (Z.to_nat (h + 3)) with (m + 2)%nat in Hf by lia.
  pose proof (fib_growth m) as Hg.
  pose proof (proj1 (fib_nonneg (m + 2))) as Hf0.
  replace (2 ^ (2000 * (h + 1))) with (((2 ^ 25) ^ 80) ^ Z.of_nat m)
    by (rewrite pow_regroup by lia; f_equal; lia).
  change 2881 with (36 * 80 + 1).
  apply (pow_bound_transfer 377 233 (n + 2) (fib (m + 2)));
    [lia | lia | lia | | lia | lia | exact Hg | ].
  - repeat apply Z.pow_nonneg; lia.
  - apply (golden_generic 377 233 (2 ^ 25) 189 190 36 80);
      [lia | lia | | lia | lia | lia | lia
       | exact golden_block | exact golden_rest].
    apply Z.pow_nonneg; lia.
Qed.

Lemma avl_spec_bound (t : AvlNode T) :
  avl t ->
  Z.of_nat (length (inorder t)) <= maxExactSize ->
  specHeightBound (getHeight t) (Z.of_nat (length (inorder t))).
Proof.
  intros Ha Hmax. unfold specHeightBound.
  pose proof (avl_fib t Ha) as Hf.
  pose proof (avl_height_lower t Ha) as Hh.
  set (n := Z.of_nat (length (inorder t))) in *.
  assert (Hn : 0 <= n) by (subst n; lia).
  set (h := getHeight t) in *. clearbody h n.
  set (m := Z.to_nat (h + 1)).
  replace (Z.to_nat (h + 3)) with (m + 2)%nat in Hf by lia.
  replace (25 * (h + 1)) with (25 * Z.of_nat m) by lia.
  pose proof (proj1 (fib_nonneg (m + 2))) as Hf0.
  assert (Hm : (m <= 76)%nat).
  { destruct (le_gt_dec m 76) as [|Hgt]; [assumption|exfalso].
    pose proof (fib_mono 79 (m + 2) ltac:(lia)).
    pose proof fib_beyond_exact. lia. }
  rewrite Z.pow_mul_r by lia.
  destruct (le_gt_dec 4 m) as [H4|H4].
  - apply (range_transfer 377 233 (fib (m + 2)) (n + 2) (2 ^ 25)
             7 6 189 190 36 76 (Z.of_nat m));
      [lia | lia | lia | | lia | lia | lia | lia | lia
       | exact (fib_growth_ahead m H4) | exact golden_block
       | exact golden_ahead].
    apply Z.pow_nonneg; lia.
  - clearbody m.
    assert (Hs : forall k : Z, (2 ^ 25) ^ Z.of_nat m <= k ^ 36 ->
                               0 <= k <= n + 2 ->
                               (2 ^ 25) ^ Z.of_nat m <= (n + 2) ^ 36).
    { intros k H1 H2. apply Z.le_trans with (k ^ 36); [exact H1|].
      apply Z.pow_le_mono_l. exact H2. }
    destruct m as [|[|[|[|m]]]]; [| | | |lia].
    + apply (Hs 2); [vm_compute; discriminate | lia].
    + apply (Hs 3); [vm_compute; discriminate|].
      change (fib (1 + 2)) with 2 in Hf. lia.
    + apply (Hs 4); [vm_compute; discriminate|].
      change (fib (2 + 2)) with 3 in Hf. lia.
    + apply (Hs 6); [vm_compute; discriminate|].
      change (fib (3 + 2)) with 5 in Hf. lia.
Qed.
End HeightBounds.

(** *** Every AVL shape is built by insertions alone *)

Section Reach.
Context {T : Type}.
Variable compare : T -> T -> Z.
Hypothesis Hord : StrictTotalOrder compare.

Lemma isNull_true (t : AvlNode T) : isNull t = true -> t = Null.
Proof. destruct t; [reflexivity | discriminate]. Qed.

Lemma inorder_nil (t : AvlNode T) : inorder t = [] -> t = Null.
Proof.
  destruct t as [|d l r h]; [reflexivity|].
  simpl. intros H. destruct (inorder l); discriminate.
Qed.

(** Removing a deepest leaf keeps the tree an AVL search tree, and
    [insertNode] puts the leaf back without any rotation. *)
Lemma dropLeaf_spec (t : AvlNode T) :
  avl t -> bst compare t -> t <> Null ->
  exists x l1 l2,
    deepLeaf t = Some x /\
    inorder t = l1 ++ x :: l2 /\
    inorder (dropLeaf t) = l1 ++ l2 /\
    avl (dropLeaf t) /\ bst compare (dropLeaf t) /\
    getHeight t - 1 <= getHeight (dropLeaf t) <= getHeight t /\
    forall s, insertNode compare (dropLeaf t) x s = Some (t, s).
Proof.
  induction t as [|d l IHl r IHr h]; intros Ha Hb Hne; [contradiction|].
  destruct Ha as (Hl & Hr & Hh & Hbf).
  destruct Hb as (Hbl & Hbr & Hld & Hdr).
  pose proof (avl_height_lower l Hl) as Hl0.
  pose proof (avl_height_lower r Hr) as Hr0.
  cbn [deepLeaf dropLeaf].
  destruct (isNull l && isNull r) eqn:Eleaf.
  - apply andb_true_iff in Eleaf. destruct Eleaf as [El Er].
    apply isNull_true in El, Er. subst l r.
    cbn [getHeight] in Hh. assert (h = 0) as -> by lia.
    exists d, [], []. repeat split; simpl; auto; lia.
  - destruct (Z.geb_spec (getHeight l) (getHeight r)) as [Hge|Hlt].
    + assert (Hnl : l <> Null).
      { intros ->. cbn [getHeight] in Hge.
        rewrite (avl_height_null r Hr) in Eleaf by lia. discriminate. }
      destruct (IHl Hl Hbl Hnl)
        as (x & l1 & l2 & E1 & E2 & E3 & Ha' & Hb' & Hh' & Hins).
      exists x, l1, (l2 ++ d :: inorder r).
      split; [exact E1|].
      split; [cbn [inorder]; rewrite E2, <- app_assoc; reflexivity|].
      split; [cbn [inorder]; rewrite E3, <- app_assoc; reflexivity|].
      split; [cbn [avl getHeight]; repeat split; auto; lia|].
      split.
      { cbn [bst]. split; [exact Hb'|]. split; [exact Hbr|].
        split; [|exact Hdr].
        rewrite E3. rewrite E2 in Hld. apply Forall_app in Hld.
        destruct Hld as [H1 H2]. inversion H2; subst.
        apply Forall_app. split; assumption. }
      split; [cbn [getHeight]; lia|].
      intros s. cbn [insertNode].
      assert (Hx : compare x d < 0).
      { rewrite Forall_forall in Hld. apply Hld. rewrite E2.
        apply in_or_app. right; left; reflexivity. }
      destruct (Z.ltb_spec (compare x d) 0) as [_|]; [|lia].
      rewrite Hins.
      destruct (balance_spec d l r
                  (1 + Z.max (getHeight (dropLeaf l)) (getHeight r)) Hl Hr
                  ltac:(lia)) as (t' & E & _ & _ & _ & Hn).
      rewrite E, (Hn ltac:(lia)), <- Hh. reflexivity.
    + assert (Hnr : r <> Null) by (intros ->; cbn [getHeight] in Hlt; lia).
      destruct (IHr Hr Hbr Hnr)
        as (x & l1 & l2 & E1 & E2 & E3 & Ha' & Hb' & Hh' & Hins).
      exists x, (inorder l ++ d :: l1), l2.
      split; [exact E1|].
      split; [cbn [inorder]; rewrite E2, <- app_assoc; reflexivity|].
      split; [cbn [inorder]; rewrite E3, <- app_assoc; reflexivity|].
      split; [cbn [avl getHeight]; repeat split; auto; lia|].
      split.
      { cbn [bst]. split; [exact Hbl|]. split; [exact Hb'|].
        split; [exact Hld|].
        rewrite E3. rewrite E2 in Hdr. apply Forall_app in Hdr.
        destruct Hdr as [H1 H2]. inversion H2; subst.
        apply Forall_app. split; assumption. }
      split; [cbn [getHeight]; lia|].
      intros s. cbn [insertNode].
      assert (Hx : lt compare d x).
      { rewrite Forall_forall in Hdr. apply Hdr. rewrite E2.
        apply in_or_app. right; left; reflexivity. }
      apply (compare_flip compare Hord) in Hx.
      destruct (Z.ltb_spec (compare x d) 0) as [|_]; [lia|].
      destruct (Z.gtb_spec (compare x d) 0) as [_|]; [|lia].
      rewrite Hins.
      destruct (balance_spec d l r
                  (1 + Z.max (getHeight l) (getHeight (dropLeaf r))) Hl Hr
                  ltac:(lia)) as (t' & E & _ & _ & _ & Hn).
      rewrite E, (Hn ltac:(lia)), <- Hh. reflexivity.
Qed.

Lemma applyOps_app (ops1 ops2 : list (Op T)) :
  forall t,
  applyOps compare t (ops1 ++ ops2) =
  match applyOps compare t ops1 with
  | Some t' => applyOps compare t' ops2
  | None => None
  end.
Proof.
  induction ops1 as [|op ops1 IH]; intros t; simpl; [reflexivity|].
  destruct (applyOp compare t op); [apply IH | reflexivity].
Qed.

Lemma avl_reachable (n : nat) :
  forall t : AvlNode T,
  length (inorder t) = n -> avl t -> bst compare t ->
  exists keys,
    length keys = n /\
    insertAll compare empty keys = Some (mkTree t (Z.of_nat n)).
Proof.
  induction n as [|n IH]; intros t Hlen Ha Hb.
  - exists []. split; [reflexivity|].
    rewrite (inorder_nil t) by (destruct (inorder t); [reflexivity | discriminate]).
    reflexivity.
  - assert (Hne : t <> Null) by (intros ->; discriminate).
    destruct (dropLeaf_spec t Ha Hb Hne)
      as (x & l1 & l2 & _ & E2 & E3 & Ha' & Hb' & _ & Hins).
    assert (Hlen' : length (inorder (dropLeaf t)) = n).
    { rewrite E2 in Hlen. rewrite E3.
      rewrite length_app in *. simpl in Hlen. lia. }
    destruct (IH (dropLeaf t) Hlen' Ha' Hb') as (keys & Hk & Hrun).
    exists (keys ++ [x]). split; [rewrite length_app; simpl; lia|].
    unfold insertAll in *. rewrite map_app, applyOps_app, Hrun.
    simpl. unfold insert. simpl. rewrite Hins.
    do 2 f_equal. lia.
Qed.
End Reach.

(** *** The sparsest AVL trees *)

Lemma lt_default (a b : Z) : lt defaultCompare a b <-> a < b.
Proof.
  unfold lt, defaultCompare.
  destruct (Z.ltb_spec a b); destruct (Z.gtb_spec a b); lia.
Qed.

Lemma fibTree_SS (m : nat) (lo : Z) :
  fibTree (S (S m)) lo =
  Node (lo + (fib (S m + 2) - 1))
       (fibTree (S m) lo)
       (fibTree m (lo + (fib (S m + 2) - 1) + 1))
       (Z.of_nat (S m)).
Proof. reflexivity. Qed.

Lemma fibTree_spec (m : nat) :
  forall lo,
    let t := fibTree m lo in
    avl t /\ bst defaultCompare t /\
    getHeight t = Z.of_nat m - 1 /\
    Z.of_nat (length (inorder t)) = fib (m + 2) - 1 /\
    Forall (fun k => lo <= k < lo + (fib (m + 2) - 1)) (inorder t).
Proof.
  assert (H : (forall lo,
                 let t := fibTree m lo in
                 avl t /\ bst defaultCompare t /\
                 getHeight t = Z.of_nat m - 1 /\
                 Z.of_nat (length (inorder t)) = fib (m + 2) - 1 /\
                 Forall (fun k => lo <= k < lo + (fib (m + 2) - 1)) (inorder t)) /\
              (forall lo,
                 let t := fibTree (S m) lo in
                 avl t /\ bst defaultCompare t /\
                 getHeight t = Z.of_nat (S m) - 1 /\
                 Z.of_nat (length (inorder t)) = fib (S m + 2) - 1 /\
                 Forall (fun k => lo <= k < lo + (fib (S m + 2) - 1)) (inorder t))).
  2: { exact (proj1 H). }
  induction m as [|m [IH1 IH2]].
  - split; intros lo; cbn zeta.
    + change (fib (0 + 2)) with 1. simpl.
      repeat split; auto; lia.
    + change (fib (1 + 2)) with 2. simpl.
      repeat split; auto; try lia.
      constructor; [lia | constructor].
  - split; [exact IH2|]. intros lo. cbn zeta.
    rewrite fibTree_SS.
    set (nl := fib (S m + 2) - 1).
    destruct (IH2 lo) as (Hal & Hbl & Hhl & Hnl & Hfl).
    destruct (IH1 (lo + nl + 1)) as (Har & Hbr & Hhr & Hnr & Hfr).
    cbn zeta in *. fold nl in Hnl, Hfl.
    change (S (S m) + 2)%nat with (S (S (m + 2))).
    rewrite fib_SS. change (S (m + 2)) with (S m + 2)%nat.
    pose proof (fib_nonneg (m + 1)) as [_ Hp1].
    replace (S (m + 1)) with (m + 2)%nat in Hp1 by lia.
    pose proof (fib_nonneg (m + 2)) as [_ Hp2].
    replace (S (m + 2)) with (S m + 2)%nat in Hp2 by lia.
    split; [cbn [avl]; repeat split; auto; lia|].
    split.
    { cbn [bst]. split; [exact Hbl|]. split; [exact Hbr|]. split.
      - eapply Forall_impl; [|exact Hfl]. intros k Hk.
        apply lt_default. cbn beta in Hk. lia.
      - eapply Forall_impl; [|exact Hfr]. intros k Hk.
        apply lt_default. cbn beta in Hk. lia. }
    split; [cbn [getHeight]; lia|].
    split.
    { cbn [inorder]. rewrite length_app. cbn [length]. lia. }
    cbn [inorder]. apply Forall_app. split.
    + eapply Forall_impl; [|exact Hfl]. intros k Hk. cbn beta in *. lia.
    + constructor; [lia|].
      eapply Forall_impl; [|exact Hfr]. intros k Hk. cbn beta in *. lia.
Qed.

Lemma spec_bound_refuted (h n k : Z) :
  0 <= k -> 0 <= n -> n + 2 < 2 ^ k -> 36 * k <= 25 * (h + 1) ->
  ~ specHeightBound h n.
Proof.
  intros Hk Hn Hlt Hexp. unfold specHeightBound. intros H.
  assert (H1 : (n + 2) ^ 36 < (2 ^ k) ^ 36)
    by (apply Z.pow_lt_mono_l; lia).
  rewrite <- Z.pow_mul_r in H1 by lia.
  assert (H2 : 2 ^ (k * 36) <= 2 ^ (25 * (h + 1)))
    by (apply Z.pow_le_mono_r; lia).
  set (X := (n + 2) ^ 36) in *. clearbody X. lia.
Qed.

(** [fib 1154 + 1 < 2 ^ 800], while [25 * 1152 = 36 * 800]. *)
Lemma sparse_size : fib 1154 - 1 + 2 < 2 ^ 800.
Proof. vm_compute. reflexivity. Qed.


(** Inserting 1, 2, ..., 1000 in ascending order: the thousand insertions
    all succeed and the height is 9. *)
Lemma ascending_thousand :
  option_map (fun t => (size t, height t))
    (insertAll defaultCompare empty (ascending 1000)) = Some (1000, 9).
Proof. vm_compute. reflexivity. Qed.

Section HeightClaim.
Context {T : Type}.
Variable compare : T -> T -> Z.
Hypothesis Hord : StrictTotalOrder compare.

End HeightClaim.

(** ** Instances on concrete trees *)

Lemma five_valid : valid defaultCompare five.
Proof. apply valid_from_validators; reflexivity. Qed.

Lemma invariants_after_every_call_witness :
  StrictTotalOrder defaultCompare /\
  exists t,
    applyOps defaultCompare empty
      (firstn 3 [OpInsert 2; OpInsert 1; OpDelete 2; OpInsert 7]) = Some t /\
    isValidBST defaultCompare t = true /\
    isValidAVL t = true /\
    StronglySorted (lt defaultCompare) (inorderTraversal t) /\
    NoDup (inorderTraversal t).
Proof.
  split; [exact defaultCompare_order|].
  exact (invariants_after_every_call defaultCompare defaultCompare_order
           [OpInsert 2; OpInsert 1; OpDelete 2; OpInsert 7] 3).
Defined.

Lemma balance_restores_avl_witness :
  exists t',
    balance (Node 3 (Node 2 (Node 1 Null Null 0) Null 1) Null 99) = Some t' /\
    getHeight t' = realHeight t' /\
    (exists bf, getBalanceFactor t' = Some bf /\ -1 <= bf <= 1) /\
    avl t' /\
    inorder t' = [1; 2; 3].
Proof.
  apply (balance_restores_avl 3 (Node 2 (Node 1 Null Null 0) Null 1) Null 99).
  - simpl. repeat split; lia.
  - exact I.
  - simpl. lia.
Defined.

Lemma delete_reports_removal_witness :
  valid defaultCompare five /\
  exists t' b,
    delete defaultCompare five 2 = Some (t', b) /\
    (b = true <-> search defaultCompare five 2 = true) /\
    (b = true <-> In 2 (inorderTraversal five)) /\
    (size t' = size five - 1 <-> b = true) /\
    (b = false -> size t' = size five /\
                  inorderTraversal t' = inorderTraversal five) /\
    (b = true -> length (inorderTraversal five) =
                 S (length (inorderTraversal t'))) /\
    valid defaultCompare t'.
Proof.
  split; [exact five_valid|].
  exact (delete_reports_removal defaultCompare defaultCompare_order five 2
           five_valid).
Defined.

Lemma duplicate_insert_noop_witness :
  search defaultCompare five 3 = true /\
  exists t',
    insert defaultCompare five 3 = Some t' /\
    size t' = size five /\
    inorderTraversal t' = inorderTraversal five /\
    t' = five.
Proof.
  split; [reflexivity|].
  apply (duplicate_insert_noop defaultCompare defaultCompare_order five 3).
  - exact five_valid.
  - reflexivity.
Defined.

Lemma insertion_order_irrelevant_witness :
  exists t1 t2,
    insertAll defaultCompare empty [1; 2; 3] = Some t1 /\
    insertAll defaultCompare empty [3; 1; 2] = Some t2 /\
    inorderTraversal t1 = inorderTraversal t2 /\
    StronglySorted (lt defaultCompare) (inorderTraversal t1) /\
    Permutation [1; 2; 3] (inorderTraversal t1).
Proof.
  apply (insertion_order_irrelevant defaultCompare defaultCompare_order
           [1; 2; 3] [3; 1; 2]).
  - repeat constructor; simpl; lia.
  - apply Permutation_sym. exact (Permutation_cons_append [1; 2] 3).
Defined.

Lemma kthSmallest_spec_witness :
  (kthSmallest five 4 = None <-> (4 < 1 \/ size five < 4)) /\
  (1 <= 4 <= size five ->
   kthSmallest five 4 = nth_error (inorderTraversal five) (Z.to_nat (4 - 1)) /\
   exists key, kthSmallest five 4 = Some key).
Proof.
  exact (kthSmallest_spec defaultCompare five 4 five_valid).
Defined.

Lemma lowestCommonAncestor_spec_witness :
  ((exists k, lowestCommonAncestor defaultCompare five 3 9 = Some k) <->
   (exists k, In k (inorderTraversal five) /\ between defaultCompare 3 9 k)) /\
  (forall k, lowestCommonAncestor defaultCompare five 3 9 = Some k ->
             In k (inorderTraversal five) /\ between defaultCompare 3 9 k) /\
  (search defaultCompare five 3 = true \/ search defaultCompare five 9 = true ->
   exists k, lowestCommonAncestor defaultCompare five 3 9 = Some k) /\
  (root five = Null -> lowestCommonAncestor defaultCompare five 3 9 = None).
Proof.
  exact (lowestCommonAncestor_spec defaultCompare defaultCompare_order five 3 9
           five_valid).
Defined.


(** * Further properties of the code *)

(** ** Lookups after updates, extremes and ranks *)

Section Lookups.
Context {T : Type}.
Variable compare : T -> T -> Z.
Hypothesis Hord : StrictTotalOrder compare.

Lemma search_after (t t' : AvlBinarySearchTree T) (P : T -> Prop) :
  bst compare (root t) -> bst compare (root t') ->
  (forall j, P j -> (In j (inorder (root t')) <-> In j (inorder (root t)))) ->
  forall j, P j -> search compare t' j = search compare t j.
Proof.
  intros Hb Hb' Hmem j Hj. apply eq_true_iff_eq.
  rewrite (search_spec compare Hord t' j Hb'), (search_spec compare Hord t j Hb).
  apply Hmem. exact Hj.
Qed.

(** X1. [insert(k)] on a valid tree makes [search(k)] true and changes the
    answer of [search] for no other key; when [k] was absent the counter
    grows by one and [k] enters [inorderTraversal()] at its sorted
    position. *)
Theorem insert_then_search (t : AvlBinarySearchTree T) (k : T) :
  valid compare t ->
  exists t',
    insert compare t k = Some t' /\
    search compare t' k = true /\
    (forall j, j <> k -> search compare t' j = search compare t j) /\
    (search compare t k = false ->
     size t' = size t + 1 /\
     exists l1 l2,
       inorderTraversal t = l1 ++ l2 /\
       inorderTraversal t' = l1 ++ k :: l2 /\
       Forall (fun x => lt compare x k) l1 /\
       Forall (lt compare k) l2).
Proof.
  intros Hv. pose proof Hv as (Hb & _ & _).
  destruct (insert_spec compare Hord t k Hv) as (t' & E & Hv' & _ & Hcase).
  pose proof Hv' as (Hb' & _ & _).
  exists t'. split; [exact E|].
  destruct Hcase as [(Hin & ->)|(Hnin & Hs & l1 & l2 & E1 & E2)].
  - split; [apply (search_spec compare Hord t k Hb); exact Hin|].
    split; [reflexivity|].
    intros Hf. apply (search_spec compare Hord t k Hb) in Hin. congruence.
  - split.
    { apply (search_spec compare Hord t' k Hb'). rewrite E2.
      apply in_or_app. right; left; reflexivity. }
    split.
    { apply (search_after t t' (fun j => j <> k) Hb Hb').
      intros j Hj. rewrite E1, E2, !in_app_iff. simpl.
      split; [intros [?|[?|?]] | intros [?|?]]; auto; congruence. }
    intros _. split; [exact Hs|].
    exists l1, l2. rewrite !inorderTraversal_spec.
    split; [exact E1|]. split; [exact E2|].
    apply (bst_sorted compare Hord) in Hb'. rewrite E2 in Hb'.
    apply (sorted_app_inv compare) in Hb'. tauto.
Qed.

(** X2. [delete(k)] on a valid tree makes [search(k)] false and changes the
    answer of [search] for no other key; when [k] was stored,
    [inorderTraversal()] afterwards is the former one without [k]. *)
Theorem delete_then_search (t : AvlBinarySearchTree T) (k : T) :
  valid compare t ->
  exists t' b,
    delete compare t k = Some (t', b) /\
    search compare t' k = false /\
    (forall j, j <> k -> search compare t' j = search compare t j) /\
    (search compare t k = true ->
     exists l1 l2,
       inorderTraversal t = l1 ++ k :: l2 /\
       inorderTraversal t' = l1 ++ l2).
Proof.
  intros Hv. pose proof Hv as (Hb & _ & _).
  destruct (delete_spec compare Hord t k Hv) as (t' & b & E & Hv' & _ & Hcase).
  pose proof Hv' as (Hb' & _ & _).
  exists t', b. split; [exact E|].
  assert (Hnot : forall u, ~ In k (inorder (root u)) -> bst compare (root u) ->
                 search compare u k = false).
  { intros u Hn Hbu. destruct (search compare u k) eqn:Es; [|reflexivity].
    apply (search_spec compare Hord u k Hbu) in Es. contradiction. }
  destruct Hcase as [(Hnin & -> & ->)|(Hin & -> & Hs & l1 & l2 & E1 & E2)].
  - split; [apply Hnot; assumption|]. split; [reflexivity|].
    intros Ht. apply (search_spec compare Hord t k Hb) in Ht. contradiction.
  - assert (Hnd : NoDup (l1 ++ k :: l2)).
    { rewrite <- E1. apply (sorted_NoDup compare Hord).
      apply (bst_sorted compare Hord). exact Hb. }
    split.
    { apply Hnot; [|exact Hb']. rewrite E2.
      apply NoDup_remove_2. exact Hnd. }
    split.
    { apply (search_after t t' (fun j => j <> k) Hb Hb').
      intros j Hj. rewrite E1, E2, !in_app_iff. simpl.
      split; [intros [?|?] | intros [?|[?|?]]]; auto; congruence. }
    intros _. exists l1, l2. rewrite !inorderTraversal_spec.
    split; assumption.
Qed.

Lemma findMinNode_head (t : AvlNode T) :
  dataOf (findMinNode t) = hd_error (inorder t).
Proof.
  induction t as [|d l IHl r _ h]; [reflexivity|].
  cbn [findMinNode inorder].
  destruct l as [|ld ll lr lh]; [reflexivity|].
  rewrite IHl.
  destruct (findMinNode_spec ld ll lr lh) as (sd & rest & _ & E).
  rewrite E. reflexivity.
Qed.

Lemma findMaxNode_last (t : AvlNode T) :
  dataOf (findMaxNode t) = hd_error (rev (inorder t)).
Proof.
  induction t as [|d l _ r IHr h]; [reflexivity|].
  cbn [findMaxNode inorder]. rewrite rev_app_distr. cbn [rev].
  destruct r as [|rd rl rr rh]; [reflexivity|].
  rewrite IHr. rewrite <- app_assoc.
  destruct (rev (inorder (Node rd rl rr rh))) as [|a rest] eqn:E; [|reflexivity].
  exfalso. apply (f_equal (@length T)) in E. rewrite length_rev in E.
  cbn [inorder] in E. rewrite length_app in E. simpl in E. lia.
Qed.

(** [findMin()] and [findMax()] return the first and the last key of
    [inorderTraversal()], null exactly on the empty tree; on a valid tree
    no stored key compares below the minimum or above the maximum. *)
Lemma findMin_findMax_ends (t : AvlBinarySearchTree T) :
  findMin t = hd_error (inorderTraversal t) /\
  findMax t = hd_error (rev (inorderTraversal t)) /\
  (findMin t = None <-> root t = Null) /\
  (findMax t = None <-> root t = Null) /\
  (valid compare t ->
   forall k, search compare t k = true ->
   (forall m, findMin t = Some m -> compare m k <= 0) /\
   (forall m, findMax t = Some m -> compare k m <= 0)).
Proof.
  unfold findMin, findMax. rewrite inorderTraversal_spec.
  rewrite findMinNode_head, findMaxNode_last.
  assert (Hnil : inorder (root t) = [] <-> root t = Null).
  { split; [apply inorder_nil | intros ->; reflexivity]. }
  split; [reflexivity|]. split; [reflexivity|].
  split; [|split].
  - rewrite <- Hnil. destruct (inorder (root t)); simpl; split;
      congruence.
  - rewrite <- Hnil. destruct (inorder (root t)) as [|a l] eqn:E; simpl;
      [tauto|].
    split; [|discriminate]. intros H. exfalso.
    destruct (rev l ++ [a]) eqn:E'; [|discriminate].
    apply (f_equal (@length T)) in E'. rewrite length_app in E'.
    simpl in E'. lia.
  - intros (Hb & _ & _) k Hk.
    apply (search_spec compare Hord t k Hb) in Hk.
    apply (bst_sorted compare Hord) in Hb.
    assert (Heq : compare k k = 0) by (apply (compare_eq compare Hord); reflexivity).
    split; intros m Hm.
    + destruct (inorder (root t)) as [|a l]; [discriminate|].
      simpl in Hm. inversion Hm; subst a.
      inversion Hb as [|? ? _ Hf]; subst. rewrite Forall_forall in Hf.
      destruct Hk as [->|Hk]; [lia|].
      specialize (Hf k Hk). unfold lt in Hf. lia.
    + revert Hb Hk Hm. rewrite <- (rev_involutive (inorder (root t))).
      destruct (rev (inorder (root t))) as [|a l]; [discriminate|].
      rewrite rev_involutive. simpl. intros Hb Hk Hm.
      inversion Hm; subst a.
      apply (sorted_app_inv compare) in Hb.
      destruct Hb as (_ & _ & Hf & _). rewrite Forall_forall in Hf.
      apply in_app_or in Hk. destruct Hk as [Hk|[->|[]]]; [|lia].
      specialize (Hf k Hk). unfold lt in Hf. lia.
Qed.

Lemma kthSmallest_nth (t : AvlBinarySearchTree T) (k : Z) :
  size t = Z.of_nat (length (inorder (root t))) ->
  1 <= k <= size t ->
  kthSmallest t k = nth_error (inorder (root t)) (Z.to_nat (k - 1)).
Proof.
  intros Hs Hk. unfold kthSmallest.
  destruct (Z.leb_spec k 0) as [|_]; [lia|].
  destruct (Z.gtb_spec k (size t)) as [|_]; [lia|]. simpl.
  destruct (kthSmallestHelper_spec (root t) k 0)
    as [(_ & Hv & _)|(Hn & _)]; cbn zeta in *; [|lia].
  rewrite Hv. f_equal. lia.
Qed.

Lemma nth_error_last (l : list T) :
  nth_error l (length l - 1) = hd_error (rev l).
Proof.
  rewrite <- (rev_involutive l) at 1 2.
  destruct (rev l) as [|a r]; [reflexivity|].
  simpl. rewrite length_app. simpl.
  replace (length (rev r) + 1 - 1)%nat with (length (rev r)) by lia.
  rewrite nth_error_middle. reflexivity.
Qed.

(** On a valid tree the rank queries meet the extremes:
    [kthSmallest(1)] is [findMin()] and [kthSmallest(count())] is
    [findMax()], all of them null on the empty tree. *)
Lemma kthSmallest_ends (t : AvlBinarySearchTree T) :
  valid compare t ->
  kthSmallest t 1 = findMin t /\
  kthSmallest t (count_ t) = findMax t.
Proof.
  intros (_ & _ & Hs). unfold count_, findMin, findMax.
  rewrite findMinNode_head, findMaxNode_last.
  destruct (inorder (root t)) as [|a l] eqn:E.
  - simpl in Hs. unfold kthSmallest. rewrite Hs. split; reflexivity.
  - split.
    + rewrite kthSmallest_nth by (rewrite ?E; simpl in *; lia).
      rewrite E. reflexivity.
    + rewrite kthSmallest_nth by (rewrite ?E; simpl in *; lia).
      rewrite E, Hs. rewrite <- nth_error_last. f_equal. simpl. lia.
Qed.

(** X3. [findMin()] and [findMax()] return the first and the last key of
    [inorderTraversal()], null exactly on the empty tree. On a valid tree
    they are what the rank queries [kthSmallest(1)] and
    [kthSmallest(count())] return, and no stored key compares below the
    minimum or above the maximum. *)
Theorem findMin_findMax_spec (t : AvlBinarySearchTree T) :
  findMin t = hd_error (inorderTraversal t) /\
  findMax t = hd_error (rev (inorderTraversal t)) /\
  (findMin t = None <-> root t = Null) /\
  (findMax t = None <-> root t = Null) /\
  (valid compare t ->
   kthSmallest t 1 = findMin t /\
   kthSmallest t (count_ t) = findMax t /\
   forall k, search compare t k = true ->
     (forall m, findMin t = Some m -> compare m k <= 0) /\
     (forall m, findMax t = Some m -> compare k m <= 0)).
Proof.
  destruct (findMin_findMax_ends t) as (H1 & H2 & H3 & H4 & H5).
  split; [exact H1|]. split; [exact H2|]. split; [exact H3|].
  split; [exact H4|]. intros Hv.
  destruct (kthSmallest_ends t Hv) as [K1 K2].
  split; [exact K1|]. split; [exact K2 | exact (H5 Hv)].
Qed.
End Lookups.

(** ** Traversals *)

Section Traversals.
Context {T : Type}.

Lemma preorderHelper_spec (t : AvlNode T) (acc : list T) :
  AvlRest.preorderHelper t acc = acc ++ AvlRest.preorder t.
Proof.
  revert acc. induction t as [|d l IHl r IHr h]; intros acc; simpl.
  - rewrite app_nil_r. reflexivity.
  - rewrite IHr, IHl. rewrite <- !app_assoc. reflexivity.
Qed.

Lemma postorderHelper_spec (t : AvlNode T) (acc : list T) :
  AvlRest.postorderHelper t acc = acc ++ AvlRest.postorder t.
Proof.
  revert acc. induction t as [|d l IHl r IHr h]; intros acc; simpl.
  - rewrite app_nil_r. reflexivity.
  - rewrite IHr, IHl. rewrite <- !app_assoc. reflexivity.
Qed.

Lemma preorder_perm (t : AvlNode T) :
  Permutation (AvlRest.preorder t) (inorder t).
Proof.
  induction t as [|d l IHl r IHr h]; simpl; [constructor|].
  apply Permutation_cons_app. apply Permutation_app; assumption.
Qed.

Lemma postorder_perm (t : AvlNode T) :
  Permutation (AvlRest.postorder t) (inorder t).
Proof.
  induction t as [|d l IHl r IHr h]; simpl; [constructor|].
  apply Permutation_app; [assumption|].
  eapply Permutation_trans; [apply Permutation_app_comm|].
  simpl. apply perm_skip. exact IHr.
Qed.

(** X4. [preorderTraversal()] and [postorderTraversal()] list the keys of
    [inorderTraversal()], each as often as it occurs there, in another
    order: the root key comes first in preorder and last in postorder. *)
Theorem preorder_postorder_spec (t : AvlBinarySearchTree T) :
  Permutation (AvlRest.preorderTraversal t) (inorderTraversal t) /\
  Permutation (AvlRest.postorderTraversal t) (inorderTraversal t) /\
  hd_error (AvlRest.preorderTraversal t) = dataOf (root t) /\
  hd_error (rev (AvlRest.postorderTraversal t)) = dataOf (root t).
Proof.
  unfold AvlRest.preorderTraversal, AvlRest.postorderTraversal.
  rewrite preorderHelper_spec, postorderHelper_spec, inorderTraversal_spec.
  simpl. split; [apply preorder_perm|]. split; [apply postorder_perm|].
  destruct (root t) as [|d l r h]; simpl; [split; reflexivity|].
  split; [reflexivity|].
  rewrite !rev_app_distr. reflexivity.
Qed.

Lemma queueKeys_app (q1 q2 : list (AvlNode T)) :
  AvlRest.queueKeys (q1 ++ q2) = AvlRest.queueKeys q1 ++ AvlRest.queueKeys q2.
Proof.
  unfold AvlRest.queueKeys. rewrite map_app, concat_app. reflexivity.
Qed.

Lemma queueKeys_push (q : list (AvlNode T)) (c : AvlNode T) :
  AvlRest.queueKeys (if isNull c then q else q ++ [c]) =
  AvlRest.queueKeys q ++ inorder c.
Proof.
  destruct c as [|d l r h]; simpl.
  - rewrite app_nil_r. reflexivity.
  - rewrite queueKeys_app. unfold AvlRest.queueKeys at 2. simpl.
    rewrite app_nil_r. reflexivity.
Qed.

Lemma Forall_push (q : list (AvlNode T)) (c : AvlNode T) :
  Forall (fun n => n <> Null) q ->
  Forall (fun n => n <> Null) (if isNull c then q else q ++ [c]).
Proof.
  intros Hq. destruct c as [|d l r h]; simpl; [exact Hq|].
  apply Forall_app. split; [exact Hq|].
  constructor; [discriminate | constructor].
Qed.

(** With one unit of fuel per key held in the queue, the loop ends
    normally, having appended those keys. *)
Lemma levelOrderLoop_spec (fuel : nat) :
  forall (queue : list (AvlNode T)) (result : list T),
  Forall (fun n => n <> Null) queue ->
  (length (AvlRest.queueKeys queue) <= fuel)%nat ->
  exists visited,
    AvlRest.levelOrderLoop fuel queue result = AvlRest.Done (result ++ visited) /\
    Permutation visited (AvlRest.queueKeys queue) /\
    hd_error visited = match queue with
                       | [] => None
                       | node :: _ => dataOf node
                       end.
Proof.
  induction fuel as [|fuel IH]; intros queue result Hq Hf.
  - destruct queue as [|node queue].
    + exists []. rewrite app_nil_r. repeat split. constructor.
    + exfalso. inversion Hq as [|? ? Hn _]; subst.
      destruct node as [|d l r h]; [contradiction|].
      unfold AvlRest.queueKeys in Hf. simpl in Hf.
      rewrite !length_app in Hf. simpl in Hf. lia.
  - destruct queue as [|node queue].
    + exists []. rewrite app_nil_r. repeat split. constructor.
    + inversion Hq as [|? ? Hn Hq']; subst.
      destruct node as [|d l r h]; [contradiction|].
      cbn [AvlRest.levelOrderLoop].
      set (q1 := if isNull l then queue else queue ++ [l]).
      set (q2 := if isNull r then q1 else q1 ++ [r]).
      assert (Hk : AvlRest.queueKeys q2 =
                   AvlRest.queueKeys queue ++ inorder l ++ inorder r).
      { unfold q2, q1. rewrite !queueKeys_push, <- app_assoc. reflexivity. }
      assert (Hk0 : AvlRest.queueKeys (Node d l r h :: queue) =
                    (inorder l ++ d :: inorder r) ++ AvlRest.queueKeys queue)
        by reflexivity.
      destruct (IH q2 (result ++ [d])) as (visited & E & Hp & _).
      { unfold q2, q1. apply Forall_push, Forall_push. exact Hq'. }
      { rewrite Hk. rewrite Hk0 in Hf.
        rewrite !length_app in *. simpl in Hf. lia. }
      exists (d :: visited). rewrite E, <- app_assoc.
      split; [reflexivity|]. split; [|reflexivity].
      rewrite Hk0, <- app_assoc. simpl.
      apply Permutation_cons_app.
      rewrite Hp, Hk.
      rewrite (Permutation_app_comm (AvlRest.queueKeys queue)).
      rewrite <- app_assoc. reflexivity.
Qed.

(** X5. [levelOrderTraversal()] never throws and its loop ends after one
    iteration per stored key: with that much fuel or more it returns the
    keys of [inorderTraversal()], each once per occurrence, the root key
    first. *)
Theorem levelOrderTraversal_spec (t : AvlBinarySearchTree T) (fuel : nat) :
  (length (inorderTraversal t) <= fuel)%nat ->
  exists keys,
    AvlRest.levelOrderTraversal fuel t = AvlRest.Done keys /\
    Permutation keys (inorderTraversal t) /\
    hd_error keys = dataOf (root t).
Proof.
  rewrite inorderTraversal_spec. intros Hf.
  unfold AvlRest.levelOrderTraversal.
  destruct (root t) as [|d l r h] eqn:E.
  - exists []. repeat split. constructor.
  - cbn [isNull].
    destruct (levelOrderLoop_spec fuel [Node d l r h] [])
      as (visited & Ev & Hp & Hh).
    + constructor; [discriminate | constructor].
    + unfold AvlRest.queueKeys. cbn [map concat]. rewrite app_nil_r. exact Hf.
    + exists visited. split; [exact Ev|]. split; [|exact Hh].
      unfold AvlRest.queueKeys in Hp. cbn [map concat] in Hp.
      rewrite app_nil_r in Hp. exact Hp.
Qed.

Lemma collectBalanceFactors_spec (t : AvlNode T) (acc : list (T * Z)) :
  exists entries,
    AvlRest.collectBalanceFactors t acc = acc ++ entries /\
    map fst entries = AvlRest.preorder t /\
    (avl t -> Forall (fun e => -1 <= snd e <= 1) entries).
Proof.
  revert acc. induction t as [|d l IHl r IHr h]; intros acc.
  - exists []. simpl. rewrite app_nil_r. repeat split. constructor.
  - cbn [AvlRest.collectBalanceFactors]. cbn zeta.
    destruct (IHl (acc ++ [(d, getHeight l - getHeight r)]))
      as (el & El & Ml & Fl).
    rewrite El.
    destruct (IHr ((acc ++ [(d, getHeight l - getHeight r)]) ++ el))
      as (er & Er & Mr & Fr).
    rewrite Er.
    exists ((d, getHeight l - getHeight r) :: el ++ er).
    split; [rewrite <- !app_assoc; reflexivity|].
    split; [simpl; rewrite map_app, Ml, Mr; reflexivity|].
    intros (Hl & Hr & _ & Hb).
    constructor; [exact Hb|]. apply Forall_app. split; auto.
Qed.

(** X6. [getBalanceFactors()] reports one entry per node, in the order of
    [preorderTraversal()]; on a tree that [isValidAVL()] accepts every
    reported balance is -1, 0 or 1. *)
Theorem getBalanceFactors_spec (t : AvlBinarySearchTree T) :
  map fst (AvlRest.getBalanceFactors t) = AvlRest.preorderTraversal t /\
  (isValidAVL t = true ->
   Forall (fun e => -1 <= snd e <= 1) (AvlRest.getBalanceFactors t)).
Proof.
  unfold AvlRest.getBalanceFactors, AvlRest.preorderTraversal, isValidAVL.
  rewrite preorderHelper_spec.
  destruct (collectBalanceFactors_spec (root t) []) as (e & E & M & F).
  rewrite E. simpl. split; [exact M|].
  intros Hv. apply F. apply validateAVL_spec. exact Hv.
Qed.
End Traversals.

(** ** Validators, heights and rotations *)

Section Shape.
Context {T : Type}.

Lemma heightsCached_real (t : AvlNode T) :
  AvlRest.heightsCached t -> getHeight t = realHeight t.
Proof.
  destruct t as [|d l r h]; simpl; [reflexivity|].
  intros (_ & _ & Hh). exact Hh.
Qed.

Lemma avl_cached_balanced (t : AvlNode T) :
  avl t <-> AvlRest.heightsCached t /\ AvlRest.heightBalanced t.
Proof.
  induction t as [|d l IHl r IHr h]; simpl; [tauto|].
  split.
  - intros (Hl & Hr & Hh & Hb).
    rewrite <- (avl_realHeight l Hl), <- (avl_realHeight r Hr).
    apply IHl in Hl. apply IHr in Hr. tauto.
  - intros ((Hcl & Hcr & Hh) & (Hbl & Hbr & Hb)).
    rewrite (heightsCached_real l Hcl), (heightsCached_real r Hcr).
    split; [apply IHl; tauto|]. split; [apply IHr; tauto|]. tauto.
Qed.

(** X7. [isValidAVL()] is an exact check: it returns true exactly when every
    cached height is the real height of its subtree and, at every node, the
    real heights of the two subtrees differ by at most one. *)
Theorem isValidAVL_exact (t : AvlBinarySearchTree T) :
  isValidAVL t = true <->
  AvlRest.heightsCached (root t) /\ AvlRest.heightBalanced (root t).
Proof.
  unfold isValidAVL. rewrite validateAVL_spec. apply avl_cached_balanced.
Qed.

Lemma realHeight_lower (t : AvlNode T) : -1 <= realHeight t.
Proof.
  induction t as [|d l IHl r IHr h]; simpl; lia.
Qed.

Lemma size_le_pow (t : AvlNode T) :
  Z.of_nat (length (inorder t)) <= 2 ^ (realHeight t + 1) - 1.
Proof.
  induction t as [|d l IHl r IHr h]; [vm_compute; discriminate|].
  cbn [inorder realHeight]. rewrite length_app. cbn [length].
  pose proof (realHeight_lower l) as Hl. pose proof (realHeight_lower r) as Hr.
  set (m := Z.max (realHeight l) (realHeight r)).
  assert (H1 : 2 ^ (realHeight l + 1) <= 2 ^ (m + 1))
    by (apply Z.pow_le_mono_r; lia).
  assert (H2 : 2 ^ (realHeight r + 1) <= 2 ^ (m + 1))
    by (apply Z.pow_le_mono_r; lia).
  replace (1 + m + 1) with (Z.succ (m + 1)) by lia.
  rewrite Z.pow_succ_r by lia.
  set (a := 2 ^ (realHeight l + 1)) in *. set (b := 2 ^ (realHeight r + 1)) in *.
  set (c := 2 ^ (m + 1)) in *. clearbody a b c. lia.
Qed.

(** X8. On a tree that [isValidAVL()] accepts, [height()] (an O(1) read of the
    root's cache) is the real height of the tree, -1 when empty, and the
    tree holds at most [2 ^ (height() + 1) - 1] keys. *)
Theorem height_is_real (t : AvlBinarySearchTree T) :
  isValidAVL t = true ->
  height t = realHeight (root t) /\
  -1 <= height t /\
  (root t = Null -> height t = -1) /\
  Z.of_nat (length (inorderTraversal t)) <= 2 ^ (height t + 1) - 1.
Proof.
  unfold isValidAVL, height. rewrite validateAVL_spec, inorderTraversal_spec.
  intros Ha. rewrite (avl_realHeight (root t) Ha).
  split; [reflexivity|]. split; [apply realHeight_lower|].
  split; [intros ->; reflexivity | apply size_le_pow].
Qed.

(** A right rotation fails exactly when the node or its left child is
    missing; otherwise it keeps the in-order key sequence, and the left
    rotation of its result gives the node back with its cached height and
    that of its left child recomputed, hence the node itself when all cached
    heights were correct. *)
Lemma rotateRight_undone (y : AvlNode T) :
  (rotateRight y = None <->
   y = Null \/ exists d r h, y = Node d Null r h) /\
  (forall x, rotateRight y = Some x ->
     inorder x = inorder y /\
     exists y',
       rotateLeft x = Some y' /\
       inorder y' = inorder y /\
       (AvlRest.heightsCached y -> y' = y)).
Proof.
  destruct y as [|yd [|xd A B xh] C yh]; simpl.
  - split; [split; auto | discriminate].
  - split; [split; [intros _; right; eauto | reflexivity] | discriminate].
  - split.
    + split; [discriminate|].
      intros [H|(d & r & h & H)]; discriminate.
    + intros x Hx. inversion Hx; subst x. simpl.
      split; [rewrite <- app_assoc; reflexivity|].
      eexists. split; [reflexivity|]. split; [reflexivity|].
      intros ((HA & HB & Hxh) & HC & Hyh).
      cbn [realHeight] in Hyh.
      assert (EA : getHeight A = realHeight A) by (apply heightsCached_real; exact HA).
      assert (EB : getHeight B = realHeight B) by (apply heightsCached_real; exact HB).
      assert (EC : getHeight C = realHeight C) by (apply heightsCached_real; exact HC).
      rewrite EA, EB, EC. rewrite <- Hxh. rewrite <- Hxh in Hyh.
      rewrite <- Hyh. reflexivity.
Qed.

(** The mirror image: a left rotation fails exactly when the node or its
    right child is missing, keeps the in-order key sequence, and is undone
    by the right rotation of its result. *)
Lemma rotateLeft_undone (x : AvlNode T) :
  (rotateLeft x = None <->
   x = Null \/ exists d l h, x = Node d l Null h) /\
  (forall y, rotateLeft x = Some y ->
     inorder y = inorder x /\
     exists x',
       rotateRight y = Some x' /\
       inorder x' = inorder x /\
       (AvlRest.heightsCached x -> x' = x)).
Proof.
  destruct x as [|xd A [|yd B C yh] xh]; simpl.
  - split; [split; auto | discriminate].
  - split; [split; [intros _; right; eauto | reflexivity] | discriminate].
  - split.
    + split; [discriminate|].
      intros [H|(d & l & h & H)]; discriminate.
    + intros y Hy. inversion Hy; subst y. simpl.
      split; [rewrite <- app_assoc; reflexivity|].
      eexists. split; [reflexivity|]. split; [reflexivity|].
      intros (HA & (HB & HC & Hyh) & Hxh).
      cbn [realHeight] in Hxh.
      assert (EA : getHeight A = realHeight A) by (apply heightsCached_real; exact HA).
      assert (EB : getHeight B = realHeight B) by (apply heightsCached_real; exact HB).
      assert (EC : getHeight C = realHeight C) by (apply heightsCached_real; exact HC).
      rewrite EA, EB, EC. rewrite <- Hyh. rewrite <- Hyh in Hxh.
      rewrite <- Hxh. reflexivity.
Qed.

End Shape.

Section OrderedExtras.
Context {T : Type}.
Variable compare : T -> T -> Z.
Hypothesis Hord : StrictTotalOrder compare.

(** X10. [isValidBST()] is an exact check: for a strict total order it returns
    true exactly when [inorderTraversal()] is strictly ascending. *)
Theorem isValidBST_exact (t : AvlBinarySearchTree T) :
  isValidBST compare t = true <->
  StronglySorted (lt compare) (inorderTraversal t).
Proof.
  rewrite (isValidBST_spec compare Hord), inorderTraversal_spec.
  apply (bst_sorted compare Hord).
Qed.

Lemma findLCA_sym (t : AvlNode T) (a b : T) :
  findLCA compare t a b = findLCA compare t b a.
Proof.
  induction t as [|d l IHl r IHr h]; simpl; [reflexivity|].
  rewrite (andb_comm (compare a d <? 0)), (andb_comm (compare a d >? 0)).
  rewrite IHl, IHr. reflexivity.
Qed.

(** X11. [lowestCommonAncestor] does not depend on the order of its two
    arguments, in any state of the tree; on a valid tree a stored key is its
    own lowest common ancestor. *)
Theorem lowestCommonAncestor_sym (t : AvlBinarySearchTree T) (a b : T) :
  lowestCommonAncestor compare t a b = lowestCommonAncestor compare t b a /\
  (valid compare t -> search compare t a = true ->
   lowestCommonAncestor compare t a a = Some a).
Proof.
  unfold lowestCommonAncestor. split; [rewrite findLCA_sym; reflexivity|].
  intros (Hb & _ & _) Hs.
  apply (search_spec compare Hord t a Hb) in Hs.
  pose proof (findLCA_complete compare Hord (root t) a a Hb a Hs
                (between_left compare Hord a a)) as Hne.
  destruct (findLCA compare (root t) a a) as [|d l r h] eqn:E; [contradiction|].
  destruct (findLCA_sound compare (root t) a a d) as [_ [H1 H2]];
    [rewrite E; reflexivity|].
  simpl. f_equal. symmetry. apply (compare_eq compare Hord). lia.
Qed.

Lemma deleteAll_empties (keys : list T) :
  forall t, valid compare t ->
  (forall k, In k (inorder (root t)) -> In k keys) ->
  exists t',
    applyOps compare t (map OpDelete keys) = Some t' /\
    valid compare t' /\ inorder (root t') = [].
Proof.
  induction keys as [|x keys IH]; intros t Hv Hall.
  - exists t. split; [reflexivity|]. split; [exact Hv|].
    destruct (inorder (root t)) as [|a l]; [reflexivity|].
    exfalso. apply (Hall a). left; reflexivity.
  - cbn [map applyOps applyOp].
    pose proof Hv as (Hb & _ & _).
    destruct (delete_spec compare Hord t x Hv) as (t1 & b & E & Hv1 & _ & Hcase).
    rewrite E. apply IH; [exact Hv1|].
    intros k Hk.
    destruct Hcase as [(Hnin & -> & _)|(_ & _ & _ & l1 & l2 & E1 & E2)].
    + destruct (Hall k Hk) as [->|]; [contradiction | assumption].
    + assert (Hnd : NoDup (l1 ++ x :: l2)).
      { rewrite <- E1. apply (sorted_NoDup compare Hord).
        apply (bst_sorted compare Hord). exact Hb. }
      assert (Hk' : In k (inorder (root t))).
      { rewrite E1. rewrite E2 in Hk. apply in_app_or in Hk.
        apply in_or_app. destruct Hk; [left | right; right]; assumption. }
      destruct (Hall k Hk') as [->|]; [|assumption].
      exfalso. apply (NoDup_remove_2 _ _ _ Hnd). rewrite <- E2. exact Hk.
Qed.

(** X12. Deleting every stored key, in any order and possibly among other keys,
    empties a valid tree: no call throws, and afterwards [isEmpty()] is true,
    [count()] is 0 and [height()] is -1. *)
Theorem delete_all_keys (t : AvlBinarySearchTree T) (keys : list T) :
  valid compare t ->
  (forall k, In k (inorderTraversal t) -> In k keys) ->
  exists t',
    applyOps compare t (map OpDelete keys) = Some t' /\
    AvlRest.isEmpty t' = true /\ count_ t' = 0 /\ height t' = -1 /\
    inorderTraversal t' = [].
Proof.
  intros Hv Hall.
  destruct (deleteAll_empties keys t Hv) as (t' & E & (_ & _ & Hs) & Hnil).
  { intros k Hk. apply Hall. rewrite inorderTraversal_spec. exact Hk. }
  exists t'. split; [exact E|].
  unfold AvlRest.isEmpty, count_, height. rewrite inorderTraversal_spec.
  rewrite Hs, Hnil. rewrite (inorder_nil (root t') Hnil).
  repeat split.
Qed.

(** On a valid tree [isEmpty()], which looks at the root, and [count()],
    which reads the counter, agree: the tree is empty exactly when the count
    is 0; [clear()] gives such a state from any state. *)
Lemma isEmpty_iff_count_zero (t : AvlBinarySearchTree T) :
  (valid compare t ->
   (AvlRest.isEmpty t = true <-> count_ t = 0) /\
   (AvlRest.isEmpty t = true <-> inorderTraversal t = [])) /\
  valid compare (AvlRest.clear t) /\
  AvlRest.isEmpty (AvlRest.clear t) = true /\
  count_ (AvlRest.clear t) = 0.
Proof.
  split; [|split; [apply valid_empty | split; reflexivity]].
  intros (_ & _ & Hs). unfold AvlRest.isEmpty, count_.
  rewrite inorderTraversal_spec, Hs.
  destruct (root t) as [|d l r h]; simpl.
  - split; split; reflexivity.
  - split; split; try discriminate.
    + rewrite length_app. simpl. lia.
    + intros H. destruct (inorder l); discriminate.
Qed.
End OrderedExtras.

(** ** The plain binary search tree *)

Section PlainBstProofs.
Context {T : Type}.
Variable compare : T -> T -> Z.
Hypothesis Hord : StrictTotalOrder compare.

#[local] Abbreviation E := PlainBst.embed.

Lemma plain_inorderHelper_embed (t : Bst.TreeNode T) (acc : list T) :
  PlainBst.inorderHelper t acc = acc ++ inorder (E t).
Proof.
  revert acc. induction t as [|d l IHl r IHr]; intros acc; simpl.
  - rewrite app_nil_r. reflexivity.
  - rewrite IHr, IHl. rewrite <- !app_assoc. reflexivity.
Qed.

Lemma plain_inorderTraversal_embed (t : Bst.BinarySearchTree T) :
  PlainBst.inorderTraversal t = inorder (E (Bst.root t)).
Proof. apply plain_inorderHelper_embed. Qed.

Lemma plain_validateBST_embed (t : Bst.TreeNode T) :
  forall min max,
  PlainBst.validateBST compare t min max = validateBST compare (E t) min max.
Proof.
  induction t as [|d l IHl r IHr]; intros min max; simpl; [reflexivity|].
  rewrite IHl, IHr. reflexivity.
Qed.

Lemma plain_isValidBST_embed (t : Bst.BinarySearchTree T) :
  PlainBst.isValidBST compare t = true <-> bst compare (E (Bst.root t)).
Proof.
  unfold PlainBst.isValidBST. rewrite plain_validateBST_embed.
  apply (isValidBST_spec compare Hord (mkTree (E (Bst.root t)) 0)).
Qed.

Lemma plain_search_embed (t : Bst.BinarySearchTree T) (x : T) :
  PlainBst.search compare t x =
  search compare (mkTree (E (Bst.root t)) 0) x.
Proof.
  unfold PlainBst.search, search. simpl.
  induction (Bst.root t) as [|d l IHl r IHr]; simpl; [reflexivity|].
  destruct (compare x d =? 0); [reflexivity|].
  destruct (compare x d <? 0); assumption.
Qed.

Lemma plain_search_spec (t : Bst.BinarySearchTree T) (x : T) :
  bst compare (E (Bst.root t)) ->
  (PlainBst.search compare t x = true <-> In x (inorder (E (Bst.root t)))).
Proof.
  intros Hb. rewrite plain_search_embed.
  apply (search_spec compare Hord (mkTree (E (Bst.root t)) 0) x Hb).
Qed.

Lemma plain_insertNode_spec (t : Bst.TreeNode T) (x : T) :
  bst compare (E t) ->
  bst compare (E (PlainBst.insertNode compare t x)) /\
  ((In x (inorder (E t)) /\ PlainBst.insertNode compare t x = t) \/
   (~ In x (inorder (E t)) /\
    exists l1 l2,
      inorder (E t) = l1 ++ l2 /\
      inorder (E (PlainBst.insertNode compare t x)) = l1 ++ x :: l2)).
Proof.
  induction t as [|d l IHl r IHr]; intros Hb.
  - simpl. split; [repeat split; constructor|].
    right. split; [tauto|]. exists [], []. split; reflexivity.
  - simpl in Hb. destruct Hb as (Hbl & Hbr & Hld & Hdr).
    cbn [PlainBst.insertNode]. cbn zeta.
    destruct (Z.ltb_spec (compare x d) 0) as [Hlt|Hge].
    + destruct (IHl Hbl) as (Hbl' & Hcase). cbn [PlainBst.embed bst inorder].
      destruct Hcase as [(Hin & El)|(Hnin & l1 & l2 & E1 & E2)].
      * rewrite El. split; [tauto|]. left. split; [|reflexivity].
        apply in_or_app. left; exact Hin.
      * split.
        { split; [exact Hbl'|]. split; [exact Hbr|]. split; [|exact Hdr].
          rewrite E2. rewrite E1 in Hld. apply Forall_app in Hld.
          apply Forall_app. destruct Hld. split; [assumption|].
          constructor; assumption. }
        right. split.
        { intros Hin. apply in_app_or in Hin. destruct Hin as [Hin|[Hin|Hin]].
          - contradiction.
          - subst d. exact (lt_irrefl compare Hord _ Hlt).
          - exact (lt_not_In_right compare Hord _ _ _ Hlt Hdr Hin). }
        exists l1, (l2 ++ d :: inorder (E r)).
        rewrite E1, E2, <- !app_assoc. split; reflexivity.
    + destruct (Z.gtb_spec (compare x d) 0) as [Hgt|Hle].
      * apply (gt_lt compare Hord) in Hgt.
        destruct (IHr Hbr) as (Hbr' & Hcase). cbn [PlainBst.embed bst inorder].
        destruct Hcase as [(Hin & Er)|(Hnin & l1 & l2 & E1 & E2)].
        -- rewrite Er. split; [tauto|]. left. split; [|reflexivity].
           apply in_or_app. right; right; exact Hin.
        -- split.
           { split; [exact Hbl|]. split; [exact Hbr'|]. split; [exact Hld|].
             rewrite E2. rewrite E1 in Hdr. apply Forall_app in Hdr.
             apply Forall_app. destruct Hdr. split; [assumption|].
             constructor; assumption. }
           right. split.
           { intros Hin. apply in_app_or in Hin. destruct Hin as [Hin|[Hin|Hin]].
             - exact (gt_not_In_left compare Hord _ _ _ Hgt Hld Hin).
             - subst d. exact (lt_irrefl compare Hord _ Hgt).
             - contradiction. }
           exists (inorder (E l) ++ d :: l1), l2.
           rewrite E1, E2, <- !app_assoc. split; reflexivity.
      * assert (x = d) as -> by (apply (compare_eq compare Hord); lia).
        split; [simpl; tauto|]. left. split; [|reflexivity].
        simpl. apply in_or_app. right; left; reflexivity.
Qed.

Lemma plain_findMinNode_embed (t : Bst.TreeNode T) :
  PlainBst.dataOf (PlainBst.findMinNode t) = dataOf (findMinNode (E t)).
Proof.
  induction t as [|d l IHl r _]; [reflexivity|].
  cbn [PlainBst.findMinNode PlainBst.embed findMinNode].
  destruct l as [|ld ll lr]; [reflexivity|]. exact IHl.
Qed.

Lemma plain_deleteNode_spec (t : Bst.TreeNode T) :
  forall (x : T) (s : Z),
  bst compare (E t) ->
  exists t' s',
    PlainBst.deleteNode compare t x s = Some (t', s') /\
    bst compare (E t') /\
    ((~ In x (inorder (E t)) /\ t' = t /\ s' = s) \/
     (s' = s - 1 /\
      exists l1 l2,
        inorder (E t) = l1 ++ x :: l2 /\ inorder (E t') = l1 ++ l2)).
Proof.
  induction t as [|d l IHl r IHr]; intros x s Hb.
  - exists Bst.Null, s. simpl. repeat split; auto.
  - pose proof Hb as Hb0. simpl in Hb.
    destruct Hb as (Hbl & Hbr & Hld & Hdr).
    cbn [PlainBst.deleteNode]. cbn zeta.
    destruct (Z.ltb_spec (compare x d) 0) as [Hlt|Hge].
    + destruct (IHl x s Hbl) as (l' & s' & El & Hbl' & Hcase). rewrite El.
      exists (Bst.Node d l' r), s'. split; [reflexivity|].
      destruct Hcase as [(Hnin & -> & ->)|(-> & l1 & l2 & E1 & E2)].
      * split; [exact Hb0|]. left. split; [|split; reflexivity].
        simpl. intros Hin. apply in_app_or in Hin.
        destruct Hin as [Hin|[Hin|Hin]].
        -- contradiction.
        -- subst d. exact (lt_irrefl compare Hord _ Hlt).
        -- exact (lt_not_In_right compare Hord _ _ _ Hlt Hdr Hin).
      * split.
        { cbn [PlainBst.embed bst]. split; [exact Hbl'|]. split; [exact Hbr|].
          split; [|exact Hdr].
          rewrite E2. rewrite E1 in Hld. apply Forall_app in Hld.
          apply Forall_app. destruct Hld as [? Hc]. split; [assumption|].
          inversion Hc; assumption. }
        right. split; [reflexivity|].
        exists l1, (l2 ++ d :: inorder (E r)). simpl.
        rewrite E1, E2, <- !app_assoc. split; reflexivity.
    + destruct (Z.gtb_spec (compare x d) 0) as [Hgt|Hle].
      * apply (gt_lt compare Hord) in Hgt.
        destruct (IHr x s Hbr) as (r' & s' & Er & Hbr' & Hcase). rewrite Er.
        exists (Bst.Node d l r'), s'. split; [reflexivity|].
        destruct Hcase as [(Hnin & -> & ->)|(-> & l1 & l2 & E1 & E2)].
        -- split; [exact Hb0|]. left. split; [|split; reflexivity].
           simpl. intros Hin. apply in_app_or in Hin.
           destruct Hin as [Hin|[Hin|Hin]].
           ++ exact (gt_not_In_left compare Hord _ _ _ Hgt Hld Hin).
           ++ subst d. exact (lt_irrefl compare Hord _ Hgt).
           ++ contradiction.
        -- split.
           { cbn [PlainBst.embed bst]. split; [exact Hbl|]. split; [exact Hbr'|].
             split; [exact Hld|].
             rewrite E2. rewrite E1 in Hdr. apply Forall_app in Hdr.
             apply Forall_app. destruct Hdr as [? Hc]. split; [assumption|].
             inversion Hc; assumption. }
           right. split; [reflexivity|].
           exists (inorder (E l) ++ d :: l1), l2. simpl.
           rewrite E1, E2, <- !app_assoc. split; reflexivity.
      * assert (x = d) as -> by (apply (compare_eq compare Hord); lia).
        destruct l as [|ld ll lr]; destruct r as [|rd rl rr].
        -- exists Bst.Null, (s - 1). split; [reflexivity|].
           split; [exact I|]. right. split; [reflexivity|].
           exists [], []. split; reflexivity.
        -- exists (Bst.Node rd rl rr), (s - 1). split; [reflexivity|].
           split; [exact Hbr|]. right. split; [reflexivity|].
           exists [], (inorder (E (Bst.Node rd rl rr))). split; reflexivity.
        -- exists (Bst.Node ld ll lr), (s - 1). split; [reflexivity|].
           split; [exact Hbl|]. right. split; [reflexivity|].
           exists (inorder (E (Bst.Node ld ll lr))), [].
           split; [reflexivity|]. rewrite app_nil_r. reflexivity.
        -- rewrite plain_findMinNode_embed.
           cbn [PlainBst.embed].
           destruct (findMinNode_spec rd (E rl) (E rr) 0)
             as (sd & rest & Esd & Erest).
           rewrite Esd.
           assert (Hsorted : StronglySorted (lt compare) (sd :: rest)).
           { rewrite <- Erest.
             apply (bst_sorted compare Hord (Node rd (E rl) (E rr) 0)).
             exact Hbr. }
           destruct (IHr sd (s - 1) Hbr) as (r' & s2 & Er & Hbr' & Hcase).
           rewrite Er.
           destruct Hcase as [(Hnin & _ & _)|(-> & l1 & l2 & E1 & E2)].
           { exfalso. apply Hnin. cbn [PlainBst.embed]. rewrite Erest.
             left; reflexivity. }
           cbn [PlainBst.embed] in E1.
           assert (l1 = [] /\ l2 = rest) as [-> ->].
           { rewrite Erest in E1. destruct l1 as [|a l1].
             - simpl in E1. inversion E1. split; reflexivity.
             - exfalso. simpl in E1. inversion E1; subst a.
               apply (sorted_NoDup compare Hord) in Hsorted.
               inversion Hsorted as [|? ? Hni _].
               apply Hni. subst rest. apply in_or_app. right; left; reflexivity. }
           simpl in E2.
           assert (Hdsd : lt compare d sd).
           { rewrite Forall_forall in Hdr. apply Hdr.
             cbn [PlainBst.embed]. rewrite Erest. left; reflexivity. }
           exists (Bst.Node sd (Bst.Node ld ll lr) r'), (s - 1 - 1 + 1).
           split; [reflexivity|]. split.
           { cbn [PlainBst.embed bst]. split; [exact Hbl|]. split; [exact Hbr'|].
             split.
             - eapply Forall_impl; [|exact Hld].
               intros k Hk. exact (lt_trans compare Hord _ _ _ Hk Hdsd).
             - rewrite E2. inversion Hsorted; assumption. }
           right. split; [lia|].
           exists (inorder (E (Bst.Node ld ll lr))), (sd :: rest).
           split.
           ++ cbn [PlainBst.embed inorder]. cbn [PlainBst.embed inorder] in Erest.
              rewrite Erest. reflexivity.
           ++ cbn [PlainBst.embed inorder]. rewrite E2. reflexivity.
Qed.
End PlainBstProofs.

Section PlainBstTheorems.
Context {T : Type}.
Variable compare : T -> T -> Z.
Hypothesis Hord : StrictTotalOrder compare.

#[local] Abbreviation E := PlainBst.embed.

Lemma plain_search_after (t t' : Bst.BinarySearchTree T) (k : T) :
  bst compare (E (Bst.root t)) -> bst compare (E (Bst.root t')) ->
  (forall j, j <> k ->
     (In j (inorder (E (Bst.root t'))) <-> In j (inorder (E (Bst.root t))))) ->
  forall j, j <> k ->
  PlainBst.search compare t' j = PlainBst.search compare t j.
Proof.
  intros Hb Hb' Hmem j Hj. apply eq_true_iff_eq.
  rewrite (plain_search_spec compare Hord t' j Hb').
  rewrite (plain_search_spec compare Hord t j Hb).
  apply Hmem. exact Hj.
Qed.

Lemma plain_search_false (t : Bst.BinarySearchTree T) (k : T) :
  bst compare (E (Bst.root t)) ->
  ~ In k (inorder (E (Bst.root t))) ->
  PlainBst.search compare t k = false.
Proof.
  intros Hb Hn. destruct (PlainBst.search compare t k) eqn:Es; [|reflexivity].
  apply (plain_search_spec compare Hord t k Hb) in Es. contradiction.
Qed.

(** X13. [BinarySearchTree.insert(k)] keeps a tree that [isValidBST()] accepts
    acceptable, makes [search(k)] true and changes the answer of [search]
    for no other key; an absent [k] enters [inorderTraversal()] at some
    position that keeps it sorted, and [count()] grows by one. *)
Theorem plain_insert_then_search (t : Bst.BinarySearchTree T) (k : T) :
  PlainBst.isValidBST compare t = true ->
  PlainBst.isValidBST compare (PlainBst.insert compare t k) = true /\
  PlainBst.search compare (PlainBst.insert compare t k) k = true /\
  (forall j, j <> k ->
     PlainBst.search compare (PlainBst.insert compare t k) j =
     PlainBst.search compare t j) /\
  PlainBst.count (PlainBst.insert compare t k) = PlainBst.count t + 1 /\
  (PlainBst.search compare t k = false ->
   exists l1 l2,
     PlainBst.inorderTraversal t = l1 ++ l2 /\
     PlainBst.inorderTraversal (PlainBst.insert compare t k) = l1 ++ k :: l2).
Proof.
  intros Hv. apply (plain_isValidBST_embed compare Hord) in Hv.
  destruct (plain_insertNode_spec compare Hord (Bst.root t) k Hv)
    as (Hb' & Hcase).
  set (t' := PlainBst.insert compare t k).
  assert (Hb'' : bst compare (E (Bst.root t'))) by exact Hb'.
  split; [apply (plain_isValidBST_embed compare Hord); exact Hb''|].
  rewrite !plain_inorderTraversal_embed.
  destruct Hcase as [(Hin & Eq)|(Hnin & l1 & l2 & E1 & E2)].
  - assert (Er : Bst.root t' = Bst.root t) by exact Eq.
    split; [apply (plain_search_spec compare Hord t' k Hb''); rewrite Er; exact Hin|].
    split.
    { apply (plain_search_after t t' k Hv Hb''). intros j _. rewrite Er. tauto. }
    split; [reflexivity|].
    intros Hf. apply (plain_search_spec compare Hord t k Hv) in Hin. congruence.
  - assert (E2' : inorder (E (Bst.root t')) = l1 ++ k :: l2) by exact E2.
    split.
    { apply (plain_search_spec compare Hord t' k Hb''). rewrite E2'.
      apply in_or_app. right; left; reflexivity. }
    split.
    { apply (plain_search_after t t' k Hv Hb'').
      intros j Hj. rewrite E1, E2', !in_app_iff. simpl.
      split; [intros [?|[?|?]] | intros [?|?]]; auto; congruence. }
    split; [reflexivity|].
    intros _. exists l1, l2. split; assumption.
Qed.

Lemma plain_kthSmallestHelper_embed (t : Bst.TreeNode T) :
  forall k res,
  PlainBst.kthSmallestHelper t k res = kthSmallestHelper (E t) k res.
Proof.
  induction t as [|d l IHl r IHr]; intros k res; simpl; [reflexivity|].
  rewrite IHl, IHr. reflexivity.
Qed.

(** X14. [BinarySearchTree.insert] of a key that is already stored leaves the
    nodes as they are but still increments the counter: from then on
    [count()] exceeds the number of keys in [inorderTraversal()], and
    [kthSmallest(count())] returns null. *)
Theorem plain_duplicate_insert_counts (t : Bst.BinarySearchTree T) (k : T) :
  PlainBst.isValidBST compare t = true ->
  PlainBst.search compare t k = true ->
  Bst.root (PlainBst.insert compare t k) = Bst.root t /\
  PlainBst.inorderTraversal (PlainBst.insert compare t k) =
    PlainBst.inorderTraversal t /\
  PlainBst.count (PlainBst.insert compare t k) = PlainBst.count t + 1 /\
  (PlainBst.count t = Z.of_nat (length (PlainBst.inorderTraversal t)) ->
   PlainBst.kthSmallest (PlainBst.insert compare t k)
     (PlainBst.count (PlainBst.insert compare t k)) = None).
Proof.
  intros Hv Hs. apply (plain_isValidBST_embed compare Hord) in Hv.
  apply (plain_search_spec compare Hord t k Hv) in Hs.
  destruct (plain_insertNode_spec compare Hord (Bst.root t) k Hv)
    as (_ & [(_ & Eq)|(Hnin & _)]); [|contradiction].
  assert (Er : Bst.root (PlainBst.insert compare t k) = Bst.root t) by exact Eq.
  split; [exact Er|].
  unfold PlainBst.inorderTraversal. rewrite Er.
  split; [reflexivity|]. split; [reflexivity|].
  intros Hc. unfold PlainBst.kthSmallest, PlainBst.count in *.
  rewrite Er. cbn [PlainBst.insert Bst.size].
  destruct ((Bst.size t + 1 <=? 0) || (Bst.size t + 1 >? Bst.size t + 1));
    [reflexivity|].
  rewrite plain_kthSmallestHelper_embed.
  rewrite plain_inorderHelper_embed in Hc. simpl in Hc.
  destruct (kthSmallestHelper_spec (E (Bst.root t)) (Bst.size t + 1) 0)
    as [(Hr & _)|(_ & Eres)]; cbn zeta in *; [lia|].
  rewrite Eres. reflexivity.
Qed.

(** X15. [BinarySearchTree.delete(k)] on a tree that [isValidBST()] accepts
    does not throw and keeps it acceptable; it returns true exactly when
    [k] was stored, [count()] then drops by one, [search(k)] is false
    afterwards and the answer of [search] changes for no other key; when it
    returns false the handle is unchanged. *)
Theorem plain_delete_spec (t : Bst.BinarySearchTree T) (k : T) :
  PlainBst.isValidBST compare t = true ->
  exists t' b,
    PlainBst.delete compare t k = Some (t', b) /\
    PlainBst.isValidBST compare t' = true /\
    (b = true <-> PlainBst.search compare t k = true) /\
    PlainBst.search compare t' k = false /\
    (forall j, j <> k ->
       PlainBst.search compare t' j = PlainBst.search compare t j) /\
    (PlainBst.count t' = PlainBst.count t - 1 <-> b = true) /\
    (b = false -> t' = t).
Proof.
  intros Hv. apply (plain_isValidBST_embed compare Hord) in Hv.
  destruct t as [rt sz]. cbn [Bst.root] in Hv.
  destruct (plain_deleteNode_spec compare Hord rt k sz Hv)
    as (rt' & s' & Ed & Hb' & Hcase).
  unfold PlainBst.delete. cbn [Bst.root Bst.size]. rewrite Ed.
  eexists; eexists. split; [reflexivity|].
  split; [apply (plain_isValidBST_embed compare Hord); exact Hb'|].
  rewrite (plain_search_spec compare Hord (Bst.mkTree rt sz) k Hv).
  unfold PlainBst.count. cbn [Bst.root Bst.size].
  destruct Hcase as [(Hnin & -> & ->)|(-> & l1 & l2 & E1 & E2)].
  - rewrite Z.ltb_irrefl.
    split; [split; [discriminate | contradiction]|].
    split; [apply plain_search_false; assumption|].
    split; [reflexivity|]. split; [|reflexivity].
    split; [lia | discriminate].
  - assert (Hlt : (sz - 1 <? sz) = true) by (apply Z.ltb_lt; lia).
    rewrite Hlt.
    assert (Hnd : NoDup (l1 ++ k :: l2)).
    { rewrite <- E1. apply (sorted_NoDup compare Hord).
      apply (bst_sorted compare Hord). exact Hv. }
    split.
    { split; [intros _|reflexivity]. rewrite E1.
      apply in_or_app. right; left; reflexivity. }
    split.
    { apply plain_search_false; [exact Hb'|]. cbn [Bst.root]. rewrite E2.
      apply NoDup_remove_2. exact Hnd. }
    split.
    { apply (plain_search_after (Bst.mkTree rt sz) (Bst.mkTree rt' (sz - 1)) k
               Hv Hb').
      cbn [Bst.root]. intros j Hj. rewrite E1, E2, !in_app_iff. simpl.
      split; [intros [?|?] | intros [?|[?|?]]]; auto; congruence. }
    split; [split; [reflexivity | lia]|discriminate].
Qed.

Lemma plain_getHeight_lower (t : Bst.TreeNode T) : -1 <= PlainBst.getHeight t.
Proof. induction t as [|d l IHl r IHr]; simpl; lia. Qed.

Lemma checkBalance_spec (t : Bst.TreeNode T) :
  (Bst.checkBalance t = -1 /\ ~ PlainBst.heightBalanced t) \/
  (Bst.checkBalance t = PlainBst.getHeight t + 1 /\ PlainBst.heightBalanced t).
Proof.
  induction t as [|d l IHl r IHr]; [right; split; [reflexivity | exact I]|].
  pose proof (plain_getHeight_lower l) as Hl.
  pose proof (plain_getHeight_lower r) as Hr.
  cbn [Bst.checkBalance PlainBst.heightBalanced PlainBst.getHeight]. cbn zeta.
  destruct IHl as [(El & Hnl)|(El & Hbl)].
  - rewrite El. rewrite Z.eqb_refl. left. split; [reflexivity | tauto].
  - destruct (Z.eqb_spec (Bst.checkBalance l) (-1)) as [|_]; [lia|].
    destruct IHr as [(Er & Hnr)|(Er & Hbr)].
    + rewrite Er. rewrite Z.eqb_refl. left. split; [reflexivity | tauto].
    + destruct (Z.eqb_spec (Bst.checkBalance r) (-1)) as [|_]; [lia|].
      rewrite El, Er.
      destruct (Z.gtb_spec
                  (Z.abs (PlainBst.getHeight l + 1 - (PlainBst.getHeight r + 1))) 1)
        as [Hgt|Hle].
      * left. split; [reflexivity|]. intros (_ & _ & Hb). lia.
      * right. split; [lia|]. repeat split; auto; lia.
Qed.

Lemma isBalanced_heightBalanced (t : Bst.BinarySearchTree T) :
  Bst.isBalanced t = true <-> PlainBst.heightBalanced (Bst.root t).
Proof.
  unfold Bst.isBalanced.
  pose proof (plain_getHeight_lower (Bst.root t)) as Hh.
  destruct (checkBalance_spec (Bst.root t)) as [(Ec & Hn)|(Ec & Hb)];
    rewrite Ec.
  - rewrite Z.eqb_refl. simpl. split; [discriminate | contradiction].
  - destruct (Z.eqb_spec (PlainBst.getHeight (Bst.root t) + 1) (-1)) as [|_];
      [lia|].
    simpl. split; [intros _; exact Hb | reflexivity].
Qed.

(** X16. [BinarySearchTree.isBalanced()] is an exact check: it returns true
    exactly when, at every node, the heights of the two subtrees (as
    [getHeight] computes them) differ by at most one; [checkBalance] then
    returns the height of the tree plus one, and -1 otherwise. *)
Theorem plain_isBalanced_exact (t : Bst.BinarySearchTree T) :
  (Bst.isBalanced t = true <-> PlainBst.heightBalanced (Bst.root t)) /\
  (Bst.isBalanced t = true ->
   Bst.checkBalance (Bst.root t) = PlainBst.height t + 1) /\
  (Bst.isBalanced t = false -> Bst.checkBalance (Bst.root t) = -1).
Proof.
  split; [apply isBalanced_heightBalanced|].
  unfold Bst.isBalanced, PlainBst.height.
  pose proof (plain_getHeight_lower (Bst.root t)) as Hh.
  destruct (checkBalance_spec (Bst.root t)) as [(Ec & _)|(Ec & _)];
    rewrite Ec.
  - split; [rewrite Z.eqb_refl; discriminate | reflexivity].
  - split; [reflexivity|].
    destruct (Z.eqb_spec (PlainBst.getHeight (Bst.root t) + 1) (-1)) as [|_];
      [lia | discriminate].
Qed.

Lemma plain_insertAll_spec (keys : list T) :
  forall t : Bst.BinarySearchTree T,
  bst compare (E (Bst.root t)) ->
  bst compare (E (Bst.root (PlainBst.insertAll compare t keys))) /\
  (forall k, In k (inorder (E (Bst.root (PlainBst.insertAll compare t keys))))
             <-> In k keys \/ In k (inorder (E (Bst.root t)))) /\
  Bst.size (PlainBst.insertAll compare t keys) =
    Bst.size t + Z.of_nat (length keys).
Proof.
  unfold PlainBst.insertAll.
  induction keys as [|x keys IH]; intros t Hb; cbn [fold_left].
  - split; [exact Hb|]. split; [intros k; simpl; tauto | simpl; lia].
  - destruct (plain_insertNode_spec compare Hord (Bst.root t) x Hb)
      as (Hb1 & Hcase).
    destruct (IH (PlainBst.insert compare t x) Hb1) as (Hb' & Hin' & Hs').
    split; [exact Hb'|]. split.
    + intros k. rewrite Hin'. cbn [PlainBst.insert Bst.root].
      destruct Hcase as [(Hin & ->)|(_ & l1 & l2 & E1 & E2)].
      * simpl. split; [tauto|]. intros [[->|?]|?]; auto.
      * rewrite E1, E2, !in_app_iff. simpl. tauto.
    + rewrite Hs'. cbn [PlainBst.insert Bst.size length].
      rewrite Nat2Z.inj_succ. lia.
Qed.

(** X17. Fed the same keys in the same order, the plain tree and the AVL tree
    hold the same [inorderTraversal()]; but the plain tree's [count()] is
    the number of [insert] calls, while the AVL tree's is the number of
    keys stored. *)
Theorem plain_and_avl_agree (keys : list T) :
  exists ta,
    insertAll compare empty keys = Some ta /\
    PlainBst.inorderTraversal
      (PlainBst.insertAll compare PlainBst.empty keys) =
    inorderTraversal ta /\
    PlainBst.count (PlainBst.insertAll compare PlainBst.empty keys) =
      Z.of_nat (length keys) /\
    count_ ta = Z.of_nat (length (inorderTraversal ta)).
Proof.
  destruct (insertAll_spec compare Hord keys empty (valid_empty compare))
    as (ta & Ea & (Hba & _ & Hsa) & Hina).
  destruct (plain_insertAll_spec keys PlainBst.empty I) as (Hbp & Hinp & Hsp).
  exists ta. split; [exact Ea|].
  rewrite plain_inorderTraversal_embed, inorderTraversal_spec.
  split.
  - apply (sorted_unique compare Hord).
    + apply (bst_sorted compare Hord). exact Hbp.
    + apply (bst_sorted compare Hord). exact Hba.
    + intros k. rewrite Hinp, Hina. simpl. tauto.
  - split; [unfold PlainBst.count; rewrite Hsp; simpl; lia|].
    exact Hsa.
Qed.

Lemma plain_insert_chain (l : list T) (x : T) :
  Forall (fun k => lt compare k x) l ->
  PlainBst.insertNode compare (PlainBst.chain l) x = PlainBst.chain (l ++ [x]).
Proof.
  induction l as [|d l IH]; intros Hl; [reflexivity|].
  inversion Hl as [|? ? Hd Hl']; subst.
  cbn [PlainBst.chain PlainBst.insertNode app]. cbn zeta.
  apply (compare_flip compare Hord) in Hd.
  destruct (Z.ltb_spec (compare x d) 0) as [|_]; [lia|].
  destruct (Z.gtb_spec (compare x d) 0) as [_|]; [|lia].
  rewrite (IH Hl'). reflexivity.
Qed.

Lemma plain_insertAll_chain (keys : list T) :
  forall (pre : list T) (s : Z),
  StronglySorted (lt compare) (pre ++ keys) ->
  Bst.root (PlainBst.insertAll compare (Bst.mkTree (PlainBst.chain pre) s) keys)
  = PlainBst.chain (pre ++ keys).
Proof.
  unfold PlainBst.insertAll.
  induction keys as [|x keys IH]; intros pre s Hs; cbn [fold_left].
  - rewrite app_nil_r. reflexivity.
  - unfold PlainBst.insert at 2. cbn [Bst.root Bst.size].
    rewrite plain_insert_chain
      by (apply (sorted_app_inv compare) in Hs; tauto).
    rewrite IH by (rewrite <- app_assoc; exact Hs).
    rewrite <- app_assoc. reflexivity.
Qed.

Lemma plain_chain_height (l : list T) :
  PlainBst.getHeight (PlainBst.chain l) = Z.of_nat (length l) - 1.
Proof.
  induction l as [|d l IH]; [reflexivity|].
  cbn [PlainBst.chain PlainBst.getHeight length]. rewrite IH. lia.
Qed.

(** X18. Keys inserted in strictly ascending order make the plain tree a chain
    of right children: its height is the number of keys minus one, and from
    three keys on [isBalanced()] returns false. *)
Theorem plain_ascending_degenerates (keys : list T) :
  StronglySorted (lt compare) keys ->
  Bst.root (PlainBst.insertAll compare PlainBst.empty keys) =
    PlainBst.chain keys /\
  PlainBst.height (PlainBst.insertAll compare PlainBst.empty keys) =
    Z.of_nat (length keys) - 1 /\
  ((3 <= length keys)%nat ->
   Bst.isBalanced (PlainBst.insertAll compare PlainBst.empty keys) = false).
Proof.
  intros Hs.
  pose proof (plain_insertAll_chain keys [] 0 Hs) as Er.
  change (Bst.mkTree (PlainBst.chain []) 0) with (@PlainBst.empty T) in Er.
  simpl app in Er.
  split; [exact Er|].
  unfold PlainBst.height. rewrite Er.
  split; [apply plain_chain_height|].
  intros Hlen.
  destruct (Bst.isBalanced (PlainBst.insertAll compare PlainBst.empty keys))
    eqn:Eb; [|reflexivity].
  apply isBalanced_heightBalanced in Eb. rewrite Er in Eb.
  destruct keys as [|a [|b [|c keys]]]; simpl in Hlen; try lia.
  exfalso. cbn [PlainBst.chain PlainBst.heightBalanced] in Eb.
  destruct Eb as (_ & _ & Hb).
  change (Bst.Node b Bst.Null (Bst.Node c Bst.Null (PlainBst.chain keys)))
    with (PlainBst.chain (b :: c :: keys)) in Hb.
  rewrite plain_chain_height in Hb. cbn [PlainBst.getHeight length] in Hb. lia.
Qed.
End PlainBstTheorems.

(** ** The adjacency-list graphs *)

Import Graphs.

Section MapFacts.
Context {K V : Type}.
Variable eqb : K -> K -> bool.
Hypothesis eqb_spec : forall a b, eqb a b = true <-> a = b.

Lemma eqb_same (a : K) : eqb a a = true.
Proof. apply eqb_spec. reflexivity. Qed.

Lemma eqb_other (a b : K) : a <> b -> eqb a b = false.
Proof.
  intros Hne. destruct (eqb a b) eqn:E; [|reflexivity].
  apply eqb_spec in E. contradiction.
Qed.

Lemma mapGet_mapSet_same (m : list (K * V)) (k : K) (v : V) :
  mapGet eqb (mapSet eqb m k v) k = Some v.
Proof.
  unfold mapGet. induction m as [|[k' v'] m IH]; simpl.
  - rewrite eqb_same. reflexivity.
  - destruct (eqb k' k) eqn:E; simpl; rewrite E; [reflexivity | exact IH].
Qed.

Lemma mapGet_mapSet_other (m : list (K * V)) (k k' : K) (v : V) :
  k' <> k -> mapGet eqb (mapSet eqb m k v) k' = mapGet eqb m k'.
Proof.
  intros Hne. unfold mapGet. induction m as [|[k0 v0] m IH]; simpl.
  - rewrite eqb_other by congruence. reflexivity.
  - destruct (eqb k0 k) eqn:E; simpl.
    + apply eqb_spec in E. subst k0.
      rewrite eqb_other by congruence. reflexivity.
    + destruct (eqb k0 k'); [reflexivity | exact IH].
Qed.

Lemma mapGet_mapDelete_same (m : list (K * V)) (k : K) :
  mapGet eqb (mapDelete eqb m k) k = None.
Proof.
  unfold mapGet, mapDelete. induction m as [|[k0 v0] m IH]; simpl; [reflexivity|].
  destruct (eqb k0 k) eqn:E; simpl; [exact IH|].
  rewrite E. exact IH.
Qed.

Lemma mapGet_mapDelete_other (m : list (K * V)) (k k' : K) :
  k' <> k -> mapGet eqb (mapDelete eqb m k) k' = mapGet eqb m k'.
Proof.
  intros Hne. unfold mapGet, mapDelete.
  induction m as [|[k0 v0] m IH]; simpl; [reflexivity|].
  destruct (eqb k0 k) eqn:E; simpl.
  - apply eqb_spec in E. subst k0.
    rewrite eqb_other by congruence. exact IH.
  - destruct (eqb k0 k'); [reflexivity | exact IH].
Qed.

Lemma mapGet_map_values (f : K -> V -> V) (m : list (K * V)) (k : K) :
  mapGet eqb (map (fun e => (fst e, f (fst e) (snd e))) m) k =
  match find (fun e => eqb (fst e) k) m with
  | Some e => Some (f (fst e) (snd e))
  | None => None
  end.
Proof.
  unfold mapGet. induction m as [|[k0 v0] m IH]; simpl; [reflexivity|].
  destruct (eqb k0 k); [reflexivity | exact IH].
Qed.

Lemma mapKeys_mapSet (m : list (K * V)) (k : K) (v : V) :
  mapKeys (mapSet eqb m k v) =
  if mapHas eqb m k then mapKeys m else mapKeys m ++ [k].
Proof.
  unfold mapKeys, mapHas, mapGet.
  induction m as [|[k0 v0] m IH]; simpl; [reflexivity|].
  destruct (eqb k0 k) eqn:E; simpl; [reflexivity|].
  rewrite IH. destruct (find (fun e => eqb (fst e) k) m); reflexivity.
Qed.

Lemma setHas_setAdd (s : list K) (x y : K) :
  setHas eqb (setAdd eqb s x) y = true <-> setHas eqb s y = true \/ y = x.
Proof.
  unfold setAdd. destruct (setHas eqb s x) eqn:E.
  - split; [tauto|]. intros [H| ->]; assumption.
  - unfold setHas in *. rewrite existsb_app. simpl.
    rewrite orb_false_r, orb_true_iff, eqb_spec.
    split; intros [H|H]; auto.
Qed.

Lemma setHas_setDelete (s : list K) (x y : K) :
  setHas eqb (setDelete eqb s x) y = true <-> setHas eqb s y = true /\ y <> x.
Proof.
  unfold setHas, setDelete. rewrite !existsb_exists.
  split.
  - intros (z & Hz & Hzy). apply filter_In in Hz. destruct Hz as [Hin Hn].
    apply eqb_spec in Hzy. subst z. split; [exists y; split; [assumption | apply eqb_same]|].
    intros ->. rewrite eqb_same in Hn. discriminate.
  - intros [(z & Hz & Hzy) Hne]. apply eqb_spec in Hzy. subst z.
    exists y. split; [|apply eqb_same].
    apply filter_In. split; [assumption|].
    rewrite eqb_other by assumption. reflexivity.
Qed.
End MapFacts.

Section GraphProofs.
Context {T : Type}.
Variable eqb : T -> T -> bool.
Hypothesis eqb_spec : forall a b, eqb a b = true <-> a = b.

Lemma mapHas_true (m : list (T * list T)) (v : T) :
  mapHas eqb m v = true <-> exists s, mapGet eqb m v = Some s.
Proof.
  unfold mapHas. destruct (mapGet eqb m v) as [s|]; split.
  - intros _. exists s. reflexivity.
  - reflexivity.
  - discriminate.
  - intros [s H]. discriminate.
Qed.

Lemma hasEdge_addVertex (g : Graph T) (v c e : T) :
  hasEdge eqb (addVertex eqb g v) c e = hasEdge eqb g c e.
Proof.
  unfold addVertex, hasEdge, mapHas.
  destruct (mapGet eqb (adjacencyList g) v) as [s|] eqn:Ev; simpl; [reflexivity|].
  destruct (eqb v c) eqn:Ec.
  - apply eqb_spec in Ec. subst c.
    rewrite (mapGet_mapSet_same eqb eqb_spec), Ev. reflexivity.
  - rewrite (mapGet_mapSet_other eqb eqb_spec); [reflexivity|].
    intros ->. rewrite (eqb_same eqb eqb_spec) in Ec. discriminate.
Qed.

Lemma hasVertex_addVertex (g : Graph T) (v x : T) :
  hasVertex eqb (addVertex eqb g v) x = true <->
  hasVertex eqb g x = true \/ x = v.
Proof.
  unfold addVertex, hasVertex.
  destruct (mapHas eqb (adjacencyList g) v) eqn:Ev; simpl.
  - split; [tauto|]. intros [H| ->]; assumption.
  - unfold mapHas. destruct (eqb v x) eqn:Ex.
    + apply eqb_spec in Ex. subst x.
      rewrite (mapGet_mapSet_same eqb eqb_spec). tauto.
    + assert (x <> v)
        by (intros ->; rewrite (eqb_same eqb eqb_spec) in Ex; discriminate).
      rewrite (mapGet_mapSet_other eqb eqb_spec) by assumption. tauto.
Qed.

Lemma directed_addVertex (g : Graph T) (v : T) :
  directed (addVertex eqb g v) = directed g.
Proof.
  unfold addVertex. destruct (negb (mapHas eqb (adjacencyList g) v)); reflexivity.
Qed.

Lemma addTo_spec (m : list (T * list T)) (v x : T) (d : bool) :
  mapHas eqb m v = true ->
  exists m',
    addTo eqb m v x = Some m' /\
    mapKeys m' = mapKeys m /\
    (forall c e, hasEdge eqb (mkGraph m' d) c e = true <->
                 hasEdge eqb (mkGraph m d) c e = true \/ (c = v /\ e = x)) /\
    (forall y, mapHas eqb m' y = mapHas eqb m y).
Proof.
  intros Hv. pose proof Hv as Hv'. apply mapHas_true in Hv'.
  destruct Hv' as [s Es].
  unfold addTo. rewrite Es. eexists. split; [reflexivity|].
  split; [rewrite (mapKeys_mapSet eqb), Hv; reflexivity|].
  split.
  - intros c e. unfold hasEdge. simpl.
    destruct (eqb v c) eqn:Ec.
    + apply eqb_spec in Ec. subst c.
      rewrite (mapGet_mapSet_same eqb eqb_spec), Es.
      rewrite (setHas_setAdd eqb eqb_spec). tauto.
    + assert (c <> v)
        by (intros ->; rewrite (eqb_same eqb eqb_spec) in Ec; discriminate).
      rewrite (mapGet_mapSet_other eqb eqb_spec) by assumption. tauto.
  - intros y. unfold mapHas. destruct (eqb v y) eqn:Ey.
    + apply eqb_spec in Ey. subst y.
      rewrite (mapGet_mapSet_same eqb eqb_spec), Es. reflexivity.
    + rewrite (mapGet_mapSet_other eqb eqb_spec); [reflexivity|].
      intros ->. rewrite (eqb_same eqb eqb_spec) in Ey. discriminate.
Qed.

Lemma deleteFrom_spec (m : list (T * list T)) (v x : T) (d : bool) :
  mapHas eqb m v = true ->
  exists m',
    deleteFrom eqb m v x = Some (m', hasEdge eqb (mkGraph m d) v x) /\
    mapKeys m' = mapKeys m /\
    (forall c e, hasEdge eqb (mkGraph m' d) c e = true <->
                 hasEdge eqb (mkGraph m d) c e = true /\ ~ (c = v /\ e = x)) /\
    (forall y, mapHas eqb m' y = mapHas eqb m y).
Proof.
  intros Hv. pose proof Hv as Hv'. apply mapHas_true in Hv'.
  destruct Hv' as [s Es].
  unfold deleteFrom, hasEdge. simpl. rewrite Es. eexists.
  split; [reflexivity|].
  split; [rewrite (mapKeys_mapSet eqb), Hv; reflexivity|].
  split.
  - intros c e.
    destruct (eqb v c) eqn:Ec.
    + apply eqb_spec in Ec. subst c.
      rewrite (mapGet_mapSet_same eqb eqb_spec), Es.
      rewrite (setHas_setDelete eqb eqb_spec). tauto.
    + assert (c <> v)
        by (intros ->; rewrite (eqb_same eqb eqb_spec) in Ec; discriminate).
      rewrite (mapGet_mapSet_other eqb eqb_spec) by assumption. tauto.
  - intros y. unfold mapHas. destruct (eqb v y) eqn:Ey.
    + apply eqb_spec in Ey. subst y.
      rewrite (mapGet_mapSet_same eqb eqb_spec), Es. reflexivity.
    + rewrite (mapGet_mapSet_other eqb eqb_spec); [reflexivity|].
      intros ->. rewrite (eqb_same eqb eqb_spec) in Ey. discriminate.
Qed.

Lemma addEdge_edges (g : Graph T) (a b : T) :
  exists g',
    addEdge eqb g a b = Some g' /\
    directed g' = directed g /\
    getVertices g' = getVertices (addVertex eqb (addVertex eqb g a) b) /\
    (forall c e,
       hasEdge eqb g' c e = true <->
       hasEdge eqb g c e = true \/ (c = a /\ e = b) \/
       (directed g = false /\ c = b /\ e = a)) /\
    (forall x, hasVertex eqb g' x = true <->
               hasVertex eqb g x = true \/ x = a \/ x = b).
Proof.
  unfold addEdge. cbn zeta.
  set (g2 := addVertex eqb (addVertex eqb g a) b).
  assert (Hd2 : directed g2 = directed g)
    by (unfold g2; rewrite !directed_addVertex; reflexivity).
  assert (He2 : forall c e, hasEdge eqb g2 c e = hasEdge eqb g c e)
    by (intros c e; unfold g2; rewrite !hasEdge_addVertex; reflexivity).
  assert (Hv2 : forall x, hasVertex eqb g2 x = true <->
                          hasVertex eqb g x = true \/ x = a \/ x = b).
  { intros x. unfold g2. rewrite !hasVertex_addVertex. tauto. }
  assert (Ha : mapHas eqb (adjacencyList g2) a = true) by (apply Hv2; auto).
  assert (Hb : mapHas eqb (adjacencyList g2) b = true) by (apply Hv2; auto).
  destruct (addTo_spec (adjacencyList g2) a b (directed g) Ha)
    as (m3 & E3 & K3 & He3 & Hh3).
  rewrite E3, Hd2.
  assert (Hg2 : forall c e, hasEdge eqb (mkGraph (adjacencyList g2) (directed g)) c e
                            = hasEdge eqb g c e)
    by (intros c e; rewrite <- He2; reflexivity).
  destruct (directed g) eqn:Ed; simpl.
  - eexists. split; [reflexivity|]. split; [reflexivity|].
    split; [exact K3|]. split.
    + intros c e. rewrite He3, Hg2. intuition congruence.
    + intros x. unfold hasVertex. simpl. rewrite Hh3. apply Hv2.
  - destruct (addTo_spec m3 b a false) as (m4 & E4 & K4 & He4 & Hh4);
      [rewrite Hh3; exact Hb|].
    rewrite E4. eexists. split; [reflexivity|]. split; [reflexivity|].
    split; [unfold getVertices; simpl; rewrite K4; exact K3|]. split.
    + intros c e. rewrite He4, He3, Hg2. intuition congruence.
    + intros x. unfold hasVertex. simpl. rewrite Hh4, Hh3. apply Hv2.
Qed.

Lemma removeEdge_edges (g : Graph T) (a b : T) :
  exists g' r,
    removeEdge eqb g a b = Some (g', r) /\
    directed g' = directed g /\
    getVertices g' = getVertices g /\
    (forall x, hasVertex eqb g' x = hasVertex eqb g x) /\
    (hasVertex eqb g a = false \/ hasVertex eqb g b = false ->
     g' = g /\ r = false) /\
    (hasVertex eqb g a = true -> hasVertex eqb g b = true ->
     r = (hasEdge eqb g a b || (negb (directed g) && hasEdge eqb g b a)) /\
     forall c e,
       hasEdge eqb g' c e = true <->
       hasEdge eqb g c e = true /\ ~ (c = a /\ e = b) /\
       ~ (directed g = false /\ c = b /\ e = a)).
Proof.
  unfold removeEdge, hasVertex.
  destruct (mapHas eqb (adjacencyList g) a) eqn:Ha; simpl.
  2: { exists g, false. repeat split; auto; discriminate. }
  destruct (mapHas eqb (adjacencyList g) b) eqn:Hb; simpl.
  2: { exists g, false. repeat split; auto; discriminate. }
  destruct (deleteFrom_spec (adjacencyList g) a b (directed g) Ha)
    as (m1 & E1 & K1 & He1 & Hh1).
  rewrite E1.
  assert (Hg : forall c e, hasEdge eqb (mkGraph (adjacencyList g) (directed g)) c e
                           = hasEdge eqb g c e) by reflexivity.
  rewrite Hg in *.
  destruct (directed g) eqn:Ed; simpl.
  - eexists; eexists. split; [reflexivity|]. split; [reflexivity|].
    split; [exact K1|]. split; [intros x; apply Hh1|].
    split; [intros [H|H]; discriminate|].
    intros _ _. split; [rewrite orb_false_r; reflexivity|].
    intros c e. rewrite He1, Hg. intuition congruence.
  - destruct (deleteFrom_spec m1 b a false) as (m2 & E2 & K2 & He2 & Hh2);
      [rewrite Hh1; exact Hb|].
    rewrite E2. eexists; eexists. split; [reflexivity|]. split; [reflexivity|].
    split; [unfold getVertices; simpl; rewrite K2; exact K1|].
    split; [intros x; simpl; rewrite Hh2; apply Hh1|].
    split; [intros [H|H]; discriminate|].
    intros _ _. split.
    + apply eq_true_iff_eq. rewrite !orb_true_iff, He1.
      split; [tauto|]. intros [H|H]; [left; exact H|].
      destruct (eqb a b) eqn:Eab.
      * apply eqb_spec in Eab. subst b. left; exact H.
      * right. split; [exact H|]. intros [-> _].
        rewrite (eqb_same eqb eqb_spec) in Eab. discriminate.
    + intros c e. rewrite He2, He1. intuition congruence.
Qed.

Lemma removeVertex_edges (g : Graph T) (v : T) :
  snd (removeVertex eqb g v) = hasVertex eqb g v /\
  directed (fst (removeVertex eqb g v)) = directed g /\
  (hasVertex eqb g v = false -> fst (removeVertex eqb g v) = g) /\
  (hasVertex eqb g v = true ->
   (forall c e,
      hasEdge eqb (fst (removeVertex eqb g v)) c e = true <->
      hasEdge eqb g c e = true /\ c <> v /\ e <> v) /\
   (forall x,
      hasVertex eqb (fst (removeVertex eqb g v)) x = true <->
      hasVertex eqb g x = true /\ x <> v) /\
   getVertices (fst (removeVertex eqb g v)) =
     filter (fun x => negb (eqb x v)) (getVertices g)).
Proof.
  unfold removeVertex, hasVertex.
  destruct (mapHas eqb (adjacencyList g) v) eqn:Hv; simpl.
  2: { repeat split; auto; discriminate. }
  split; [reflexivity|]. split; [reflexivity|]. split; [discriminate|].
  intros _.
  assert (Hget : forall c, c <> v ->
            mapGet eqb
              (mapDelete eqb
                 (map (fun e => (fst e, setDelete eqb (snd e) v)) (adjacencyList g)) v) c
            = option_map (fun s => setDelete eqb s v) (mapGet eqb (adjacencyList g) c)).
  { intros c Hc. rewrite (mapGet_mapDelete_other eqb eqb_spec) by assumption.
    rewrite (mapGet_map_values eqb (fun _ s => setDelete eqb s v)).
    unfold mapGet. destruct (find _ (adjacencyList g)); reflexivity. }
  split; [|split].
  - intros c e. unfold hasEdge. simpl.
    destruct (eqb c v) eqn:Ec.
    + apply eqb_spec in Ec. subst c.
      rewrite (mapGet_mapDelete_same eqb). split; [discriminate | tauto].
    + assert (Hc : c <> v)
        by (intros ->; rewrite (eqb_same eqb eqb_spec) in Ec; discriminate).
      rewrite (Hget c Hc).
      destruct (mapGet eqb (adjacencyList g) c) as [s|]; simpl.
      * rewrite (setHas_setDelete eqb eqb_spec). tauto.
      * split; [discriminate | tauto].
  - intros x. unfold mapHas.
    destruct (eqb x v) eqn:Ex.
    + apply eqb_spec in Ex. subst x.
      rewrite (mapGet_mapDelete_same eqb). split; [discriminate | tauto].
    + assert (Hx : x <> v)
        by (intros ->; rewrite (eqb_same eqb eqb_spec) in Ex; discriminate).
      rewrite (Hget x Hx).
      destruct (mapGet eqb (adjacencyList g) x); simpl; tauto.
  - unfold getVertices, mapKeys, mapDelete. simpl. clear Hv Hget.
    induction (adjacencyList g) as [|[k s] m IH]; simpl; [reflexivity|].
    destruct (eqb k v); simpl; [exact IH | rewrite IH; reflexivity].
Qed.
End GraphProofs.

Section GraphTheorems.
Context {T : Type}.
Variable eqb : T -> T -> bool.
Hypothesis eqb_spec : forall a b, eqb a b = true <-> a = b.

(** X19. [Graph.addEdge(a, b)] never throws; afterwards [hasEdge(a, b)] is
    true, and [hasEdge(b, a)] too in an undirected graph; the edges are
    those of before plus these; both ends are vertices, a missing end having
    been appended to [getVertices()], [a] before [b]. *)
Theorem graph_addEdge_spec (g : Graph T) (a b : T) :
  exists g',
    addEdge eqb g a b = Some g' /\
    hasEdge eqb g' a b = true /\
    (directed g = false -> hasEdge eqb g' b a = true) /\
    hasVertex eqb g' a = true /\ hasVertex eqb g' b = true /\
    getVertices g' = getVertices (addVertex eqb (addVertex eqb g a) b) /\
    (forall c e,
       hasEdge eqb g' c e = true <->
       hasEdge eqb g c e = true \/ (c = a /\ e = b) \/
       (directed g = false /\ c = b /\ e = a)) /\
    (forall x, hasVertex eqb g' x = true <->
               hasVertex eqb g x = true \/ x = a \/ x = b).
Proof.
  destruct (addEdge_edges eqb eqb_spec g a b) as (g' & E & _ & K & He & Hv).
  exists g'. split; [exact E|].
  split; [apply He; auto|].
  split; [intros Hd; apply He; auto|].
  split; [apply Hv; auto|]. split; [apply Hv; auto|].
  split; [exact K|]. split; assumption.
Qed.

(** X20. [Graph.removeEdge(a, b)] never throws and keeps [getVertices()].  When
    an end is not a vertex it changes nothing and returns false.  Otherwise
    it returns whether the edge existed (in either direction if the graph is
    undirected), [hasEdge(a, b)] is false afterwards, also [hasEdge(b, a)]
    if undirected, and no other edge changes. *)
Theorem graph_removeEdge_spec (g : Graph T) (a b : T) :
  exists g' r,
    removeEdge eqb g a b = Some (g', r) /\
    getVertices g' = getVertices g /\
    (hasVertex eqb g a = false \/ hasVertex eqb g b = false ->
     g' = g /\ r = false) /\
    (hasVertex eqb g a = true -> hasVertex eqb g b = true ->
     r = (hasEdge eqb g a b || (negb (directed g) && hasEdge eqb g b a)) /\
     hasEdge eqb g' a b = false /\
     (directed g = false -> hasEdge eqb g' b a = false) /\
     forall c e,
       ~ (c = a /\ e = b) -> ~ (directed g = false /\ c = b /\ e = a) ->
       hasEdge eqb g' c e = hasEdge eqb g c e).
Proof.
  destruct (removeEdge_edges eqb eqb_spec g a b)
    as (g' & r & E & _ & K & _ & Hmiss & Hboth).
  exists g', r. split; [exact E|]. split; [exact K|]. split; [exact Hmiss|].
  intros Ha Hb. destruct (Hboth Ha Hb) as [Hr He].
  split; [exact Hr|].
  split.
  { destruct (hasEdge eqb g' a b) eqn:Ee; [|reflexivity].
    apply He in Ee. tauto. }
  split.
  { intros Hd. destruct (hasEdge eqb g' b a) eqn:Ee; [|reflexivity].
    apply He in Ee. tauto. }
  intros c e H1 H2. apply eq_true_iff_eq. rewrite He. tauto.
Qed.

(** X21. [Graph.removeVertex(v)] returns whether [v] was a vertex and changes
    nothing when it was not.  Otherwise [v] is no vertex afterwards and
    leaves [getVertices()] without reordering the others, no edge leaves or
    enters [v], and the edges between other vertices are unchanged. *)
Theorem graph_removeVertex_spec (g : Graph T) (v : T) :
  snd (removeVertex eqb g v) = hasVertex eqb g v /\
  (hasVertex eqb g v = false -> fst (removeVertex eqb g v) = g) /\
  (hasVertex eqb g v = true ->
   hasVertex eqb (fst (removeVertex eqb g v)) v = false /\
   getVertices (fst (removeVertex eqb g v)) =
     filter (fun x => negb (eqb x v)) (getVertices g) /\
   (forall x,
      hasEdge eqb (fst (removeVertex eqb g v)) x v = false /\
      hasEdge eqb (fst (removeVertex eqb g v)) v x = false) /\
   (forall c e, c <> v -> e <> v ->
      hasEdge eqb (fst (removeVertex eqb g v)) c e = hasEdge eqb g c e) /\
   (forall x, x <> v ->
      hasVertex eqb (fst (removeVertex eqb g v)) x = hasVertex eqb g x)).
Proof.
  destruct (removeVertex_edges eqb eqb_spec g v) as (Hr & _ & Hno & Hyes).
  split; [exact Hr|]. split; [exact Hno|].
  intros Hv. destruct (Hyes Hv) as (He & Hx & K).
  split.
  { destruct (hasVertex eqb (fst (removeVertex eqb g v)) v) eqn:Ev; [|reflexivity].
    apply Hx in Ev. tauto. }
  split; [exact K|].
  split.
  { intros x. split.
    - destruct (hasEdge eqb (fst (removeVertex eqb g v)) x v) eqn:Ee; [|reflexivity].
      apply He in Ee. tauto.
    - destruct (hasEdge eqb (fst (removeVertex eqb g v)) v x) eqn:Ee; [|reflexivity].
      apply He in Ee. tauto. }
  split.
  - intros c e Hc Hne. apply eq_true_iff_eq. rewrite He. tauto.
  - intros x Hne. apply eq_true_iff_eq. rewrite Hx. tauto.
Qed.

Lemma hasVertex_In (g : Graph T) (x : T) :
  hasVertex eqb g x = true <-> In x (getVertices g).
Proof.
  unfold hasVertex, getVertices, mapHas, mapGet, mapKeys.
  induction (adjacencyList g) as [|[k s] m IH]; simpl.
  - split; [discriminate | intros []].
  - destruct (eqb k x) eqn:Ek.
    + apply eqb_spec in Ek. subst k. tauto.
    + rewrite IH. split; [tauto|]. intros [->|H]; [|exact H].
      rewrite (eqb_same eqb eqb_spec) in Ek. discriminate.
Qed.

Lemma wellFormed_new (d : bool) : wellFormed eqb (newGraph d).
Proof.
  split; [constructor|]. split; [intros a b H; discriminate|].
  intros _ a b. reflexivity.
Qed.

Lemma wellFormed_step (g : Graph T) (op : GraphOp T) :
  wellFormed eqb g ->
  exists g',
    applyGraphOp eqb g op = Some g' /\
    directed g' = directed g /\ wellFormed eqb g'.
Proof.
  intros (Hnd & Hcl & Hsym).
  assert (Hnd_add : forall g0 v, NoDup (getVertices g0) ->
                                 NoDup (getVertices (addVertex eqb g0 v))).
  { intros g0 v H0. unfold addVertex.
    destruct (mapHas eqb (adjacencyList g0) v) eqn:Ev; simpl; [exact H0|].
    unfold getVertices. simpl. rewrite (mapKeys_mapSet eqb), Ev.
    apply NoDup_app; [exact H0 | constructor; [intros [] | constructor] |].
    intros x Hx [<-|[]].
    apply hasVertex_In in Hx. unfold hasVertex in Hx. congruence. }
  destruct op as [v|a b|v|a b]; cbn [applyGraphOp].
  - exists (addVertex eqb g v). split; [reflexivity|].
    split; [apply directed_addVertex|].
    split; [apply Hnd_add; exact Hnd|]. split.
    + intros a b. rewrite hasEdge_addVertex by exact eqb_spec.
      intros H. destruct (Hcl a b H).
      split; apply (hasVertex_addVertex eqb eqb_spec); left; assumption.
    + rewrite directed_addVertex. intros Hd a b.
      rewrite !hasEdge_addVertex by exact eqb_spec. apply Hsym; exact Hd.
  - destruct (addEdge_edges eqb eqb_spec g a b) as (g' & E & Hd & K & He & Hv).
    exists g'. split; [exact E|]. split; [exact Hd|].
    split; [rewrite K; apply Hnd_add, Hnd_add; exact Hnd|]. split.
    + intros c e H. apply He in H. rewrite !Hv.
      destruct H as [H|[[-> ->]|(_ & -> & ->)]]; [|tauto|tauto].
      destruct (Hcl c e H). tauto.
    + rewrite Hd. intros Hdir c e. apply eq_true_iff_eq. rewrite !He.
      rewrite (Hsym Hdir c e). tauto.
  - destruct (removeVertex_edges eqb eqb_spec g v) as (Hr & Hd & Hno & Hyes).
    exists (fst (removeVertex eqb g v)). split; [reflexivity|].
    split; [exact Hd|].
    destruct (hasVertex eqb g v) eqn:Ev.
    + destruct (Hyes eq_refl) as (He & Hx & K).
      split; [rewrite K; apply NoDup_filter; exact Hnd|]. split.
      * intros a b H. apply He in H. destruct H as (H & Ha & Hb).
        destruct (Hcl a b H). rewrite !Hx. tauto.
      * rewrite Hd. intros Hdir a b. apply eq_true_iff_eq. rewrite !He.
        rewrite (Hsym Hdir a b). tauto.
    + rewrite (Hno eq_refl). exact (conj Hnd (conj Hcl Hsym)).
  - destruct (removeEdge_edges eqb eqb_spec g a b)
      as (g' & r & E & Hd & K & Hx & Hmiss & Hboth).
    rewrite E. exists g'. split; [reflexivity|]. split; [exact Hd|].
    destruct (hasVertex eqb g a) eqn:Ea; [destruct (hasVertex eqb g b) eqn:Eb|].
    + destruct (Hboth eq_refl eq_refl) as [_ He].
      split; [rewrite K; exact Hnd|]. split.
      * intros c e H. apply He in H. destruct H as (H & _).
        rewrite !Hx. apply Hcl. exact H.
      * rewrite Hd. intros Hdir c e. apply eq_true_iff_eq. rewrite !He.
        rewrite (Hsym Hdir c e). tauto.
    + destruct Hmiss as [-> _]; [right; reflexivity|].
      exact (conj Hnd (conj Hcl Hsym)).
    + destruct Hmiss as [-> _]; [left; reflexivity|].
      exact (conj Hnd (conj Hcl Hsym)).
Qed.

(** X22. Whatever sequence of [addVertex], [addEdge], [removeVertex] and
    [removeEdge] calls a new graph receives, no call throws, and after every
    call the ends of every edge are vertices, [getVertices()] has no
    repetition and, in an undirected graph, [hasEdge(a, b)] and
    [hasEdge(b, a)] agree. *)
Theorem graph_invariants (d : bool) (ops : list (GraphOp T)) (n : nat) :
  exists g,
    applyGraphOps eqb (newGraph d) (firstn n ops) = Some g /\
    directed g = d /\
    NoDup (getVertices g) /\
    (forall a b, hasEdge eqb g a b = true ->
                 hasVertex eqb g a = true /\ hasVertex eqb g b = true) /\
    (d = false -> forall a b, hasEdge eqb g a b = hasEdge eqb g b a).
Proof.
  assert (H : forall ops0 g0, wellFormed eqb g0 ->
            exists g, applyGraphOps eqb g0 ops0 = Some g /\
                      directed g = directed g0 /\ wellFormed eqb g).
  { induction ops0 as [|op ops0 IH]; intros g0 Hw.
    - exists g0. split; [reflexivity|]. split; [reflexivity | exact Hw].
    - destruct (wellFormed_step g0 op Hw) as (g1 & E1 & Hd1 & Hw1).
      cbn [applyGraphOps]. rewrite E1.
      destruct (IH g1 Hw1) as (g & E & Hd & Hw').
      exists g. split; [exact E|]. split; [congruence | exact Hw']. }
  destruct (H (firstn n ops) (newGraph d) (wellFormed_new d))
    as (g & E & Hd & (Hnd & Hcl & Hsym)).
  exists g. split; [exact E|]. simpl in Hd. split; [exact Hd|].
  split; [exact Hnd|]. split; [exact Hcl|].
  intros Hf. apply Hsym. congruence.
Qed.
End GraphTheorems.

Section GraphClone.
Context {T : Type}.
Variable eqb : T -> T -> bool.
Hypothesis eqb_spec : forall a b, eqb a b = true <-> a = b.

Lemma setHas_In (s : list T) (x : T) : setHas eqb s x = true <-> In x s.
Proof.
  unfold setHas. rewrite existsb_exists. split.
  - intros (y & Hy & E). apply eqb_spec in E. subst y. exact Hy.
  - intros H. exists x. split; [exact H | apply (eqb_same eqb eqb_spec)].
Qed.

Lemma mapGet_In (m : list (T * list T)) (k : T) (s : list T) :
  mapGet eqb m k = Some s -> In (k, s) m.
Proof.
  unfold mapGet. destruct (find (fun e => eqb (fst e) k) m) as [[k' s']|] eqn:E;
    [|discriminate].
  intros H. inversion H; subst s'. apply find_some in E.
  destruct E as [Hin Hk]. apply eqb_spec in Hk. simpl in Hk. subst k'.
  exact Hin.
Qed.

Lemma In_mapGet (m : list (T * list T)) (k : T) (s : list T) :
  NoDup (mapKeys m) -> In (k, s) m -> mapGet eqb m k = Some s.
Proof.
  unfold mapGet, mapKeys. induction m as [|[k0 s0] m IH]; simpl; [intros _ []|].
  intros Hnd [H|H].
  - inversion H; subst. rewrite (eqb_same eqb eqb_spec). reflexivity.
  - inversion Hnd as [|? ? Hni Hnd']; subst.
    destruct (eqb k0 k) eqn:E.
    + apply eqb_spec in E. subst k0. exfalso. apply Hni.
      apply (in_map fst) in H. exact H.
    + apply IH; assumption.
Qed.

Lemma hasEdge_In (g : Graph T) (c e : T) :
  NoDup (getVertices g) ->
  (hasEdge eqb g c e = true <->
   exists s, In (c, s) (adjacencyList g) /\ In e s).
Proof.
  intros Hnd. unfold hasEdge. split.
  - destruct (mapGet eqb (adjacencyList g) c) as [s|] eqn:E; [|discriminate].
    intros H. exists s. split; [apply mapGet_In; exact E | apply setHas_In; exact H].
  - intros (s & Hin & He). rewrite (In_mapGet _ _ _ Hnd Hin).
    apply setHas_In. exact He.
Qed.

Lemma cloneEdges_spec (k : T) (ns : list T) :
  forall ng0,
  exists ng,
    cloneEdges eqb k ns (Some ng0) = Some ng /\
    directed ng = directed ng0 /\
    (forall c e,
       hasEdge eqb ng c e = true <->
       hasEdge eqb ng0 c e = true \/
       exists n, In n ns /\
                 ((c = k /\ e = n) \/ (directed ng0 = false /\ c = n /\ e = k))) /\
    (forall x,
       hasVertex eqb ng x = true <->
       hasVertex eqb ng0 x = true \/ exists n, In n ns /\ (x = k \/ x = n)).
Proof.
  unfold cloneEdges.
  induction ns as [|n ns IH]; intros ng0; cbn [fold_left].
  - exists ng0. split; [reflexivity|]. split; [reflexivity|].
    split; intros; (split; [tauto|]); intros [H|(n & [] & _)]; exact H.
  - destruct (addEdge_edges eqb eqb_spec ng0 k n) as (g1 & E1 & Hd1 & _ & He1 & Hv1).
    rewrite E1.
    destruct (IH g1) as (ng & E & Hd & He & Hv).
    exists ng. split; [exact E|]. split; [congruence|].
    rewrite Hd1 in He. split.
    + intros c e. rewrite He, He1. split.
      * intros [[H|[H|H]]|(m & Hm & H)].
        -- left; exact H.
        -- right. exists n. split; [left; reflexivity | left; exact H].
        -- right. exists n. split; [left; reflexivity | right; exact H].
        -- right. exists m. split; [right; exact Hm | exact H].
      * intros [H|(m & [<-|Hm] & H)].
        -- left; left; exact H.
        -- left; right; exact H.
        -- right. exists m. split; assumption.
    + intros x. rewrite Hv, Hv1. split.
      * intros [[H|H]|(m & Hm & H)].
        -- left; exact H.
        -- right. exists n. split; [left; reflexivity | exact H].
        -- right. exists m. split; [right; exact Hm | exact H].
      * intros [H|(m & [<-|Hm] & H)].
        -- left; left; exact H.
        -- left; right; exact H.
        -- right. exists m. split; assumption.
Qed.

Lemma clone_fold_spec (es : list (T * list T)) :
  forall ng0,
  exists ng,
    fold_left
      (fun acc e =>
         match acc with
         | Some ng => cloneEdges eqb (fst e) (snd e) (Some (addVertex eqb ng (fst e)))
         | None => None
         end) es (Some ng0) = Some ng /\
    directed ng = directed ng0 /\
    (forall c e,
       hasEdge eqb ng c e = true <->
       hasEdge eqb ng0 c e = true \/
       exists k s n, In (k, s) es /\ In n s /\
                     ((c = k /\ e = n) \/
                      (directed ng0 = false /\ c = n /\ e = k))) /\
    (forall x,
       hasVertex eqb ng x = true <->
       hasVertex eqb ng0 x = true \/
       exists k s, In (k, s) es /\ (x = k \/ In x s)).
Proof.
  induction es as [|[k s] es IH]; intros ng0; cbn [fold_left fst snd].
  - exists ng0. split; [reflexivity|]. split; [reflexivity|]. split.
    + intros c e. split; [tauto|]. intros [H|(k & s & n & [] & _)]; exact H.
    + intros x. split; [tauto|]. intros [H|(k & s & [] & _)]; exact H.
  - destruct (cloneEdges_spec k s (addVertex eqb ng0 k))
      as (g1 & E1 & Hd1 & He1 & Hv1).
    rewrite E1. rewrite directed_addVertex in Hd1, He1.
    destruct (IH g1) as (ng & E & Hd & He & Hv).
    exists ng. split; [exact E|]. split; [congruence|].
    rewrite Hd1 in He. split.
    + intros c e. rewrite He, He1, (hasEdge_addVertex eqb eqb_spec). split.
      * intros [[H|(n & Hn & H)]|(k' & s' & n & Hin & Hn & H)].
        -- left; exact H.
        -- right. exists k, s, n. split; [left; reflexivity|]. split; assumption.
        -- right. exists k', s', n. split; [right; exact Hin|]. split; assumption.
      * intros [H|(k' & s' & n & [Heq|Hin] & Hn & H)].
        -- left; left; exact H.
        -- inversion Heq; subst k' s'. left; right. exists n. split; assumption.
        -- right. exists k', s', n. split; [exact Hin|]. split; assumption.
    + intros x. rewrite Hv, Hv1, (hasVertex_addVertex eqb eqb_spec). split.
      * intros [[[H|H]|(n & Hn & [H|H])]|(k' & s' & Hin & H)].
        -- left; exact H.
        -- right. exists k, s. split; [left; reflexivity | left; exact H].
        -- right. exists k, s. split; [left; reflexivity | left; exact H].
        -- right. exists k, s. split; [left; reflexivity | right; subst x; exact Hn].
        -- right. exists k', s'. split; [right; exact Hin | exact H].
      * intros [H|(k' & s' & [Heq|Hin] & H)].
        -- left; left; left; exact H.
        -- inversion Heq; subst k' s'. destruct H as [H|H].
           ++ left; left; right; exact H.
           ++ left; right. exists x. split; [exact H | right; reflexivity].
        -- right. exists k', s'. split; assumption.
Qed.

(** X23. [clone()] of a graph in a state the class can reach never throws
    and gives a graph of the same kind with the same vertices and the same
    edges. *)
Theorem graph_clone_spec (g : Graph T) :
  wellFormed eqb g ->
  exists g',
    clone eqb g = Some g' /\
    directed g' = directed g /\
    (forall x, hasVertex eqb g' x = hasVertex eqb g x) /\
    (forall a b, hasEdge eqb g' a b = hasEdge eqb g a b).
Proof.
  intros (Hnd & Hcl & Hsym).
  destruct (clone_fold_spec (adjacencyList g) (newGraph (directed g)))
    as (g' & E & Hd & He & Hv).
  exists g'. split; [exact E|]. split; [exact Hd|]. split.
  - intros x. apply eq_true_iff_eq. rewrite Hv. split.
    + intros [H|(k & s & Hin & [->|Hx])]; [discriminate| |].
      * apply (hasVertex_In eqb eqb_spec). apply (in_map fst) in Hin. exact Hin.
      * apply (Hcl k x). apply (hasEdge_In g k x Hnd). exists s. tauto.
    + intros H. right. apply (hasVertex_In eqb eqb_spec) in H.
      unfold getVertices, mapKeys in H. apply in_map_iff in H.
      destruct H as ([k s] & Hk & Hin). simpl in Hk. subst k.
      exists x, s. tauto.
  - intros a b. apply eq_true_iff_eq. rewrite He. simpl directed. split.
    + intros [H|(k & s & n & Hin & Hn & [[-> ->]|(Hdir & -> & ->)])];
        [discriminate| |].
      * apply (hasEdge_In g k n Hnd). exists s. tauto.
      * rewrite (Hsym Hdir). apply (hasEdge_In g k n Hnd). exists s. tauto.
    + intros H. right. apply (hasEdge_In g a b Hnd) in H.
      destruct H as (s & Hin & Hb). exists a, s, b. tauto.
Qed.
End GraphClone.

Section WeightedProofs.
Context {T W : Type}.
Variable eqb : T -> T -> bool.
Hypothesis eqb_spec : forall a b, eqb a b = true <-> a = b.

#[local] Abbreviation NB := (wGetWeightedNeighbors eqb).
#[local] Abbreviation toIs :=
  (fun (t : T) (neighbor : WeightedEdge T W) => eqb (to neighbor) t).

Lemma eqb_comm (a b : T) : eqb a b = eqb b a.
Proof.
  destruct (eqb a b) eqn:E.
  - apply eqb_spec in E. subst b. symmetry. apply (eqb_same eqb eqb_spec).
  - destruct (eqb b a) eqn:E'; [|reflexivity].
    apply eqb_spec in E'. subst b. rewrite (eqb_same eqb eqb_spec) in E.
    discriminate.
Qed.

Lemma neighbors_mapSet (m : list (T * list (WeightedEdge T W))) (d : bool)
  (k c : T) (v : list (WeightedEdge T W)) :
  NB (mkWeighted (mapSet eqb m k v) d) c =
  if eqb k c then v else NB (mkWeighted m d) c.
Proof.
  unfold wGetWeightedNeighbors. simpl. destruct (eqb k c) eqn:E.
  - apply eqb_spec in E. subst c.
    rewrite (mapGet_mapSet_same eqb eqb_spec). reflexivity.
  - rewrite (mapGet_mapSet_other eqb eqb_spec); [reflexivity|].
    intros ->. rewrite (eqb_same eqb eqb_spec) in E. discriminate.
Qed.

Lemma wHasEdge_neighbors (g : WeightedGraph T W) (a b : T) :
  wHasEdge eqb g a b = existsb (toIs b) (NB g a).
Proof.
  unfold wHasEdge, wGetWeightedNeighbors.
  destruct (mapGet eqb (wAdjacencyList g) a); reflexivity.
Qed.

Lemma wGetEdgeWeight_neighbors (g : WeightedGraph T W) (a b : T) :
  wGetEdgeWeight eqb g a b = option_map weight (findEdge eqb (NB g a) b).
Proof.
  unfold wGetEdgeWeight, wGetWeightedNeighbors.
  destruct (mapGet eqb (wAdjacencyList g) a) as [l|]; [|reflexivity].
  destruct (findEdge eqb l b); reflexivity.
Qed.

Lemma weight_hasEdge (g : WeightedGraph T W) (a b : T) :
  wHasEdge eqb g a b =
  match wGetEdgeWeight eqb g a b with Some _ => true | None => false end.
Proof.
  rewrite wHasEdge_neighbors, wGetEdgeWeight_neighbors. unfold findEdge.
  induction (NB g a) as [|x l IH]; simpl; [reflexivity|].
  destruct (eqb (to x) b); [reflexivity | exact IH].
Qed.

Lemma findEdge_app (l1 l2 : list (WeightedEdge T W)) (t : T) :
  findEdge eqb (l1 ++ l2) t =
  match findEdge eqb l1 t with
  | Some e => Some e
  | None => findEdge eqb l2 t
  end.
Proof.
  unfold findEdge. induction l1 as [|x l1 IH]; simpl; [reflexivity|].
  destruct (eqb (to x) t); [reflexivity | exact IH].
Qed.

Lemma neighbors_wAddVertex (g : WeightedGraph T W) (v c : T) :
  NB (wAddVertex eqb g v) c = NB g c.
Proof.
  unfold wAddVertex, mapHas.
  destruct (mapGet eqb (wAdjacencyList g) v) as [l|] eqn:E; simpl;
    [reflexivity|].
  rewrite neighbors_mapSet. destruct (eqb v c) eqn:Ec.
  - apply eqb_spec in Ec. subst c. unfold wGetWeightedNeighbors.
    rewrite E. reflexivity.
  - destruct g; reflexivity.
Qed.

Lemma mapGet_wAddVertex_same (g : WeightedGraph T W) (v : T) :
  mapGet eqb (wAdjacencyList (wAddVertex eqb g v)) v = Some (NB g v).
Proof.
  unfold wAddVertex, mapHas, wGetWeightedNeighbors.
  destruct (mapGet eqb (wAdjacencyList g) v) as [l|] eqn:E; simpl.
  - exact E.
  - apply (mapGet_mapSet_same eqb eqb_spec).
Qed.

Lemma mapGet_wAddVertex_kept (g : WeightedGraph T W) (v c : T)
  (l : list (WeightedEdge T W)) :
  mapGet eqb (wAdjacencyList g) c = Some l ->
  mapGet eqb (wAdjacencyList (wAddVertex eqb g v)) c = Some l.
Proof.
  intros H. unfold wAddVertex, mapHas.
  destruct (mapGet eqb (wAdjacencyList g) v) as [l'|] eqn:E; simpl;
    [exact H|].
  rewrite (mapGet_mapSet_other eqb eqb_spec); [exact H|].
  intros ->. congruence.
Qed.

Lemma wDirected_wAddVertex (g : WeightedGraph T W) (v : T) :
  wDirected (wAddVertex eqb g v) = wDirected g.
Proof.
  unfold wAddVertex. destruct (negb _); reflexivity.
Qed.

(** What [addEdge] does to every adjacency array: one edge is pushed on
    [from]'s array, and on [to]'s when the graph is undirected. *)
Lemma wAddEdge_neighbors (g : WeightedGraph T W) (a b : T) (w : W) :
  exists g',
    wAddEdge eqb g a b w = Some g' /\
    wDirected g' = wDirected g /\
    forall c,
      NB g' c =
      NB g c ++ (if eqb a c then [mkEdge b w] else [])
             ++ (if negb (wDirected g) && eqb b c then [mkEdge a w] else []).
Proof.
  unfold wAddEdge, pushTo.
  set (g1 := wAddVertex eqb g a).
  set (g2 := wAddVertex eqb g1 b).
  assert (Ha : mapGet eqb (wAdjacencyList g2) a = Some (NB g a)).
  { unfold g2. apply mapGet_wAddVertex_kept. unfold g1.
    apply mapGet_wAddVertex_same. }
  assert (Hd : wDirected g2 = wDirected g).
  { unfold g2, g1. rewrite !wDirected_wAddVertex. reflexivity. }
  assert (Hn : forall c, NB g2 c = NB g c).
  { intros c. unfold g2, g1. rewrite !neighbors_wAddVertex. reflexivity. }
  assert (Hb : mapGet eqb (wAdjacencyList g2) b = Some (NB g b)).
  { unfold g2. rewrite mapGet_wAddVertex_same. unfold g1.
    rewrite neighbors_wAddVertex. reflexivity. }
  rewrite Ha, Hd.
  assert (Hg2 : forall c, NB (mkWeighted (wAdjacencyList g2) (wDirected g)) c = NB g c).
  { intros c. rewrite <- Hn. reflexivity. }
  destruct (wDirected g) eqn:Ed; simpl negb; cbv iota.
  - eexists. split; [reflexivity|]. split; [reflexivity|].
    intros c. rewrite neighbors_mapSet. simpl andb. rewrite app_nil_r.
    destruct (eqb a c) eqn:E.
    + apply eqb_spec in E. subst c. reflexivity.
    + rewrite Hg2, app_nil_r. reflexivity.
  - destruct (eqb a b) eqn:Eab.
    + apply eqb_spec in Eab. subst b.
      rewrite (mapGet_mapSet_same eqb eqb_spec).
      eexists. split; [reflexivity|]. split; [reflexivity|].
      intros c. rewrite neighbors_mapSet. simpl andb.
      destruct (eqb a c) eqn:E.
      * apply eqb_spec in E. subst c. rewrite <- app_assoc. reflexivity.
      * rewrite neighbors_mapSet, E, Hg2, !app_nil_r. reflexivity.
    + rewrite (mapGet_mapSet_other eqb eqb_spec), Hb.
      2:{ intros ->. rewrite (eqb_same eqb eqb_spec) in Eab. discriminate. }
      eexists. split; [reflexivity|]. split; [reflexivity|].
      intros c. rewrite !neighbors_mapSet. simpl andb.
      destruct (eqb b c) eqn:Eb.
      * apply eqb_spec in Eb. subst c. rewrite Eab. reflexivity.
      * rewrite app_nil_r. destruct (eqb a c) eqn:Ea.
        -- apply eqb_spec in Ea. subst c. reflexivity.
        -- rewrite Hg2, app_nil_r. reflexivity.
Qed.

Lemma existsb_setFirstWeight (l : list (WeightedEdge T W)) (t e : T) (w : W) :
  existsb (toIs e) (setFirstWeight eqb l t w) = existsb (toIs e) l.
Proof.
  induction l as [|x l IH]; simpl; [reflexivity|].
  destruct (eqb (to x) t); simpl; [reflexivity|].
  rewrite IH. reflexivity.
Qed.

Lemma findEdge_setFirstWeight (l : list (WeightedEdge T W)) (t e : T) (w : W) :
  option_map weight (findEdge eqb (setFirstWeight eqb l t w) e) =
  if eqb t e
  then match findEdge eqb l e with Some _ => Some w | None => None end
  else option_map weight (findEdge eqb l e).
Proof.
  unfold findEdge. induction l as [|x l IH]; simpl.
  - destruct (eqb t e); reflexivity.
  - destruct (eqb (to x) t) eqn:Et; simpl.
    + apply eqb_spec in Et. subst t.
      destruct (eqb (to x) e); reflexivity.
    + destruct (eqb (to x) e) eqn:Ee; [|exact IH].
      apply eqb_spec in Ee. subst e. rewrite (eqb_comm t), Et. reflexivity.
Qed.

(** What [updateEdgeWeight] does to every adjacency array once it has
    found the edge. *)
Lemma wUpdateEdgeWeight_neighbors (g : WeightedGraph T W) (a b : T) (w : W) :
  wHasEdge eqb g a b = true ->
  exists g',
    wUpdateEdgeWeight eqb g a b w = (g', true) /\
    wDirected g' = wDirected g /\
    forall c,
      NB g' c =
      let l := if eqb a c then setFirstWeight eqb (NB g c) b w else NB g c in
      if negb (wDirected g) && eqb b c then setFirstWeight eqb l a w else l.
Proof.
  intros Hh. unfold wUpdateEdgeWeight.
  assert (Hf : findEdge eqb (NB g a) b <> None).
  { rewrite weight_hasEdge, wGetEdgeWeight_neighbors in Hh.
    destruct (findEdge eqb (NB g a) b); [discriminate | discriminate]. }
  unfold wGetWeightedNeighbors in Hf.
  unfold wHasEdge in Hh.
  destruct (mapGet eqb (wAdjacencyList g) a) as [la|] eqn:Ea; [|discriminate].
  destruct (findEdge eqb la b) as [edge|]; [|congruence].
  assert (Hg : forall c, NB (mkWeighted (wAdjacencyList g) (wDirected g)) c = NB g c)
    by (intros c; destruct g; reflexivity).
  assert (Hla : NB g a = la) by (unfold wGetWeightedNeighbors; rewrite Ea; reflexivity).
  destruct (wDirected g) eqn:Ed; simpl negb; cbv iota.
  - eexists. split; [reflexivity|]. split; [reflexivity|].
    intros c. cbv zeta. simpl andb. cbv iota. rewrite neighbors_mapSet.
    destruct (eqb a c) eqn:E.
    + apply eqb_spec in E. subst c. rewrite Hla. reflexivity.
    + rewrite <- Ed. apply Hg.
  - destruct (eqb a b) eqn:Eab.
    + apply eqb_spec in Eab. subst b.
      rewrite (mapGet_mapSet_same eqb eqb_spec).
      eexists. split; [reflexivity|]. split; [reflexivity|].
      intros c. cbv zeta. simpl andb. rewrite !neighbors_mapSet.
      destruct (eqb a c) eqn:E.
      * apply eqb_spec in E. subst c. rewrite Hla. reflexivity.
      * rewrite <- Ed. apply Hg.
    + rewrite (mapGet_mapSet_other eqb eqb_spec).
      2:{ intros ->. rewrite (eqb_same eqb eqb_spec) in Eab. discriminate. }
      destruct (mapGet eqb (wAdjacencyList g) b) as [lb|] eqn:Eb.
      * eexists. split; [reflexivity|]. split; [reflexivity|].
        intros c. cbv zeta. simpl andb. rewrite !neighbors_mapSet.
        destruct (eqb b c) eqn:Ebc.
        -- apply eqb_spec in Ebc. subst c. rewrite Eab.
           unfold wGetWeightedNeighbors. rewrite Eb. reflexivity.
        -- destruct (eqb a c) eqn:Eac.
           ++ apply eqb_spec in Eac. subst c. rewrite Hla. reflexivity.
           ++ rewrite <- Ed. apply Hg.
      * eexists. split; [reflexivity|]. split; [reflexivity|].
        intros c. cbv zeta. simpl andb. rewrite !neighbors_mapSet.
        destruct (eqb b c) eqn:Ebc.
        -- apply eqb_spec in Ebc. subst c. rewrite Eab.
           unfold wGetWeightedNeighbors. simpl. rewrite Eb. reflexivity.
        -- destruct (eqb a c) eqn:Eac.
           ++ apply eqb_spec in Eac. subst c. rewrite Hla. reflexivity.
           ++ rewrite <- Ed. apply Hg.
Qed.

Lemma wUpdateEdgeWeight_missing (g : WeightedGraph T W) (a b : T) (w : W) :
  wHasEdge eqb g a b = false ->
  wUpdateEdgeWeight eqb g a b w = (g, false).
Proof.
  intros Hh. rewrite weight_hasEdge in Hh.
  unfold wUpdateEdgeWeight, wGetEdgeWeight in *.
  destruct (mapGet eqb (wAdjacencyList g) a) as [la|]; [|reflexivity].
  destruct (findEdge eqb la b); [discriminate | reflexivity].
Qed.

Lemma length_filter_lt (p : WeightedEdge T W -> bool)
  (l : list (WeightedEdge T W)) :
  (length (filter (fun x => negb (p x)) l) <? length l)%nat = existsb p l.
Proof.
  assert (Hle : forall l', (length (filter (fun x => negb (p x)) l') <= length l')%nat).
  { induction l' as [|x l' IH]; simpl; [lia|].
    destruct (p x); simpl; lia. }
  induction l as [|x l IH]; simpl; [reflexivity|].
  destruct (p x); simpl negb; cbv iota.
  - simpl orb. apply Nat.ltb_lt. specialize (Hle l). simpl. lia.
  - simpl orb. rewrite <- IH. simpl length.
    destruct (Nat.ltb_spec (length (filter (fun x0 => negb (p x0)) l)) (length l));
      [apply Nat.ltb_lt | apply Nat.ltb_ge]; lia.
Qed.

Lemma existsb_filter_to (l : list (WeightedEdge T W)) (t e : T) :
  existsb (toIs e) (filter (fun neighbor => negb (eqb (to neighbor) t)) l) =
  negb (eqb t e) && existsb (toIs e) l.
Proof.
  induction l as [|x l IH]; simpl; [rewrite andb_false_r; reflexivity|].
  destruct (eqb (to x) t) eqn:Et; simpl.
  - apply eqb_spec in Et. subst t. rewrite IH.
    destruct (eqb (to x) e); reflexivity.
  - rewrite IH. destruct (eqb (to x) e) eqn:Ee; simpl.
    + apply eqb_spec in Ee. subst e. rewrite (eqb_comm t), Et. reflexivity.
    + reflexivity.
Qed.

Lemma findEdge_filter_to (l : list (WeightedEdge T W)) (t e : T) :
  findEdge eqb (filter (fun neighbor => negb (eqb (to neighbor) t)) l) e =
  if eqb t e then None else findEdge eqb l e.
Proof.
  unfold findEdge. induction l as [|x l IH]; simpl.
  - destruct (eqb t e); reflexivity.
  - destruct (eqb (to x) t) eqn:Et; simpl.
    + apply eqb_spec in Et. subst t. rewrite IH.
      destruct (eqb (to x) e); reflexivity.
    + destruct (eqb (to x) e) eqn:Ee; [|exact IH].
      apply eqb_spec in Ee. subst e. rewrite (eqb_comm t), Et. reflexivity.
Qed.

(** What [removeEdge] does to every adjacency array when [from] is a
    vertex. *)
Lemma wRemoveEdge_neighbors (g : WeightedGraph T W) (a b : T) :
  mapGet eqb (wAdjacencyList g) a <> None ->
  exists g',
    wRemoveEdge eqb g a b = (g', wHasEdge eqb g a b) /\
    wDirected g' = wDirected g /\
    forall c,
      NB g' c =
      let l := if eqb a c
               then filter (fun neighbor => negb (eqb (to neighbor) b)) (NB g c)
               else NB g c in
      if negb (wDirected g) && eqb b c
      then filter (fun neighbor => negb (eqb (to neighbor) a)) l else l.
Proof.
  intros Hin. unfold wRemoveEdge, wHasEdge.
  destruct (mapGet eqb (wAdjacencyList g) a) as [la|] eqn:Ea; [|congruence].
  cbv zeta.
  rewrite (length_filter_lt (fun neighbor => eqb (to neighbor) b)).
  assert (Hg : forall c, NB (mkWeighted (wAdjacencyList g) (wDirected g)) c = NB g c)
    by (intros c; destruct g; reflexivity).
  assert (Hla : NB g a = la) by (unfold wGetWeightedNeighbors; rewrite Ea; reflexivity).
  destruct (wDirected g) eqn:Ed; simpl negb; cbv iota.
  - eexists. split; [reflexivity|]. split; [reflexivity|].
    intros c. simpl andb. cbv iota. rewrite neighbors_mapSet.
    destruct (eqb a c) eqn:E.
    + apply eqb_spec in E. subst c. rewrite Hla. reflexivity.
    + rewrite <- Ed. apply Hg.
  - destruct (eqb a b) eqn:Eab.
    + apply eqb_spec in Eab. subst b.
      rewrite (mapGet_mapSet_same eqb eqb_spec).
      eexists. split; [reflexivity|]. split; [reflexivity|].
      intros c. simpl andb. rewrite !neighbors_mapSet.
      destruct (eqb a c) eqn:E.
      * apply eqb_spec in E. subst c. rewrite Hla. reflexivity.
      * rewrite <- Ed. apply Hg.
    + rewrite (mapGet_mapSet_other eqb eqb_spec).
      2:{ intros ->. rewrite (eqb_same eqb eqb_spec) in Eab. discriminate. }
      destruct (mapGet eqb (wAdjacencyList g) b) as [lb|] eqn:Eb.
      * eexists. split; [reflexivity|]. split; [reflexivity|].
        intros c. simpl andb. rewrite !neighbors_mapSet.
        destruct (eqb b c) eqn:Ebc.
        -- apply eqb_spec in Ebc. subst c. rewrite Eab.
           unfold wGetWeightedNeighbors. rewrite Eb. reflexivity.
        -- destruct (eqb a c) eqn:Eac.
           ++ apply eqb_spec in Eac. subst c. rewrite Hla. reflexivity.
           ++ rewrite <- Ed. apply Hg.
      * eexists. split; [reflexivity|]. split; [reflexivity|].
        intros c. simpl andb. rewrite !neighbors_mapSet.
        destruct (eqb b c) eqn:Ebc.
        -- apply eqb_spec in Ebc. subst c. rewrite Eab.
           unfold wGetWeightedNeighbors. simpl. rewrite Eb. reflexivity.
        -- destruct (eqb a c) eqn:Eac.
           ++ apply eqb_spec in Eac. subst c. rewrite Hla. reflexivity.
           ++ rewrite <- Ed. apply Hg.
Qed.
End WeightedProofs.

Section WeightedTheorems.
Context {T W : Type}.
Variable eqb : T -> T -> bool.
Hypothesis eqb_spec : forall a b, eqb a b = true <-> a = b.

#[local] Abbreviation NB' := (wGetWeightedNeighbors eqb).
#[local] Abbreviation touches :=
  (fun (d : bool) (a b c e : T) =>
     (eqb a c && eqb b e) || (negb d && eqb b c && eqb a e)).

Lemma weightsBetween_head (g : WeightedGraph T W) (a b : T) :
  wGetEdgeWeight eqb g a b = hd_error (weightsBetween eqb g a b).
Proof.
  rewrite (wGetEdgeWeight_neighbors eqb). unfold weightsBetween, findEdge.
  induction (NB' g a) as [|x l IH]; simpl; [reflexivity|].
  destruct (eqb (to x) b); [reflexivity | exact IH].
Qed.

Lemma weightsBetween_setFirstWeight (l : list (WeightedEdge T W)) (t b : T)
  (w : W) :
  map weight (filter (fun n => eqb (to n) b) (setFirstWeight eqb l t w)) =
  if eqb t b
  then setHead w (map weight (filter (fun n => eqb (to n) b) l))
  else map weight (filter (fun n => eqb (to n) b) l).
Proof.
  induction l as [|x l IH]; simpl.
  - destruct (eqb t b); reflexivity.
  - destruct (eqb (to x) t) eqn:Et; simpl.
    + apply eqb_spec in Et. subst t.
      destruct (eqb (to x) b); reflexivity.
    + destruct (eqb (to x) b) eqn:Eb; simpl.
      * apply eqb_spec in Eb. subst b.
        rewrite (eqb_comm eqb eqb_spec t), Et in *. rewrite IH. reflexivity.
      * exact IH.
Qed.

Lemma weightsBetween_filter (l : list (WeightedEdge T W)) (t b : T) :
  map weight (filter (fun n => eqb (to n) b)
                     (filter (fun n => negb (eqb (to n) t)) l)) =
  if eqb t b then [] else map weight (filter (fun n => eqb (to n) b) l).
Proof.
  induction l as [|x l IH]; simpl.
  - destruct (eqb t b); reflexivity.
  - destruct (eqb (to x) t) eqn:Et; simpl.
    + apply eqb_spec in Et. subst t. rewrite IH.
      destruct (eqb (to x) b); reflexivity.
    + destruct (eqb (to x) b) eqn:Eb; simpl.
      * apply eqb_spec in Eb. subst b.
        rewrite (eqb_comm eqb eqb_spec t), Et in *. rewrite IH. reflexivity.
      * exact IH.
Qed.

(** X24. [addEdge] of the weighted graph never throws; the edge is there
    afterwards, in both directions when the graph is undirected; an edge
    that was there keeps the weight [getEdgeWeight] reported for it, so
    adding an edge a second time does not change its weight, and only a new
    edge gets the weight passed; no other pair of vertices is touched. *)
Theorem weighted_addEdge_spec (g : WeightedGraph T W) (a b : T) (w : W) :
  exists g',
    wAddEdge eqb g a b w = Some g' /\
    wDirected g' = wDirected g /\
    (forall c e,
       wHasEdge eqb g' c e =
       wHasEdge eqb g c e || touches (wDirected g) a b c e) /\
    (forall c e,
       wGetEdgeWeight eqb g' c e =
       match wGetEdgeWeight eqb g c e with
       | Some w0 => Some w0
       | None => if touches (wDirected g) a b c e then Some w else None
       end).
Proof.
  destruct (wAddEdge_neighbors eqb eqb_spec g a b w) as (g' & E & Hd & Hn).
  exists g'. split; [exact E|]. split; [exact Hd|]. split.
  - intros c e. rewrite !(wHasEdge_neighbors eqb), Hn, !existsb_app.
    destruct (existsb _ (NB' g c)); [reflexivity|]. simpl orb.
    destruct (eqb a c), (negb (wDirected g)), (eqb b c); simpl;
      destruct (eqb b e), (eqb a e); reflexivity.
  - intros c e. rewrite !(wGetEdgeWeight_neighbors eqb), Hn.
    rewrite !(findEdge_app eqb).
    destruct (findEdge eqb (NB' g c) e); [reflexivity|].
    unfold findEdge. simpl option_map.
    destruct (eqb a c), (negb (wDirected g)), (eqb b c); simpl;
      destruct (eqb b e), (eqb a e); reflexivity.
Qed.

(** X25. [updateEdgeWeight] returns whether the edge was there. When it was
    not, nothing changes. When it was, no edge appears or disappears, the
    weight reported for the edge is the new one, also in the other direction
    when the graph is undirected, and every other weight is as before. *)
Theorem weighted_updateEdgeWeight_spec (g : WeightedGraph T W) (a b : T)
  (w : W) :
  exists g',
    wUpdateEdgeWeight eqb g a b w = (g', wHasEdge eqb g a b) /\
    wDirected g' = wDirected g /\
    (wHasEdge eqb g a b = false -> g' = g) /\
    (forall c e, wHasEdge eqb g' c e = wHasEdge eqb g c e) /\
    (wHasEdge eqb g a b = true ->
     forall c e,
       wGetEdgeWeight eqb g' c e =
       if touches (wDirected g) a b c e
       then match wGetEdgeWeight eqb g c e with
            | Some _ => Some w
            | None => None
            end
       else wGetEdgeWeight eqb g c e).
Proof.
  destruct (wHasEdge eqb g a b) eqn:Hh.
  - destruct (wUpdateEdgeWeight_neighbors eqb eqb_spec g a b w Hh)
      as (g' & E & Hd & Hn).
    exists g'. split; [exact E|]. split; [exact Hd|].
    split; [discriminate|]. split.
    + intros c e. rewrite !(wHasEdge_neighbors eqb), Hn. cbv zeta.
      destruct (negb (wDirected g) && eqb b c), (eqb a c);
        rewrite ?existsb_setFirstWeight; reflexivity.
    + intros _ c e. rewrite !weightsBetween_head. unfold weightsBetween.
      rewrite Hn. cbv zeta.
      destruct (negb (wDirected g)); simpl andb.
      * destruct (eqb b c), (eqb a c); simpl;
          rewrite ?weightsBetween_setFirstWeight;
          destruct (eqb a e), (eqb b e); simpl;
          rewrite ?weightsBetween_setFirstWeight;
          try reflexivity;
          destruct (map weight _); reflexivity.
      * destruct (eqb a c); simpl;
          rewrite ?weightsBetween_setFirstWeight;
          destruct (eqb b e); simpl; try reflexivity;
          destruct (map weight _); reflexivity.
  - exists g. rewrite (wUpdateEdgeWeight_missing eqb g a b w Hh).
    split; [reflexivity|]. split; [reflexivity|]. split; [reflexivity|].
    split; [reflexivity | discriminate].
Qed.

Lemma mapGet_None_In (m : list (T * list (WeightedEdge T W))) (k : T) :
  mapGet eqb m k = None <-> ~ In k (mapKeys m).
Proof.
  unfold mapGet, mapKeys. induction m as [|[k0 v0] m IH]; simpl.
  - split; [intros _ [] | reflexivity].
  - destruct (eqb k0 k) eqn:E.
    + apply eqb_spec in E. split; [discriminate|]. intros H. exfalso. auto.
    + rewrite IH. split.
      * intros H [->|Hin]; [|contradiction].
        rewrite (eqb_same eqb eqb_spec) in E. discriminate.
      * intros H Hin. apply H. right. exact Hin.
Qed.

(** X26. [removeEdge] returns whether the edge was there. When [from] is not a
    vertex nothing changes; otherwise every edge from [from] to [to] is gone
    afterwards, parallel ones included, with the edges back from [to] when
    the graph is undirected, and every other edge keeps its weight. *)
Theorem weighted_removeEdge_spec (g : WeightedGraph T W) (a b : T) :
  exists g',
    wRemoveEdge eqb g a b = (g', wHasEdge eqb g a b) /\
    wDirected g' = wDirected g /\
    (~ In a (wGetVertices g) -> g' = g /\ wHasEdge eqb g a b = false) /\
    (In a (wGetVertices g) ->
     forall c e,
       wGetEdgeWeight eqb g' c e =
       if touches (wDirected g) a b c e then None
       else wGetEdgeWeight eqb g c e).
Proof.
  destruct (mapGet eqb (wAdjacencyList g) a) as [la|] eqn:Ea.
  - destruct (wRemoveEdge_neighbors eqb eqb_spec g a b) as (g' & E & Hd & Hn);
      [congruence|].
    exists g'. split; [exact E|]. split; [exact Hd|]. split.
    + intros Hni. apply mapGet_None_In in Hni. unfold wGetVertices in *.
      congruence.
    + intros _ c e. rewrite !weightsBetween_head. unfold weightsBetween.
      rewrite Hn. cbv zeta.
      destruct (negb (wDirected g)); simpl andb.
      * destruct (eqb b c), (eqb a c); simpl;
          rewrite ?weightsBetween_filter;
          destruct (eqb a e), (eqb b e); simpl;
          rewrite ?weightsBetween_filter; reflexivity.
      * destruct (eqb a c); simpl;
          rewrite ?weightsBetween_filter;
          destruct (eqb b e); reflexivity.
  - exists g. unfold wRemoveEdge, wHasEdge. rewrite Ea.
    split; [reflexivity|]. split; [reflexivity|]. split.
    + intros _. split; reflexivity.
    + intros Hin. exfalso. apply mapGet_None_In in Ea. exact (Ea Hin).
Qed.

Lemma setHead_setHead (w : W) (l : list W) :
  setHead w (setHead w l) = setHead w l.
Proof. destruct l; reflexivity. Qed.

Lemma weightsBetween_step (g g' : WeightedGraph T W)
  (op : WeightedOp T W) :
  wDirected g = false ->
  (forall a b, weightsBetween eqb g a b = weightsBetween eqb g b a) ->
  applyWeightedOp eqb g op = Some g' ->
  wDirected g' = false /\
  (forall a b, weightsBetween eqb g' a b = weightsBetween eqb g' b a).
Proof.
  intros Hd Hs. destruct op as [v|x y w|x y w|x y]; simpl.
  - intros H. inversion H; subst g'. split.
    + rewrite (wDirected_wAddVertex eqb). exact Hd.
    + intros a b. unfold weightsBetween.
      rewrite !(neighbors_wAddVertex eqb eqb_spec). apply Hs.
  - destruct (wAddEdge_neighbors eqb eqb_spec g x y w) as (g1 & E & Hd1 & Hn).
    rewrite E. intros H. inversion H; subst g'. split; [congruence|].
    intros a b. unfold weightsBetween. rewrite !Hn, Hd.
    rewrite !filter_app, !map_app. simpl andb.
    specialize (Hs a b). unfold weightsBetween in Hs. rewrite Hs.
    f_equal.
    destruct (eqb x a) eqn:E1, (eqb y b) eqn:E2, (eqb y a) eqn:E3,
             (eqb x b) eqn:E4; simpl;
      rewrite ?E1, ?E2, ?E3, ?E4; reflexivity.
  - destruct (wHasEdge eqb g x y) eqn:Hh.
    + destruct (wUpdateEdgeWeight_neighbors eqb eqb_spec g x y w Hh)
        as (g1 & E & Hd1 & Hn).
      rewrite E. simpl. intros H. inversion H; subst g'.
      split; [congruence|].
      intros a b. unfold weightsBetween. rewrite !Hn, Hd. cbv zeta.
      simpl andb.
      specialize (Hs a b). unfold weightsBetween in Hs.
      destruct (eqb x a) eqn:E1, (eqb y b) eqn:E2, (eqb y a) eqn:E3,
               (eqb x b) eqn:E4;
        rewrite ?weightsBetween_setFirstWeight,
                ?E1, ?E2, ?E3, ?E4, ?Hs, ?setHead_setHead; reflexivity.
    + rewrite (wUpdateEdgeWeight_missing eqb g x y w Hh). simpl.
      intros H. inversion H; subst g'. split; assumption.
  - destruct (mapGet eqb (wAdjacencyList g) x) as [lx|] eqn:Ex.
    + destruct (wRemoveEdge_neighbors eqb eqb_spec g x y) as (g1 & E & Hd1 & Hn);
        [congruence|].
      rewrite E. simpl. intros H. inversion H; subst g'.
      split; [congruence|].
      intros a b. unfold weightsBetween. rewrite !Hn, Hd. cbv zeta.
      simpl andb.
      specialize (Hs a b). unfold weightsBetween in Hs.
      destruct (eqb x a) eqn:E1, (eqb y b) eqn:E2, (eqb y a) eqn:E3,
               (eqb x b) eqn:E4;
        rewrite ?weightsBetween_filter,
                ?E1, ?E2, ?E3, ?E4, ?Hs; reflexivity.
    + unfold wRemoveEdge. rewrite Ex. simpl.
      intros H. inversion H; subst g'. split; assumption.
Qed.

Lemma applyWeightedOps_total (ops : list (WeightedOp T W)) :
  forall g, exists g', applyWeightedOps eqb g ops = Some g'.
Proof.
  unfold applyWeightedOps.
  induction ops as [|op ops IH]; intros g; simpl; [eauto|].
  destruct op as [v|x y w|x y w|x y]; simpl; try apply IH.
  destruct (wAddEdge_neighbors eqb eqb_spec g x y w) as (g1 & E & _).
  rewrite E. apply IH.
Qed.

(** X27. No sequence of [addVertex], [addEdge], [updateEdgeWeight] and
    [removeEdge] calls on a new undirected weighted graph throws, and after
    it the graph answers the same in both directions: [hasEdge(a, b)] is
    [hasEdge(b, a)] and [getEdgeWeight(a, b)] is [getEdgeWeight(b, a)]. *)
Theorem weighted_undirected_symmetric (ops : list (WeightedOp T W)) :
  exists g,
    applyWeightedOps eqb (newWeighted false) ops = Some g /\
    wDirected g = false /\
    forall a b,
      wHasEdge eqb g a b = wHasEdge eqb g b a /\
      wGetEdgeWeight eqb g a b = wGetEdgeWeight eqb g b a.
Proof.
  assert (Hinv : forall (ops : list (WeightedOp T W))
                        (g0 g : WeightedGraph T W),
            wDirected g0 = false ->
            (forall a b, weightsBetween eqb g0 a b = weightsBetween eqb g0 b a) ->
            applyWeightedOps eqb g0 ops = Some g ->
            wDirected g = false /\
            (forall a b, weightsBetween eqb g a b = weightsBetween eqb g b a)).
  { unfold applyWeightedOps. clear ops.
    induction ops as [|op ops IH]; intros g0 g Hd Hs; simpl.
    - intros H. inversion H; subst g. split; assumption.
    - destruct (applyWeightedOp eqb g0 op) as [g1|] eqn:E1.
      + destruct (weightsBetween_step g0 g1 op Hd Hs E1) as [Hd1 Hs1].
        apply IH; assumption.
      + intros H. exfalso. clear - H.
        induction ops as [|o ops IH]; simpl in H; [discriminate | auto]. }
  destruct (applyWeightedOps_total ops (newWeighted false)) as (g & E).
  exists g. split; [exact E|].
  destruct (Hinv ops (newWeighted false) g eq_refl (fun a b => eq_refl) E)
    as [Hd Hs].
  split; [exact Hd|]. intros a b.
  rewrite !(weight_hasEdge eqb), !weightsBetween_head, Hs.
  split; reflexivity.
Qed.
End WeightedTheorems.

Section ArrayFacts.
Context {A : Type}.

Lemma length_listSet (l : list A) (i : nat) (x : A) :
  length (listSet l i x) = length l.
Proof.
  revert i. induction l as [|y l IH]; intros [|i]; simpl; try reflexivity.
  rewrite IH. reflexivity.
Qed.

Lemma nth_error_listSet (l : list A) (i k : nat) (x : A) :
  nth_error (listSet l i x) k =
  if Nat.eqb k i
  then match nth_error l k with Some _ => Some x | None => None end
  else nth_error l k.
Proof.
  revert i k. induction l as [|y l IH]; intros [|i] [|k]; simpl;
    try reflexivity.
  - destruct (Nat.eqb k i); reflexivity.
  - apply IH.
Qed.

Lemma listSet_middle (pre post : list A) (y x : A) :
  listSet (pre ++ y :: post) (length pre) x = pre ++ x :: post.
Proof.
  induction pre as [|z pre IH]; simpl; [reflexivity|].
  rewrite IH. reflexivity.
Qed.

Lemma length_arraySet (row : list (option A)) (j : nat) (w : A) :
  (j < length row)%nat -> length (arraySet row j w) = length row.
Proof.
  revert j. induction row as [|c row IH]; intros [|j]; simpl; try lia.
  intros H. rewrite IH by lia. reflexivity.
Qed.

Lemma nth_arraySet (row : list (option A)) (j k : nat) (w : A) :
  (j < length row)%nat ->
  nth k (arraySet row j w) None =
  if Nat.eqb k j then Some w else nth k row None.
Proof.
  revert j k. induction row as [|c row IH]; intros [|j] [|k]; simpl;
    try lia; try reflexivity.
  intros H. apply IH. lia.
Qed.
End ArrayFacts.

Section CellFacts.

#[local] Abbreviation pushZero :=
  (fun row : list (option Z) => row ++ [Some 0]).

Lemma pushZeros_spec (rest pre tail : list (list (option Z))) :
  pushZeros (pre ++ rest ++ tail) (length pre) (length rest) =
  Some (pre ++ map pushZero rest ++ tail).
Proof.
  revert pre. induction rest as [|r rest IH]; intros pre; simpl.
  - reflexivity.
  - rewrite nth_error_app2 by lia. rewrite Nat.sub_diag. simpl.
    rewrite listSet_middle.
    specialize (IH (pre ++ [r ++ [Some 0]])).
    rewrite length_app in IH. simpl in IH.
    rewrite Nat.add_1_r in IH. rewrite <- !app_assoc in IH. simpl in IH.
    exact IH.
Qed.

Lemma nth_repeat_zero (n j : nat) :
  (j < n)%nat -> nth j (repeat (Some 0) n) (@None Z) = Some 0.
Proof.
  revert j. induction n as [|n IH]; intros [|j] H; simpl;
    try lia; try reflexivity.
  apply IH. lia.
Qed.

(** The matrix after [addVertex] has run on a square one. *)
Lemma grow_spec (n : nat) (m : list (list (option Z))) :
  isSquare n m ->
  isSquare (S n) (map pushZero m ++ [repeat (Some 0) (S n)]) /\
  (forall i j, (i < n)%nat -> (j < n)%nat ->
     readCell (map pushZero m ++ [repeat (Some 0) (S n)]) i j = readCell m i j) /\
  (forall i j, (i < S n)%nat -> (j < S n)%nat -> i = n \/ j = n ->
     readCell (map pushZero m ++ [repeat (Some 0) (S n)]) i j = Some (Some 0)).
Proof.
  intros [Hlen Hcell].
  assert (Hrow : forall i, (i < n)%nat ->
            exists row, nth_error m i = Some row /\ length row = n).
  { intros i Hi. destruct (Hcell i i Hi Hi) as (row & z & Hr & Hl & _).
    exists row. split; assumption. }
  assert (Hold : forall i, (i < n)%nat -> forall row,
            nth_error m i = Some row ->
            nth_error (map pushZero m ++ [repeat (Some 0) (S n)]) i =
            Some (row ++ [Some 0])).
  { intros i Hi row Hr. rewrite nth_error_app1 by (rewrite length_map; lia).
    rewrite nth_error_map, Hr. reflexivity. }
  assert (Hnew : nth_error (map pushZero m ++ [repeat (Some 0) (S n)]) n =
                 Some (repeat (Some 0) (S n))).
  { rewrite nth_error_app2 by (rewrite length_map; lia).
    rewrite length_map, Hlen, Nat.sub_diag. reflexivity. }
  split; [|split].
  - split.
    + rewrite length_app, length_map. simpl. lia.
    + intros i j Hi Hj. destruct (Nat.eq_dec i n) as [->|Hne].
      * exists (repeat (Some 0) (S n)), 0. split; [exact Hnew|].
        split; [apply repeat_length | apply nth_repeat_zero; exact Hj].
      * assert (Hi' : (i < n)%nat) by lia.
        destruct (Nat.eq_dec j n) as [->|Hnj].
        -- destruct (Hrow i Hi') as (row & Hr & Hl).
           exists (row ++ [Some 0]), 0. split; [apply Hold; assumption|].
           split; [rewrite length_app; simpl; lia|].
           rewrite app_nth2 by lia. rewrite Hl, Nat.sub_diag. reflexivity.
        -- destruct (Hcell i j Hi') as (row & z & Hr & Hl & Hz); [lia|].
           exists (row ++ [Some 0]), z. split; [apply Hold; assumption|].
           split; [rewrite length_app; simpl; lia|].
           rewrite app_nth1 by lia. exact Hz.
  - intros i j Hi Hj. unfold readCell.
    destruct (Hrow i Hi) as (row & Hr & Hl).
    rewrite (Hold i Hi row Hr), Hr. rewrite app_nth1 by lia. reflexivity.
  - intros i j Hi Hj Hor. unfold readCell.
    destruct (Nat.eq_dec i n) as [->|Hne].
    + rewrite Hnew. rewrite nth_repeat_zero by exact Hj. reflexivity.
    + assert (Hi' : (i < n)%nat) by lia.
      destruct (Hrow i Hi') as (row & Hr & Hl).
      rewrite (Hold i Hi' row Hr).
      assert (j = n) by lia. subst j.
      rewrite app_nth2 by lia. rewrite Hl, Nat.sub_diag. reflexivity.
Qed.

(** A write inside a square matrix. *)
Lemma writeCell_spec (n : nat) (m : list (list (option Z))) (i j : nat)
  (w : Z) :
  isSquare n m -> (i < n)%nat -> (j < n)%nat ->
  exists m',
    writeCell m i j w = Some m' /\
    isSquare n m' /\
    forall a b,
      readCell m' a b =
      if Nat.eqb a i && Nat.eqb b j then Some (Some w) else readCell m a b.
Proof.
  intros [Hlen Hcell] Hi Hj. unfold writeCell.
  destruct (Hcell i j Hi Hj) as (row & z & Hr & Hl & Hz).
  rewrite Hr. eexists. split; [reflexivity|]. split.
  - split; [rewrite length_listSet; exact Hlen|].
    intros a b Ha Hb. rewrite nth_error_listSet.
    destruct (Hcell a b Ha Hb) as (rowa & za & Hra & Hla & Hza).
    destruct (Nat.eqb_spec a i) as [->|Hne].
    + rewrite Hr. rewrite Hr in Hra. inversion Hra; subst rowa.
      destruct (Nat.eqb_spec b j) as [->|Hnb].
      * exists (arraySet row j w), w. split; [reflexivity|].
        split; [rewrite length_arraySet; lia|].
        rewrite nth_arraySet by lia. rewrite Nat.eqb_refl. reflexivity.
      * exists (arraySet row j w), za. split; [reflexivity|].
        split; [rewrite length_arraySet; lia|].
        rewrite nth_arraySet by lia.
        destruct (Nat.eqb_spec b j); [contradiction | exact Hza].
    + exists rowa, za. split; [exact Hra|]. split; assumption.
  - intros a b. unfold readCell. rewrite nth_error_listSet.
    destruct (Nat.eqb_spec a i) as [->|Hne]; simpl andb; [|reflexivity].
    rewrite Hr. rewrite nth_arraySet by lia.
    destruct (Nat.eqb b j); reflexivity.
Qed.

Lemma readCell_square (n : nat) (m : list (list (option Z))) (i j : nat) :
  isSquare n m -> (i < n)%nat -> (j < n)%nat ->
  exists z, readCell m i j = Some (Some z).
Proof.
  intros [_ Hcell] Hi Hj. destruct (Hcell i j Hi Hj) as (row & z & Hr & _ & Hz).
  exists z. unfold readCell. rewrite Hr, Hz. reflexivity.
Qed.
End CellFacts.

Section MatrixProofs.
Context {T : Type}.
Variable eqb : T -> T -> bool.
Hypothesis eqb_spec : forall a b, eqb a b = true <-> a = b.

#[local] Abbreviation idx :=
  (fun (g : GraphMatrix T) (x : T) => mapGet eqb (vertexMap g) x).
#[local] Abbreviation joins :=
  (fun (d : bool) (a b c e : T) =>
     (eqb a c && eqb b e) || (negb d && eqb b c && eqb a e)).

Lemma index_bound (g : GraphMatrix T) (v : T) (i : nat) :
  indexed eqb g -> idx g v = Some i -> (i < length (vertices g))%nat.
Proof.
  intros Hix H. apply Hix in H. apply nth_error_Some. congruence.
Qed.

Lemma index_eqb (g : GraphMatrix T) (a c : T) (i k : nat) :
  indexed eqb g -> idx g a = Some i -> idx g c = Some k ->
  Nat.eqb k i = eqb a c.
Proof.
  intros Hix Ha Hc. destruct (Nat.eqb_spec k i) as [->|Hne].
  - apply Hix in Ha, Hc. symmetry. apply eqb_spec. congruence.
  - symmetry. apply (eqb_other eqb eqb_spec). intros ->. congruence.
Qed.

Lemma mHasEdge_weight (g : GraphMatrix T) (a b : T) :
  mHasEdge eqb g a b = option_map notZero (mGetEdgeWeight eqb g a b).
Proof.
  unfold mHasEdge, mGetEdgeWeight.
  destruct (idx g a); [|reflexivity].
  destruct (idx g b); [|reflexivity].
  destruct (readCell (matrix g) n n0); reflexivity.
Qed.

Lemma joins_indexed (g : GraphMatrix T) (d : bool) (a b c e : T) :
  idx g a <> None -> idx g b <> None ->
  idx g c = None \/ idx g e = None ->
  joins d a b c e = false.
Proof.
  intros Ha Hb Hor.
  destruct (joins d a b c e) eqn:Hj; [|reflexivity].
  exfalso. apply orb_true_iff in Hj. destruct Hj as [Hj|Hj].
  - apply andb_true_iff in Hj. destruct Hj as [H1 H2].
    apply eqb_spec in H1, H2. subst c e. destruct Hor; contradiction.
  - apply andb_true_iff in Hj. destruct Hj as [Hj H2].
    apply andb_true_iff in Hj. destruct Hj as [_ H1].
    apply eqb_spec in H1, H2. subst c e. destruct Hor; contradiction.
Qed.

Lemma joins_missing (g : GraphMatrix T) (d : bool) (a b c e : T) :
  idx g a = None \/ idx g b = None ->
  joins d a b c e = true ->
  mGetEdgeWeight eqb g c e = Some (Some 0).
Proof.
  intros Hor Hj. unfold mGetEdgeWeight.
  apply orb_true_iff in Hj. destruct Hj as [Hj|Hj].
  - apply andb_true_iff in Hj. destruct Hj as [H1 H2].
    apply eqb_spec in H1, H2. subst c e.
    destruct Hor as [-> | ->]; [reflexivity|].
    destruct (idx g a); reflexivity.
  - apply andb_true_iff in Hj. destruct Hj as [Hj H2].
    apply andb_true_iff in Hj. destruct Hj as [_ H1].
    apply eqb_spec in H1, H2. subst c e.
    destruct Hor as [-> | ->]; [|reflexivity].
    destruct (idx g b); reflexivity.
Qed.

(** [addVertex] on a well-formed matrix graph. *)
Lemma mAddVertex_ok (g : GraphMatrix T) (v : T) :
  matrixOk eqb g ->
  exists g',
    mAddVertex eqb g v = Some g' /\
    matrixOk eqb g' /\
    mDirected g' = mDirected g /\
    (forall c e, mGetEdgeWeight eqb g' c e = mGetEdgeWeight eqb g c e) /\
    idx g' v <> None /\
    (forall x, idx g x <> None -> idx g' x <> None) /\
    (forall x, In x (vertices g') <-> In x (vertices g) \/ x = v).
Proof.
  intros (Hsq & Hix & Hsym). unfold mAddVertex, mapHas.
  destruct (idx g v) as [i|] eqn:Ev.
  - exists g. split; [reflexivity|].
    split; [exact (conj Hsq (conj Hix Hsym))|]. split; [reflexivity|].
    split; [reflexivity|]. split; [congruence|]. split; [auto|].
    intros x. split; [tauto|]. intros [H| ->]; [exact H|].
    apply Hix in Ev. apply nth_error_In in Ev. exact Ev.
  - cbv zeta. set (n := length (vertices g)).
    assert (Hlen : length (matrix g) = n) by (destruct Hsq; assumption).
    replace (length (vertices g ++ [v]) - 1)%nat with (length (matrix g))
      by (rewrite length_app; simpl; fold n; lia).
    replace (length (vertices g ++ [v])) with (S n)
      by (rewrite length_app; simpl; fold n; lia).
    pose proof (pushZeros_spec (matrix g) [] [repeat (Some 0) (S n)]) as Hp.
    cbn [app length] in Hp. rewrite Hp. clear Hp.
    destruct (grow_spec n (matrix g) Hsq) as (Hsq' & Hold & Hnew).
    set (m' := map (fun row => row ++ [Some 0]) (matrix g)
                 ++ [repeat (Some 0) (S n)]) in *.
    assert (Hget : forall x,
              mapGet eqb (mapSet eqb (vertexMap g) v n) x =
              if eqb v x then Some n else idx g x).
    { intros x. destruct (eqb v x) eqn:E.
      - apply eqb_spec in E. subst x.
        apply (mapGet_mapSet_same eqb eqb_spec).
      - apply (mapGet_mapSet_other eqb eqb_spec). intros ->.
        rewrite (eqb_same eqb eqb_spec) in E. discriminate. }
    assert (Hix' : indexed eqb (mkMatrix m' (vertices g ++ [v])
                                  (mapSet eqb (vertexMap g) v n) (mDirected g))).
    { intros x i. simpl. rewrite Hget. destruct (eqb v x) eqn:E.
      - apply eqb_spec in E. subst x. split.
        + intros H. inversion H; subst i.
          rewrite nth_error_app2 by (fold n; lia). fold n.
          rewrite Nat.sub_diag. reflexivity.
        + intros H. destruct (Nat.lt_ge_cases i n) as [Hlt|Hge].
          * rewrite nth_error_app1 in H by exact Hlt.
            apply Hix in H. congruence.
          * assert (Hb : (i < length (vertices g ++ [v]))%nat)
              by (apply nth_error_Some; congruence).
            rewrite length_app in Hb. simpl in Hb. fold n in Hb.
            f_equal. lia.
      - rewrite (Hix x i). split.
        + intros H. rewrite nth_error_app1; [exact H|].
          apply nth_error_Some. congruence.
        + intros H. destruct (Nat.lt_ge_cases i n) as [Hlt|Hge].
          * rewrite nth_error_app1 in H by exact Hlt. exact H.
          * rewrite nth_error_app2 in H by exact Hge. fold n in H.
            destruct (i - n)%nat as [|k]; simpl in H.
            -- inversion H; subst x.
               rewrite (eqb_same eqb eqb_spec) in E. discriminate.
            -- destruct k; discriminate. }
    assert (Hlen' : length (vertices g ++ [v]) = S n)
      by (rewrite length_app; simpl; fold n; lia).
    eexists. split; [reflexivity|]. split; [|split; [reflexivity|split; [|split; [|split]]]].
    + split; [|split; [exact Hix'|]].
      * simpl. rewrite Hlen'. exact Hsq'.
      * simpl. rewrite Hlen'. intros Hd i j Hi Hj.
        destruct (Nat.eq_dec i n) as [Hin|Hin];
          [rewrite !Hnew by lia; reflexivity|].
        destruct (Nat.eq_dec j n) as [Hjn|Hjn];
          [rewrite !Hnew by lia; reflexivity|].
        rewrite !Hold by lia. apply Hsym; [exact Hd | fold n; lia | fold n; lia].
    + intros c e. unfold mGetEdgeWeight. simpl. rewrite !Hget.
      destruct (eqb v c) eqn:Ec.
      * apply eqb_spec in Ec. subst c. rewrite Ev.
        destruct (eqb v e) eqn:Ee; [apply Hnew; lia|].
        destruct (idx g e) as [ei|] eqn:Eei; [|reflexivity].
        apply Hnew; try lia. apply (index_bound g e ei Hix) in Eei.
        fold n in Eei. lia.
      * destruct (idx g c) as [ci|] eqn:Eci; [|reflexivity].
        pose proof (index_bound g c ci Hix Eci) as Hci. fold n in Hci.
        destruct (eqb v e) eqn:Ee.
        -- apply eqb_spec in Ee. subst e. rewrite Ev. apply Hnew; lia.
        -- destruct (idx g e) as [ei|] eqn:Eei; [|reflexivity].
           pose proof (index_bound g e ei Hix Eei) as Hei. fold n in Hei.
           apply Hold; assumption.
    + simpl. rewrite Hget, (eqb_same eqb eqb_spec). discriminate.
    + intros x Hx. simpl. rewrite Hget. destruct (eqb v x); [discriminate | exact Hx].
    + intros x. simpl. rewrite in_app_iff. simpl. intuition.
Qed.

(** The writes of [addEdge] and [removeEdge], once both indices are
    found. *)
Lemma writeEdge_ok (g : GraphMatrix T) (a b : T) (fi ti : nat) (w : Z) :
  matrixOk eqb g -> idx g a = Some fi -> idx g b = Some ti ->
  exists m1 m2,
    writeCell (matrix g) fi ti w = Some m1 /\
    (if negb (mDirected g) then writeCell m1 ti fi w = Some m2 else m2 = m1) /\
    matrixOk eqb (mkMatrix m2 (vertices g) (vertexMap g) (mDirected g)) /\
    forall c e,
      mGetEdgeWeight eqb
        (mkMatrix m2 (vertices g) (vertexMap g) (mDirected g)) c e =
      if joins (mDirected g) a b c e then Some (Some w)
      else mGetEdgeWeight eqb g c e.
Proof.
  intros (Hsq & Hix & Hsym) Ha Hb.
  pose proof (index_bound g a fi Hix Ha) as Hfi.
  pose proof (index_bound g b ti Hix Hb) as Hti.
  destruct (writeCell_spec _ (matrix g) fi ti w Hsq Hfi Hti)
    as (m1 & E1 & Hsq1 & Hc1).
  exists m1.
  assert (Hix' : forall m, indexed eqb
            (mkMatrix m (vertices g) (vertexMap g) (mDirected g)))
    by (intros m; exact Hix).
  destruct (mDirected g) eqn:Ed; simpl negb; cbv iota.
  - exists m1. split; [exact E1|]. split; [reflexivity|]. split.
    + split; [exact Hsq1|]. split; [apply Hix' | discriminate].
    + intros c e. unfold mGetEdgeWeight. simpl.
      destruct (idx g c) as [ci|] eqn:Eci.
      2:{ assert (Hj : joins true a b c e = false)
            by (apply (joins_indexed g); [congruence | congruence
                                          | left; exact Eci]).
          simpl in Hj. rewrite Hj. reflexivity. }
      destruct (idx g e) as [ei|] eqn:Eei.
      2:{ assert (Hj : joins true a b c e = false)
            by (apply (joins_indexed g); [congruence | congruence
                                          | right; exact Eei]).
          simpl in Hj. rewrite Hj. reflexivity. }
      rewrite Hc1, (index_eqb g a c fi ci Hix Ha Eci),
              (index_eqb g b e ti ei Hix Hb Eei).
      simpl. rewrite orb_false_r. reflexivity.
  - destruct (writeCell_spec _ m1 ti fi w Hsq1 Hti Hfi)
      as (m2 & E2 & Hsq2 & Hc2).
    exists m2. split; [exact E1|]. split; [exact E2|]. split.
    + split; [exact Hsq2|]. split; [apply Hix'|].
      simpl. intros _ i j Hi Hj. rewrite !Hc2, !Hc1.
      rewrite (Hsym eq_refl i j Hi Hj).
      destruct (Nat.eqb i ti), (Nat.eqb j fi), (Nat.eqb i fi), (Nat.eqb j ti);
        reflexivity.
    + intros c e. unfold mGetEdgeWeight. simpl.
      destruct (idx g c) as [ci|] eqn:Eci.
      2:{ assert (Hj : joins false a b c e = false)
            by (apply (joins_indexed g); [congruence | congruence
                                          | left; exact Eci]).
          simpl in Hj. rewrite Hj. reflexivity. }
      destruct (idx g e) as [ei|] eqn:Eei.
      2:{ assert (Hj : joins false a b c e = false)
            by (apply (joins_indexed g); [congruence | congruence
                                          | right; exact Eei]).
          simpl in Hj. rewrite Hj. reflexivity. }
      rewrite Hc2, Hc1, (index_eqb g a c fi ci Hix Ha Eci),
              (index_eqb g b e ti ei Hix Hb Eei),
              (index_eqb g b c ti ci Hix Hb Eci),
              (index_eqb g a e fi ei Hix Ha Eei).
      simpl. destruct (eqb a c), (eqb b e), (eqb b c), (eqb a e); reflexivity.
Qed.

(** [addEdge] on a well-formed matrix graph. *)
Lemma mAddEdge_ok (g : GraphMatrix T) (a b : T) (w : Z) :
  matrixOk eqb g ->
  exists g',
    mAddEdge eqb g a b w = Some g' /\
    matrixOk eqb g' /\
    mDirected g' = mDirected g /\
    (forall c e,
       mGetEdgeWeight eqb g' c e =
       if joins (mDirected g) a b c e then Some (Some w)
       else mGetEdgeWeight eqb g c e) /\
    (forall x, In x (vertices g') <-> In x (vertices g) \/ x = a \/ x = b).
Proof.
  intros Hok. unfold mAddEdge.
  destruct (mAddVertex_ok g a Hok)
    as (g1 & E1 & Hok1 & Hd1 & Hw1 & Ha1 & _ & Hv1).
  destruct (mAddVertex_ok g1 b Hok1)
    as (g2 & E2 & Hok2 & Hd2 & Hw2 & Hb2 & Hk2 & Hv2).
  rewrite E1. simpl. rewrite E2. simpl.
  specialize (Hk2 a Ha1).
  destruct (idx g2 a) as [fi|] eqn:Efi; [|congruence].
  destruct (idx g2 b) as [ti|] eqn:Eti; [|congruence].
  destruct (writeEdge_ok g2 a b fi ti w Hok2 Efi Eti)
    as (m1 & m2 & Em1 & Em2 & Hok' & Hw').
  rewrite Em1. simpl.
  assert (Hd : mDirected g2 = mDirected g) by congruence.
  assert (Hv : forall x, In x (vertices g2) <->
                         In x (vertices g) \/ x = a \/ x = b).
  { intros x. rewrite Hv2, Hv1. tauto. }
  assert (Hfin : forall c e,
            mGetEdgeWeight eqb
              (mkMatrix m2 (vertices g2) (vertexMap g2) (mDirected g2)) c e =
            if joins (mDirected g) a b c e then Some (Some w)
            else mGetEdgeWeight eqb g c e).
  { intros c e. rewrite Hw', Hd, Hw2, Hw1. reflexivity. }
  clear Hw'.
  destruct (negb (mDirected g2)) eqn:En.
  - rewrite Em2. simpl. eexists. split; [reflexivity|].
    split; [exact Hok'|]. split; [exact Hd|]. split; [exact Hfin | exact Hv].
  - subst m2. eexists. split; [reflexivity|].
    split; [exact Hok'|]. split; [exact Hd|]. split; [exact Hfin | exact Hv].
Qed.

(** [removeEdge] on a well-formed matrix graph. *)
Lemma mRemoveEdge_ok (g : GraphMatrix T) (a b : T) :
  matrixOk eqb g ->
  exists g' r,
    mRemoveEdge eqb g a b = Some (g', r) /\
    mHasEdge eqb g a b = Some r /\
    matrixOk eqb g' /\
    mDirected g' = mDirected g /\
    vertices g' = vertices g /\
    forall c e,
      mGetEdgeWeight eqb g' c e =
      if joins (mDirected g) a b c e then Some (Some 0)
      else mGetEdgeWeight eqb g c e.
Proof.
  intros Hok. unfold mRemoveEdge, mHasEdge.
  assert (Hmiss : idx g a = None \/ idx g b = None ->
            forall c e,
              mGetEdgeWeight eqb g c e =
              if joins (mDirected g) a b c e then Some (Some 0)
              else mGetEdgeWeight eqb g c e).
  { intros Hor c e. destruct (joins (mDirected g) a b c e) eqn:Ej;
      [|reflexivity].
    apply (joins_missing g (mDirected g) a b c e Hor Ej). }
  destruct (idx g a) as [fi|] eqn:Efi.
  2:{ exists g, false. split; [reflexivity|]. split; [reflexivity|].
      split; [exact Hok|]. split; [reflexivity|]. split; [reflexivity|].
      apply Hmiss. left; reflexivity. }
  destruct (idx g b) as [ti|] eqn:Eti.
  2:{ exists g, false. split; [reflexivity|]. split; [reflexivity|].
      split; [exact Hok|]. split; [reflexivity|]. split; [reflexivity|].
      apply Hmiss. right; reflexivity. }
  destruct Hok as (Hsq & Hix & Hsym).
  destruct (readCell_square _ (matrix g) fi ti Hsq
              (index_bound g a fi Hix Efi) (index_bound g b ti Hix Eti))
    as (z & Hz).
  rewrite Hz. simpl.
  destruct (writeEdge_ok g a b fi ti 0 (conj Hsq (conj Hix Hsym)) Efi Eti)
    as (m1 & m2 & Em1 & Em2 & Hok' & Hw').
  rewrite Em1. simpl.
  destruct (negb (mDirected g)) eqn:En.
  - rewrite Em2. simpl. eexists. eexists. split; [reflexivity|].
    split; [reflexivity|]. split; [exact Hok'|].
    split; [reflexivity|]. split; [reflexivity | exact Hw'].
  - subst m2. eexists. eexists. split; [reflexivity|].
    split; [reflexivity|]. split; [exact Hok'|].
    split; [reflexivity|]. split; [reflexivity | exact Hw'].
Qed.

Lemma matrixOk_new (d : bool) : matrixOk eqb (newMatrix d).
Proof.
  split; [|split].
  - split; [reflexivity|]. simpl. intros i j Hi. lia.
  - intros v i. simpl. unfold mapGet. simpl. split; [discriminate|].
    destruct i; discriminate.
  - simpl. intros _ i j Hi. lia.
Qed.

Lemma applyMatrixOps_ok (ops : list (MatrixOp T)) :
  forall g, matrixOk eqb g ->
  exists g',
    applyMatrixOps eqb g ops = Some g' /\ matrixOk eqb g' /\
    mDirected g' = mDirected g.
Proof.
  unfold applyMatrixOps.
  induction ops as [|op ops IH]; intros g Hok; simpl.
  - exists g. split; [reflexivity|]. split; [exact Hok | reflexivity].
  - assert (Hstep : exists g1, applyMatrixOp eqb g op = Some g1 /\
                               matrixOk eqb g1 /\ mDirected g1 = mDirected g).
    { destruct op as [v|a b w|a b]; simpl.
      - destruct (mAddVertex_ok g v Hok) as (g1 & E & Hok1 & Hd & _).
        exists g1. split; [exact E|]. split; assumption.
      - destruct (mAddEdge_ok g a b w Hok) as (g1 & E & Hok1 & Hd & _).
        exists g1. split; [exact E|]. split; assumption.
      - destruct (mRemoveEdge_ok g a b Hok) as (g1 & r & E & _ & Hok1 & Hd & _).
        exists g1. rewrite E. split; [reflexivity|]. split; assumption. }
    destruct Hstep as (g1 & E1 & Hok1 & Hd1). rewrite E1.
    destruct (IH g1 Hok1) as (g' & E & Hok' & Hd').
    exists g'. split; [exact E|]. split; [exact Hok' | congruence].
Qed.

Lemma neighborsLoop_spec (m : list (list (option Z))) (index : nat)
  (vs : list T) :
  forall i acc,
    (forall k, (k < length vs)%nat ->
               exists z, readCell m index (i + k) = Some (Some z)) ->
    exists l,
      neighborsLoop m index i vs acc = Some l /\
      forall x,
        In x l <->
        In x acc \/
        exists k c, nth_error vs k = Some x /\
                    readCell m index (i + k) = Some c /\ notZero c = true.
Proof.
  induction vs as [|v vs IH]; intros i acc Hread; simpl.
  - exists acc. split; [reflexivity|]. intros x. split; [tauto|].
    intros [H|(k & c & Hk & _)]; [exact H|]. destruct k; discriminate.
  - destruct (Hread 0%nat) as (z & Hz); [simpl; lia|].
    rewrite Nat.add_0_r in Hz. rewrite Hz. simpl.
    destruct (IH (S i) (if notZero (Some z) then acc ++ [v] else acc))
      as (l & E & Hl).
    { intros k Hk. destruct (Hread (S k)) as (z' & Hz'); [simpl; lia|].
      exists z'. rewrite <- Hz'. f_equal. lia. }
    exists l. split; [exact E|]. intros x. rewrite Hl. split.
    + intros [H|(k & c & Hk & Hc & Hn)].
      * destruct (notZero (Some z)) eqn:En; [|left; exact H].
        apply in_app_iff in H. destruct H as [H|[<-|[]]]; [left; exact H|].
        right. exists 0%nat, (Some z). rewrite Nat.add_0_r.
        split; [reflexivity|]. split; assumption.
      * right. exists (S k), c. split; [exact Hk|].
        split; [|exact Hn]. rewrite <- Hc. f_equal. lia.
    + intros [H|(k & c & Hk & Hc & Hn)].
      * left. destruct (notZero (Some z)); [|exact H].
        apply in_app_iff. left. exact H.
      * destruct k as [|k].
        -- simpl in Hk. inversion Hk; subst x. rewrite Nat.add_0_r in Hc.
           rewrite Hz in Hc. inversion Hc; subst c. rewrite Hn.
           left. apply in_app_iff. right. left. reflexivity.
        -- right. exists k, c. split; [exact Hk|]. split; [|exact Hn].
           rewrite <- Hc. f_equal. lia.
Qed.

Lemma mGetNeighbors_ok (g : GraphMatrix T) (v : T) :
  matrixOk eqb g ->
  exists l,
    mGetNeighbors eqb g v = Some l /\
    forall x, In x l <-> mHasEdge eqb g v x = Some true.
Proof.
  intros (Hsq & Hix & _). unfold mGetNeighbors, mHasEdge.
  destruct (idx g v) as [i|] eqn:Ei.
  - pose proof (index_bound g v i Hix Ei) as Hi.
    destruct (neighborsLoop_spec (matrix g) i (vertices g) 0%nat [])
      as (l & E & Hl).
    { intros k Hk. simpl. apply (readCell_square _ _ _ _ Hsq Hi Hk). }
    exists l. split; [exact E|]. intros x. rewrite Hl. simpl. split.
    + intros [[]|(k & c & Hk & Hc & Hn)].
      apply Hix in Hk. rewrite Hk, Hc. simpl. rewrite Hn. reflexivity.
    + intros H. right. destruct (idx g x) as [k|] eqn:Ek; [|discriminate].
      destruct (readCell (matrix g) i k) as [c|] eqn:Ec; [|discriminate].
      simpl in H. exists k, c. split; [apply Hix; exact Ek|].
      split; [exact Ec | congruence].
  - exists []. split; [reflexivity|]. intros x. split; [intros [] | discriminate].
Qed.
End MatrixProofs.

Section MatrixTheorems.
Context {T : Type}.
Variable eqb : T -> T -> bool.
Hypothesis eqb_spec : forall a b, eqb a b = true <-> a = b.

#[local] Abbreviation links :=
  (fun (d : bool) (a b c e : T) =>
     (eqb a c && eqb b e) || (negb d && eqb b c && eqb a e)).

Lemma reachable_matrixOk (d : bool) (ops : list (MatrixOp T))
  (g : GraphMatrix T) :
  applyMatrixOps eqb (newMatrix d) ops = Some g ->
  matrixOk eqb g /\ mDirected g = d.
Proof.
  intros H.
  destruct (applyMatrixOps_ok eqb eqb_spec ops (newMatrix d)
              (matrixOk_new eqb d)) as (g' & E & Hok & Hd).
  rewrite E in H. inversion H; subst g'. split; assumption.
Qed.

(** X28. No sequence of [addVertex], [addEdge] and [removeEdge] calls on a new
    matrix graph throws. After it the matrix is a square whose side is the
    number of vertices, no vertex is listed twice, every weight read is a
    number and [hasEdge] says whether it is not zero, the weights of an
    undirected graph are the same in both directions, and [getNeighbors]
    lists exactly the vertices [hasEdge] accepts. *)
Theorem matrix_invariants (d : bool) (ops : list (MatrixOp T)) :
  exists g,
    applyMatrixOps eqb (newMatrix d) ops = Some g /\
    mDirected g = d /\
    length (getMatrix g) = length (mGetVertices g) /\
    Forall (fun row => length row = length (mGetVertices g)) (getMatrix g) /\
    NoDup (mGetVertices g) /\
    (forall a b, exists z,
       mGetEdgeWeight eqb g a b = Some (Some z) /\
       mHasEdge eqb g a b = Some (negb (z =? 0))) /\
    (d = false ->
     forall a b, mGetEdgeWeight eqb g a b = mGetEdgeWeight eqb g b a) /\
    (forall v, exists l,
       mGetNeighbors eqb g v = Some l /\
       forall x, In x l <-> mHasEdge eqb g v x = Some true).
Proof.
  destruct (applyMatrixOps_ok eqb eqb_spec ops (newMatrix d)
              (matrixOk_new eqb d)) as (g & E & Hok & Hd).
  simpl in Hd.
  exists g. split; [exact E|]. split; [exact Hd|].
  pose proof Hok as (Hsq & Hix & Hsym).
  unfold getMatrix, mGetVertices. rewrite map_id.
  assert (Hw : forall a b, exists z, mGetEdgeWeight eqb g a b = Some (Some z)).
  { intros a b. unfold mGetEdgeWeight.
    destruct (mapGet eqb (vertexMap g) a) as [i|] eqn:Ea; [|exists 0; reflexivity].
    destruct (mapGet eqb (vertexMap g) b) as [j|] eqn:Eb; [|exists 0; reflexivity].
    apply (readCell_square _ _ _ _ Hsq);
      [apply (index_bound eqb g a i Hix Ea) | apply (index_bound eqb g b j Hix Eb)]. }
  split; [destruct Hsq; assumption|]. split; [|split; [|split; [|split]]].
  - apply Forall_forall. intros row Hin.
    apply In_nth_error in Hin. destruct Hin as (i & Hi).
    assert (Hlt : (i < length (matrix g))%nat)
      by (apply nth_error_Some; congruence).
    destruct Hsq as [Hlen Hcell]. rewrite Hlen in Hlt.
    destruct (Hcell i i Hlt Hlt) as (row' & z & Hr & Hl & _).
    congruence.
  - apply NoDup_nth_error. intros i j Hi Hij.
    destruct (nth_error (vertices g) i) as [v|] eqn:Ev;
      [|apply nth_error_None in Ev; lia].
    symmetry in Hij. apply Hix in Ev, Hij. congruence.
  - intros a b. destruct (Hw a b) as (z & Hz). exists z.
    split; [exact Hz|]. rewrite (mHasEdge_weight eqb), Hz. reflexivity.
  - intros Hdf a b. unfold mGetEdgeWeight.
    destruct (mapGet eqb (vertexMap g) a) as [i|] eqn:Ea;
      destruct (mapGet eqb (vertexMap g) b) as [j|] eqn:Eb; try reflexivity.
    apply Hsym; [congruence | apply (index_bound eqb g a i Hix Ea)
                 | apply (index_bound eqb g b j Hix Eb)].
  - intros v. apply (mGetNeighbors_ok eqb g v Hok).
Qed.

(** X29. On a matrix graph the class can reach, [addEdge] never throws, puts
    the weight passed on the pair, replacing what was there, also in the
    other direction when the graph is undirected, and leaves every other
    pair as it was; [hasEdge] accepts the pair afterwards only when the
    weight is not zero. *)
Theorem matrix_addEdge_spec (d : bool) (ops : list (MatrixOp T))
  (g : GraphMatrix T) (a b : T) (w : Z) :
  applyMatrixOps eqb (newMatrix d) ops = Some g ->
  exists g',
    mAddEdge eqb g a b w = Some g' /\
    mHasEdge eqb g' a b = Some (negb (w =? 0)) /\
    (forall c e,
       mGetEdgeWeight eqb g' c e =
       if links d a b c e then Some (Some w) else mGetEdgeWeight eqb g c e) /\
    (forall x,
       In x (mGetVertices g') <-> In x (mGetVertices g) \/ x = a \/ x = b).
Proof.
  intros Hr. destruct (reachable_matrixOk d ops g Hr) as [Hok Hd].
  destruct (mAddEdge_ok eqb eqb_spec g a b w Hok)
    as (g' & E & _ & _ & Hw & Hv).
  rewrite Hd in Hw.
  exists g'. split; [exact E|]. split; [|split; [exact Hw | exact Hv]].
  rewrite (mHasEdge_weight eqb), Hw, !(eqb_same eqb eqb_spec). reflexivity.
Qed.

(** X30. On a matrix graph the class can reach, [removeEdge] never throws and
    returns what [hasEdge] said; afterwards the weight of the pair is zero,
    also in the other direction when the graph is undirected, every other
    pair is as it was, and no vertex is removed. *)
Theorem matrix_removeEdge_spec (d : bool) (ops : list (MatrixOp T))
  (g : GraphMatrix T) (a b : T) :
  applyMatrixOps eqb (newMatrix d) ops = Some g ->
  exists g' r,
    mRemoveEdge eqb g a b = Some (g', r) /\
    mHasEdge eqb g a b = Some r /\
    mGetVertices g' = mGetVertices g /\
    forall c e,
      mGetEdgeWeight eqb g' c e =
      if links d a b c e then Some (Some 0) else mGetEdgeWeight eqb g c e.
Proof.
  intros Hr. destruct (reachable_matrixOk d ops g Hr) as [Hok Hd].
  destruct (mRemoveEdge_ok eqb eqb_spec g a b Hok)
    as (g' & r & E & Hh & _ & _ & Hv & Hw).
  rewrite Hd in Hw.
  exists g', r. split; [exact E|]. split; [exact Hh|].
  split; [exact Hv | exact Hw].
Qed.
End MatrixTheorems.

(** ** Instances of the further properties *)

Lemma pair12_wellFormed : wellFormed Z.eqb pair12.
Proof.
  destruct (wellFormed_step Z.eqb Z.eqb_eq (newGraph false) (AddEdge 1 2)
              (wellFormed_new _ _)) as (g' & E & _ & Hw).
  vm_compute in E. injection E as <-. exact Hw.
Qed.

Lemma sorted_one_two_three : StronglySorted (lt defaultCompare) [1; 2; 3].
Proof. repeat constructor. Qed.

Lemma insert_then_search_witness :
  exists t' : AvlBinarySearchTree Z,
    insert defaultCompare five 7 = Some t' /\
    search defaultCompare t' 7 = true /\
    (forall j : Z,
     j <> 7 ->
     search defaultCompare t' j = search defaultCompare five j) /\
    (search defaultCompare five 7 = false ->
     size t' = size five + 1 /\
     exists l1 l2 : list Z,
       inorderTraversal five = l1 ++ l2 /\
       inorderTraversal t' = l1 ++ 7 :: l2 /\
       Forall (fun x : Z => lt defaultCompare x 7) l1 /\
       Forall (lt defaultCompare 7) l2).
Proof.
  exact (insert_then_search defaultCompare defaultCompare_order five 7
         five_valid).
Defined.

Lemma delete_then_search_witness :
  exists (t' : AvlBinarySearchTree Z) (b : bool),
    delete defaultCompare five 4 = Some (t', b) /\
    search defaultCompare t' 4 = false /\
    (forall j : Z,
     j <> 4 ->
     search defaultCompare t' j = search defaultCompare five j) /\
    (search defaultCompare five 4 = true ->
     exists l1 l2 : list Z,
       inorderTraversal five = l1 ++ 4 :: l2 /\
       inorderTraversal t' = l1 ++ l2).
Proof.
  exact (delete_then_search defaultCompare defaultCompare_order five 4
         five_valid).
Defined.

Lemma findMin_findMax_spec_witness :
  findMin five = hd_error (inorderTraversal five) /\
  findMax five = hd_error (rev (inorderTraversal five)) /\
  (findMin five = None <-> root five = Null) /\
  (findMax five = None <-> root five = Null) /\
  (valid defaultCompare five ->
   kthSmallest five 1 = findMin five /\
   kthSmallest five (count_ five) = findMax five /\
   (forall k : Z,
    search defaultCompare five k = true ->
    (forall m : Z, findMin five = Some m -> defaultCompare m k <= 0) /\
    (forall m : Z, findMax five = Some m -> defaultCompare k m <= 0))).
Proof.
  exact (findMin_findMax_spec defaultCompare defaultCompare_order five).
Defined.

Lemma levelOrderTraversal_spec_witness :
  exists keys : list Z,
    AvlRest.levelOrderTraversal 5 five = AvlRest.Done keys /\
    Permutation keys (inorderTraversal five) /\
    hd_error keys = dataOf (root five).
Proof.
  exact (levelOrderTraversal_spec five 5 (le_n 5)).
Defined.

Lemma height_is_real_witness :
  height five = realHeight (root five) /\
  -1 <= height five /\
  (root five = Null -> height five = -1) /\
  Z.of_nat (length (inorderTraversal five)) <=
  2 ^ (height five + 1) - 1.
Proof.
  exact (height_is_real five eq_refl).
Defined.

Lemma isValidBST_exact_witness :
  isValidBST defaultCompare five = true <->
  StronglySorted (lt defaultCompare) (inorderTraversal five).
Proof.
  exact (isValidBST_exact defaultCompare defaultCompare_order five).
Defined.

Lemma lowestCommonAncestor_sym_witness :
  lowestCommonAncestor defaultCompare five 3 5 =
  lowestCommonAncestor defaultCompare five 5 3 /\
  (valid defaultCompare five ->
   search defaultCompare five 3 = true ->
   lowestCommonAncestor defaultCompare five 3 3 = Some 3).
Proof.
  exact (lowestCommonAncestor_sym defaultCompare defaultCompare_order five
         3 5).
Defined.

Lemma delete_all_keys_witness :
  exists t' : AvlBinarySearchTree Z,
    applyOps defaultCompare five (map OpDelete [1; 2; 3; 4; 5]) =
    Some t' /\
    AvlRest.isEmpty t' = true /\
    count_ t' = 0 /\ height t' = -1 /\ inorderTraversal t' = [].
Proof.
  exact (delete_all_keys defaultCompare defaultCompare_order five [1; 2; 3;
         4; 5] five_valid (fun k H => H)).
Defined.

Lemma plain_insert_then_search_witness :
  PlainBst.isValidBST defaultCompare
    (PlainBst.insert defaultCompare three 5) =
  true /\
  PlainBst.search defaultCompare
    (PlainBst.insert defaultCompare three 5) 5 =
  true /\
  (forall j : Z,
   j <> 5 ->
   PlainBst.search defaultCompare
     (PlainBst.insert defaultCompare three 5) j =
   PlainBst.search defaultCompare three j) /\
  PlainBst.count (PlainBst.insert defaultCompare three 5) =
  PlainBst.count three + 1 /\
  (PlainBst.search defaultCompare three 5 = false ->
   exists l1 l2 : list Z,
     PlainBst.inorderTraversal three = l1 ++ l2 /\
     PlainBst.inorderTraversal
       (PlainBst.insert defaultCompare three 5) =
     l1 ++ 5 :: l2).
Proof.
  exact (plain_insert_then_search defaultCompare defaultCompare_order three
         5 eq_refl).
Defined.

Lemma plain_duplicate_insert_counts_witness :
  Bst.root (PlainBst.insert defaultCompare three 2) = Bst.root three /\
  PlainBst.inorderTraversal (PlainBst.insert defaultCompare three 2) =
  PlainBst.inorderTraversal three /\
  PlainBst.count (PlainBst.insert defaultCompare three 2) =
  PlainBst.count three + 1 /\
  (PlainBst.count three =
   Z.of_nat (length (PlainBst.inorderTraversal three)) ->
   PlainBst.kthSmallest (PlainBst.insert defaultCompare three 2)
     (PlainBst.count (PlainBst.insert defaultCompare three 2)) =
   None).
Proof.
  exact (plain_duplicate_insert_counts defaultCompare defaultCompare_order
         three 2 eq_refl eq_refl).
Defined.

Lemma plain_delete_spec_witness :
  exists (t' : Bst.BinarySearchTree Z) (b : bool),
    PlainBst.delete defaultCompare three 2 = Some (t', b) /\
    PlainBst.isValidBST defaultCompare t' = true /\
    (b = true <-> PlainBst.search defaultCompare three 2 = true) /\
    PlainBst.search defaultCompare t' 2 = false /\
    (forall j : Z,
     j <> 2 ->
     PlainBst.search defaultCompare t' j =
     PlainBst.search defaultCompare three j) /\
    (PlainBst.count t' = PlainBst.count three - 1 <-> b = true) /\
    (b = false -> t' = three).
Proof.
  exact (plain_delete_spec defaultCompare defaultCompare_order three 2
         eq_refl).
Defined.

Lemma plain_and_avl_agree_witness :
  exists ta : AvlBinarySearchTree Z,
    insertAll defaultCompare empty [3; 1; 2] = Some ta /\
    PlainBst.inorderTraversal
      (PlainBst.insertAll defaultCompare PlainBst.empty [3; 1; 2]) =
    inorderTraversal ta /\
    PlainBst.count
      (PlainBst.insertAll defaultCompare PlainBst.empty [3; 1; 2]) =
    Z.of_nat (length [3; 1; 2]) /\
    count_ ta = Z.of_nat (length (inorderTraversal ta)).
Proof.
  exact (plain_and_avl_agree defaultCompare defaultCompare_order [3; 1; 2]).
Defined.

Lemma plain_ascending_degenerates_witness :
  Bst.root
    (PlainBst.insertAll defaultCompare PlainBst.empty [1; 2; 3]) =
  PlainBst.chain [1; 2; 3] /\
  PlainBst.height
    (PlainBst.insertAll defaultCompare PlainBst.empty [1; 2; 3]) =
  Z.of_nat (length [1; 2; 3]) - 1 /\
  ((3 <= length [1%Z; 2%Z; 3%Z])%nat ->
   Bst.isBalanced
     (PlainBst.insertAll defaultCompare PlainBst.empty [1; 2; 3]) =
   false).
Proof.
  exact (plain_ascending_degenerates defaultCompare defaultCompare_order
         [1; 2; 3] sorted_one_two_three).
Defined.

Lemma graph_addEdge_spec_witness :
  exists g' : Graph Z,
    addEdge Z.eqb pair12 2 3 = Some g' /\
    hasEdge Z.eqb g' 2 3 = true /\
    (directed pair12 = false -> hasEdge Z.eqb g' 3 2 = true) /\
    hasVertex Z.eqb g' 2 = true /\
    hasVertex Z.eqb g' 3 = true /\
    getVertices g' =
    getVertices (addVertex Z.eqb (addVertex Z.eqb pair12 2) 3) /\
    (forall c e : Z,
     hasEdge Z.eqb g' c e = true <->
     hasEdge Z.eqb pair12 c e = true \/
     c = 2 /\ e = 3 \/ directed pair12 = false /\ c = 3 /\ e = 2) /\
    (forall x : Z,
     hasVertex Z.eqb g' x = true <->
     hasVertex Z.eqb pair12 x = true \/ x = 2 \/ x = 3).
Proof.
  exact (graph_addEdge_spec Z.eqb Z.eqb_eq pair12 2 3).
Defined.

Lemma graph_removeEdge_spec_witness :
  exists (g' : Graph Z) (r : bool),
    removeEdge Z.eqb pair12 1 2 = Some (g', r) /\
    getVertices g' = getVertices pair12 /\
    (hasVertex Z.eqb pair12 1 = false \/
     hasVertex Z.eqb pair12 2 = false -> 
     g' = pair12 /\ r = false) /\
    (hasVertex Z.eqb pair12 1 = true ->
     hasVertex Z.eqb pair12 2 = true ->
     r =
     hasEdge Z.eqb pair12 1 2
     || negb (directed pair12) && hasEdge Z.eqb pair12 2 1 /\
     hasEdge Z.eqb g' 1 2 = false /\
     (directed pair12 = false -> hasEdge Z.eqb g' 2 1 = false) /\
     (forall c e : Z,
      ~ (c = 1 /\ e = 2) ->
      ~ (directed pair12 = false /\ c = 2 /\ e = 1) ->
      hasEdge Z.eqb g' c e = hasEdge Z.eqb pair12 c e)).
Proof.
  exact (graph_removeEdge_spec Z.eqb Z.eqb_eq pair12 1 2).
Defined.

Lemma graph_removeVertex_spec_witness :
  snd (removeVertex Z.eqb pair12 2) = hasVertex Z.eqb pair12 2 /\
  (hasVertex Z.eqb pair12 2 = false ->
   fst (removeVertex Z.eqb pair12 2) = pair12) /\
  (hasVertex Z.eqb pair12 2 = true ->
   hasVertex Z.eqb (fst (removeVertex Z.eqb pair12 2)) 2 = false /\
   getVertices (fst (removeVertex Z.eqb pair12 2)) =
   filter (fun x : Z => negb (x =? 2)) (getVertices pair12) /\
   (forall x : Z,
    hasEdge Z.eqb (fst (removeVertex Z.eqb pair12 2)) x 2 =
    false /\
    hasEdge Z.eqb (fst (removeVertex Z.eqb pair12 2)) 2 x =
    false) /\
   (forall c e : Z,
    c <> 2 ->
    e <> 2 ->
    hasEdge Z.eqb (fst (removeVertex Z.eqb pair12 2)) c e =
    hasEdge Z.eqb pair12 c e) /\
   (forall x : Z,
    x <> 2 ->
    hasVertex Z.eqb (fst (removeVertex Z.eqb pair12 2)) x =
    hasVertex Z.eqb pair12 x)).
Proof.
  exact (graph_removeVertex_spec Z.eqb Z.eqb_eq pair12 2).
Defined.

Lemma graph_invariants_witness :
  exists g : Graph Z,
    applyGraphOps Z.eqb (newGraph false)
      (firstn 1 [AddEdge 1 2; RemoveVertex 1]) =
    Some g /\
    directed g = false /\
    NoDup (getVertices g) /\
    (forall a b : Z,
     hasEdge Z.eqb g a b = true ->
     hasVertex Z.eqb g a = true /\ hasVertex Z.eqb g b = true) /\
    (false = false ->
     forall a b : Z, hasEdge Z.eqb g a b = hasEdge Z.eqb g b a).
Proof.
  exact (graph_invariants Z.eqb Z.eqb_eq false [AddEdge 1 2; RemoveVertex
         1] 1).
Defined.

Lemma graph_clone_spec_witness :
  exists g' : Graph Z,
    clone Z.eqb pair12 = Some g' /\
    directed g' = directed pair12 /\
    (forall x : Z,
     hasVertex Z.eqb g' x = hasVertex Z.eqb pair12 x) /\
    (forall a b : Z,
     hasEdge Z.eqb g' a b = hasEdge Z.eqb pair12 a b).
Proof.
  exact (graph_clone_spec Z.eqb Z.eqb_eq pair12 pair12_wellFormed).
Defined.

Lemma weighted_addEdge_spec_witness :
  exists g' : WeightedGraph Z Z,
    wAddEdge Z.eqb weighted12 1 2 9 = Some g' /\
    wDirected g' = wDirected weighted12 /\
    (forall c e : Z,
     wHasEdge Z.eqb g' c e =
     wHasEdge Z.eqb weighted12 c e
     || ((1 =? c) && (2 =? e)
         || negb (wDirected weighted12) && (2 =? c) && (1 =? e))) /\
    (forall c e : Z,
     wGetEdgeWeight Z.eqb g' c e =
     match wGetEdgeWeight Z.eqb weighted12 c e with
     | Some w0 => Some w0
     | None =>
         if
          (1 =? c) && (2 =? e)
          || negb (wDirected weighted12) && (2 =? c) && (1 =? e)
         then Some 9
         else None
     end).
Proof.
  exact (weighted_addEdge_spec Z.eqb Z.eqb_eq weighted12 1 2 9).
Defined.

Lemma weighted_updateEdgeWeight_spec_witness :
  exists g' : WeightedGraph Z Z,
    wUpdateEdgeWeight Z.eqb weighted12 1 2 9 =
    (g', wHasEdge Z.eqb weighted12 1 2) /\
    wDirected g' = wDirected weighted12 /\
    (wHasEdge Z.eqb weighted12 1 2 = false -> g' = weighted12) /\
    (forall c e : Z,
     wHasEdge Z.eqb g' c e = wHasEdge Z.eqb weighted12 c e) /\
    (wHasEdge Z.eqb weighted12 1 2 = true ->
     forall c e : Z,
     wGetEdgeWeight Z.eqb g' c e =
     (if
       (1 =? c) && (2 =? e)
       || negb (wDirected weighted12) && (2 =? c) && (1 =? e)
      then
       match wGetEdgeWeight Z.eqb weighted12 c e with
       | Some _ => Some 9
       | None => None
       end
      else wGetEdgeWeight Z.eqb weighted12 c e)).
Proof.
  exact (weighted_updateEdgeWeight_spec Z.eqb Z.eqb_eq weighted12 1 2 9).
Defined.

Lemma weighted_removeEdge_spec_witness :
  exists g' : WeightedGraph Z Z,
    wRemoveEdge Z.eqb weighted12 1 2 =
    (g', wHasEdge Z.eqb weighted12 1 2) /\
    wDirected g' = wDirected weighted12 /\
    (~ In 1 (wGetVertices weighted12) ->
     g' = weighted12 /\ wHasEdge Z.eqb weighted12 1 2 = false) /\
    (In 1 (wGetVertices weighted12) ->
     forall c e : Z,
     wGetEdgeWeight Z.eqb g' c e =
     (if
       (1 =? c) && (2 =? e)
       || negb (wDirected weighted12) && (2 =? c) && (1 =? e)
      then None
      else wGetEdgeWeight Z.eqb weighted12 c e)).
Proof.
  exact (weighted_removeEdge_spec Z.eqb Z.eqb_eq weighted12 1 2).
Defined.

Lemma weighted_undirected_symmetric_witness :
  exists g : WeightedGraph Z Z,
    applyWeightedOps Z.eqb (newWeighted false)
      [WAddEdge 1 2 7; WUpdateEdgeWeight 2 1 9] =
    Some g /\
    wDirected g = false /\
    (forall a b : Z,
     wHasEdge Z.eqb g a b = wHasEdge Z.eqb g b a /\
     wGetEdgeWeight Z.eqb g a b = wGetEdgeWeight Z.eqb g b a).
Proof.
  exact (weighted_undirected_symmetric Z.eqb Z.eqb_eq [WAddEdge 1 2 7;
         WUpdateEdgeWeight 2 1 9]).
Defined.

Lemma matrix_invariants_witness :
  exists g : GraphMatrix Z,
    applyMatrixOps Z.eqb (newMatrix false)
      [MAddEdge 1 2 5; MRemoveEdge 2 1] =
    Some g /\
    mDirected g = false /\
    length (getMatrix g) = length (mGetVertices g) /\
    Forall
      (fun row : list (option Z) =>
       length row = length (mGetVertices g))
      (getMatrix g) /\
    NoDup (mGetVertices g) /\
    (forall a b : Z,
     exists z : Z,
       mGetEdgeWeight Z.eqb g a b = Some (Some z) /\
       mHasEdge Z.eqb g a b = Some (negb (z =? 0))) /\
    (false = false ->
     forall a b : Z,
     mGetEdgeWeight Z.eqb g a b = mGetEdgeWeight Z.eqb g b a) /\
    (forall v : Z,
     exists l : list Z,
       mGetNeighbors Z.eqb g v = Some l /\
       (forall x : Z, In x l <-> mHasEdge Z.eqb g v x = Some true)).
Proof.
  exact (matrix_invariants Z.eqb Z.eqb_eq false [MAddEdge 1 2 5;
         MRemoveEdge 2 1]).
Defined.

Lemma matrix_addEdge_spec_witness :
  exists g' : GraphMatrix Z,
    mAddEdge Z.eqb matrix12 2 3 0 = Some g' /\
    mHasEdge Z.eqb g' 2 3 = Some (negb (0 =? 0)) /\
    (forall c e : Z,
     mGetEdgeWeight Z.eqb g' c e =
     (if (2 =? c) && (3 =? e) || negb false && (3 =? c) && (2 =? e)
      then Some (Some 0)
      else mGetEdgeWeight Z.eqb matrix12 c e)) /\
    (forall x : Z,
     In x (mGetVertices g') <->
     In x (mGetVertices matrix12) \/ x = 2 \/ x = 3).
Proof.
  exact (matrix_addEdge_spec Z.eqb Z.eqb_eq false [MAddEdge 1 2 5] matrix12
         2 3 0 eq_refl).
Defined.

Lemma matrix_removeEdge_spec_witness :
  exists (g' : GraphMatrix Z) (r : bool),
    mRemoveEdge Z.eqb matrix12 2 1 = Some (g', r) /\
    mHasEdge Z.eqb matrix12 2 1 = Some r /\
    mGetVertices g' = mGetVertices matrix12 /\
    (forall c e : Z,
     mGetEdgeWeight Z.eqb g' c e =
     (if (2 =? c) && (1 =? e) || negb false && (1 =? c) && (2 =? e)
      then Some (Some 0)
      else mGetEdgeWeight Z.eqb matrix12 c e)).
Proof.
  exact (matrix_removeEdge_spec Z.eqb Z.eqb_eq false [MAddEdge 1 2 5]
         matrix12 2 1 eq_refl).
Defined.
